(** * code-manager: a shallow embedding of [main.go]

    The program keeps a manifest of git repositories found below a root
    directory ([update]) and brings each of them up to date ([upgrade]:
    clone if missing, fetch, pull when [git status] matches a fixed
    pattern).  This file embeds

    - the status pattern [gitStatusTemplateStr], a parser and a matcher
      for the fragment of Go's regular expressions it is written in;
    - the merge of the manifest through a Go map and [sort.Slice];
    - the effectful functions [gitClone], [gitFetch], [gitPull],
      [upgrade], [remoteDir], [update] and [do] in a state monad over
      the two globals of the program and the history of its interactions
      with the operating system, and [main] with the command line;

    and proves the properties the specification states about them. *)

From Stdlib Require Import String Ascii List Bool Arith Lia Permutation Sorted.
From Stdlib Require OrdersEx.
From stdpp Require Import base tactics option list gmap strings sorting.

Import ListNotations.
Local Open Scope string_scope.
Local Open Scope list_scope.

(** ** Characters and strings *)

(** The two characters a Rocq string literal cannot hold conveniently. *)
Definition nl_char : ascii := "010"%char.
Definition dq_char : ascii := "034"%char.
Definition nl : string := String nl_char EmptyString.
Definition dq : string := String dq_char EmptyString.

(** Go's [[]byte(s)] and [string(b)]. *)
Abbreviation bytes := (list ascii).
Definition to_bytes : string -> bytes := list_ascii_of_string.
Definition of_bytes : bytes -> string := string_of_list_ascii.

(** ** Regular expressions: the fragment of [regexp/syntax] the pattern uses *)

Module Regexp.

(** The operators of [regexp/syntax.Regexp] that occur in the parse of
    [gitStatusTemplateStr].  Without the [m] flag, [^] is [OpBeginText]
    and [$] is [OpEndText]. *)
Inductive Regexp : Type :=
| EmptyMatch                                  (* OpEmptyMatch *)
| Literal (runes : bytes)                     (* OpLiteral *)
| CharClass (lo hi : ascii)                   (* OpCharClass, one range *)
| BeginText                                   (* OpBeginText *)
| EndText                                     (* OpEndText *)
| Capture (sub : Regexp)                      (* OpCapture *)
| Quest (sub : Regexp)                        (* OpQuest *)
| Plus (sub : Regexp)                         (* OpPlus *)
| Concat (r1 r2 : Regexp)                     (* OpConcat *)
| Alternate (r1 r2 : Regexp).                 (* OpAlternate *)

Definition in_range (lo hi c : ascii) : bool :=
  (nat_of_ascii lo <=? nat_of_ascii c)%nat && (nat_of_ascii c <=? nat_of_ascii hi)%nat.

(** [\d] is the Perl class [[0-9]]. *)
Definition is_digit (c : ascii) : bool := in_range "0" "9" c.

(** *** Parsing *)

(** Concatenation as the parser builds it: adjacent literals are fused
    into one [OpLiteral], an empty operand disappears. *)
Definition concat (r1 r2 : Regexp) : Regexp :=
  match r1, r2 with
  | EmptyMatch, _ => r2
  | _, EmptyMatch => r1
  | Literal a, Literal b => Literal (a ++ b)
  | Literal a, Concat (Literal b) r => Concat (Literal (a ++ b)) r
  | _, _ => Concat r1 r2
  end.

(** A backslash escape: [\d], [\n], or an escaped punctuation character. *)
Definition escape (c : ascii) : Regexp :=
  if Ascii.eqb c "d" then CharClass "0" "9"
  else if Ascii.eqb c "n" then Literal [nl_char]
  else Literal [c].

(** Postfix operators following an atom. *)
Fixpoint postfix (r : Regexp) (s : bytes) : Regexp * bytes :=
  match s with
  | c :: s' =>
      if Ascii.eqb c "?" then postfix (Quest r) s'
      else if Ascii.eqb c "+" then postfix (Plus r) s'
      else (r, s)
  | [] => (r, s)
  end.

(** Recursive descent.  [parse_alt] reads alternatives up to a closing
    parenthesis or the end of the text and returns what follows.  The fuel
    bounds the nesting and the length; [None] is a syntax error. *)
Fixpoint parse_alt (fuel : nat) (s : bytes) : option (Regexp * bytes) :=
  match fuel with
  | O => None
  | S fuel =>
      let fix parse_seq (n : nat) (s : bytes) : option (Regexp * bytes) :=
        match n with
        | O => None
        | S n =>
            match s with
            | [] => Some (EmptyMatch, s)
            | c :: s' =>
                if Ascii.eqb c ")" || Ascii.eqb c "|" then Some (EmptyMatch, s)
                else
                  atom ← (if Ascii.eqb c "(" then
                            match parse_alt fuel s' with
                            | Some (r, c' :: s'') =>
                                if Ascii.eqb c' ")" then Some (Capture r, s'') else None
                            | _ => None
                            end
                          else if Ascii.eqb c "^" then Some (BeginText, s')
                          else if Ascii.eqb c "$" then Some (EndText, s')
                          else if Ascii.eqb c "\" then
                            match s' with
                            | e :: s'' => Some (escape e, s'')
                            | [] => None
                            end
                          else Some (Literal [c], s'));
                  let '(r, s1) := postfix atom.1 atom.2 in
                  rest ← parse_seq n s1;
                  Some (concat r rest.1, rest.2)
            end
        end in
      match parse_seq (S (length s)) s with
      | Some (r1, c :: s') =>
          if Ascii.eqb c "|" then
            match parse_alt fuel s' with
            | Some (r2, s'') => Some (Alternate r1 r2, s'')
            | None => None
            end
          else Some (r1, c :: s')
      | other => other
      end
  end.

(** [regexp.Compile]: the whole text must be consumed. *)
Definition Compile (expr : string) : option Regexp :=
  match parse_alt (S (String.length expr)) (to_bytes expr) with
  | Some (r, []) => Some r
  | _ => None
  end.

(** [regexp.MustCompile] panics on a syntax error; the pattern of this
    program compiles (see [gitStatusTemplateRe_parsed]), so the default is
    never used. *)
Definition MustCompile (expr : string) : Regexp :=
  default EmptyMatch (Compile expr).

(** *** Matching *)

Fixpoint strip_prefix (p s : bytes) : option bytes :=
  match p, s with
  | [], _ => Some s
  | a :: p', b :: s' => if Ascii.eqb a b then strip_prefix p' s' else None
  | _ :: _, [] => None
  end.

(** [ends n re s] lists what can remain of [s] after a match of [re] that
    starts at the beginning of [s]; [n] is the length of the whole text, so
    that [s] is at the beginning of the text exactly when its length is
    [n].  Repetition stops when an iteration consumes nothing. *)
Fixpoint ends (n : nat) (re : Regexp) (s : bytes) {struct re} : list bytes :=
  match re with
  | EmptyMatch => [s]
  | Literal l => match strip_prefix l s with Some s' => [s'] | None => [] end
  | CharClass lo hi =>
      match s with
      | c :: s' => if in_range lo hi c then [s'] else []
      | [] => []
      end
  | BeginText => if (length s =? n)%nat then [s] else []
  | EndText => match s with [] => [s] | _ :: _ => [] end
  | Capture r => ends n r s
  | Quest r => ends n r s ++ [s]
  | Plus r =>
      (fix iter (fuel : nat) (s : bytes) {struct fuel} : list bytes :=
         flat_map (fun s' =>
                     match fuel with
                     | S fuel' =>
                         if (length s' <? length s)%nat then iter fuel' s' ++ [s'] else [s']
                     | O => [s']
                     end) (ends n r s)) (length s) s
  | Concat r1 r2 => flat_map (ends n r2) (ends n r1 s)
  | Alternate r1 r2 => ends n r1 s ++ ends n r2 s
  end.

(** [Regexp.Match]: is there a match anywhere in [b]? *)
Definition Match (re : Regexp) (b : string) : bool :=
  let t := to_bytes b in
  existsb (fun i => negb (forallb (fun _ => false) (ends (length t) re (drop i t))))
          (seq 0 (S (length t))).

End Regexp.

Import Regexp.

(** ** The status pattern (main.go, lines 90 to 96) *)

Definition gitStatusTemplateStr : string :=
  "^On branch master" +:+ nl +:+
  "(Your branch is behind 'origin/master' by \d+ commit(s?), and can be fast-forwarded\.|Your branch is up-to-date with 'origin/master'\.)" +:+ nl +:+
  "(  \(use " +:+ dq +:+ "git pull" +:+ dq +:+ " to update your local branch\)\n)?" +:+ nl +:+
  "nothing to commit, working tree clean" +:+ nl +:+
  "$".

Definition gitStatusTemplateRe : Regexp := MustCompile gitStatusTemplateStr.

(** The syntax tree the parser builds for the pattern. *)
Definition lit (s : string) : Regexp := Literal (to_bytes s).

Definition behind_re : Regexp :=
  Concat (lit "Your branch is behind 'origin/master' by ")
    (Concat (Plus (CharClass "0" "9"))
       (Concat (lit " commit")
          (Concat (Capture (Quest (lit "s")))
             (lit ", and can be fast-forwarded.")))).

Definition up_to_date_line : string :=
  "Your branch is up-to-date with 'origin/master'.".

Definition hint_line : string :=
  "  (use " +:+ dq +:+ "git pull" +:+ dq +:+ " to update your local branch)".

Definition clean_line : string := "nothing to commit, working tree clean".

Definition status_re : Regexp :=
  Concat BeginText
    (Concat (lit ("On branch master" +:+ nl))
       (Concat (Capture (Alternate behind_re (lit up_to_date_line)))
          (Concat (lit nl)
             (Concat (Quest (Capture (lit (hint_line +:+ nl))))
                (Concat (lit (nl +:+ clean_line +:+ nl)) EndText))))).

(** The gate of [gitPull] (line 117): [gitStatusTemplateRe.Match(stdoutBytes)]. *)
Definition gate (stdoutBytes : string) : bool :=
  Match gitStatusTemplateRe stdoutBytes.

(** * The program *)

(** ** Data (main.go, lines 20 to 36) *)

Record RepoConfig := { Directory : string; Remote : string }.

Record Config := { Repos : list RepoConfig }.

Record Flag := { RootDir : string; Update : bool; Upgrade : bool }.

(** ** Errors *)

(** Errors raised by the operating system and by the libraries.  The
    program only ever asks whether one of them says that a file does not
    exist ([os.IsNotExist]). *)
Inductive syserror :=
| ENOENT (msg : string)
| EFAIL (msg : string).

(** Go's [error] values the program handles: the sentinel
    [filepath.SkipDir], which no system call returns, the errors of the
    environment, and the ones made by [errors.New]. *)
Inductive error :=
| SkipDir
| OfSys (e : syserror)
| ErrorsNew (msg : string).

Definition IsNotExist (e : syserror) : bool :=
  match e with ENOENT _ => true | EFAIL _ => false end.

(** [err == filepath.SkipDir] *)
Definition is_SkipDir (e : error) : bool :=
  match e with SkipDir => true | _ => false end.

(** ** Paths ([path/filepath], with the separator [/]) *)

Definition is_slash (c : ascii) : bool := Ascii.eqb c "/".

Fixpoint drop_while {A} (p : A -> bool) (l : list A) : list A :=
  match l with
  | x :: l' => if p x then drop_while p l' else l
  | [] => []
  end.

(** The elements of a path: what stands between its slashes. *)
Fixpoint split_slash (path : string) : list string :=
  match path with
  | EmptyString => [EmptyString]
  | String c rest =>
      if is_slash c then EmptyString :: split_slash rest
      else match split_slash rest with
           | e :: es => String c e :: es
           | [] => [String c EmptyString]
           end
  end.

Fixpoint join_slash (elems : list string) : string :=
  match elems with
  | [] => EmptyString
  | [e] => e
  | e :: es => e +:+ "/" +:+ join_slash es
  end.

Definition is_rooted (path : string) : bool :=
  match path with
  | String c _ => is_slash c
  | EmptyString => false
  end.

(** One element of a path in [filepath.Clean], with the elements kept so
    far in [out], the last one first: an empty element and [.] are
    dropped; [..] removes the element before it when there is one to
    remove, is dropped at the root and kept otherwise; any other element
    is kept. *)
Definition clean_elem (rooted : bool) (out : list string) (e : string) : list string :=
  if String.eqb e EmptyString || String.eqb e "." then out
  else if String.eqb e ".." then
    match out with
    | top :: out' => if String.eqb top ".." then e :: out else out'
    | [] => if rooted then out else [e]
    end
  else e :: out.

(** [filepath.Clean]: the shortest path that names the same file by
    purely lexical processing. *)
Definition Clean (path : string) : string :=
  match path with
  | EmptyString => "."
  | _ =>
      let rooted := is_rooted path in
      let body := join_slash (rev (fold_left (clean_elem rooted) (split_slash path) [])) in
      if rooted then "/" +:+ body
      else match body with EmptyString => "." | _ => body end
  end.

(** [filepath.Join] with two elements: empty elements are ignored, the
    result is cleaned. *)
Definition Join (dir name : string) : string :=
  match dir, name with
  | EmptyString, EmptyString => EmptyString
  | EmptyString, _ => Clean name
  | _, _ => Clean (dir +:+ "/" +:+ name)
  end.

(** [filepath.Dir]: all but the last element of the path, cleaned. *)
Definition Dir (path : string) : string :=
  Clean (of_bytes (rev (drop_while (fun c => negb (is_slash c)) (rev (to_bytes path))))).

(** ** Commands ([os/exec]) *)

Record Cmd := { Args : list string; CmdDir : string }.

(** [exec.Command(name, arg...)] *)
Definition Command (name : string) (arg : list string) : Cmd :=
  {| Args := name :: arg; CmdDir := EmptyString |}.

(** [cmd.Dir = dir] *)
Definition in_dir (cmd : Cmd) (dir : string) : Cmd :=
  {| Args := Args cmd; CmdDir := dir |}.

Inductive Stream := Stdout | Stderr.

(** ** The file tree below the root, as [filepath.Walk] finds it *)

Record FileInfo := { Name : string; IsDir : bool }.

#[warnings="-register-all"] Inductive FileTree :=
| NoEntry (name : string) (e : syserror)               (* lstat fails *)
| File (name : string)
| Folder (name : string) (readdir : option syserror) (entries : list FileTree).

Definition tree_name (t : FileTree) : string :=
  match t with NoEntry n _ | File n | Folder n _ _ => n end.

Definition tree_is_dir (t : FileTree) : bool :=
  match t with Folder _ _ _ => true | _ => false end.

(** What [os.Open] and [ini.Load] give for a configuration file (lines 177
    to 185): the error of either, or the loaded file, a map from the names
    of its sections to their keys. *)
Definition IniSection : Type := gmap string string.
Definition IniFile : Type := gmap string IniSection.

Inductive ConfigRead :=
| CannotOpen (e : syserror)
| CannotLoad (e : syserror)
| IniLoaded (cfg : IniFile).

(** [File.Section] and [Section.Key] of ini.v1 never return nil: a section
    or a key that is not there is made, empty, and returned. *)
Definition ini_Section (cfg : IniFile) (name : string) : option IniSection :=
  Some (default ∅ (cfg !! name)).

Definition ini_Key (section : IniSection) (name : string) : option string :=
  Some (default EmptyString (section !! name)).

(** The ways through [remoteDir] (lines 177 to 194): [os.Open] fails,
    [ini.Load] fails, the section is nil, the key is nil, or the value of
    the key is returned. *)
Inductive OriginLookup :=
| OpenFails (e : syserror)
| LoadFails (e : syserror)
| NoSection
| NoKey
| Url (value : string).

(** ** Log lines ([glog]) *)

Inductive Severity := INFO | WARNING | ERROR.

(** One constructor for each format string of the program; the durations
    printed with [%.2f] are left out. *)
Inductive LogMsg :=
| MsgCheck (root : string)          (* "Recursively check code in directory ", root *)
| MsgErr (e : error)                (* glog.Error(err) in main *)
| MsgUpgrading                      (* "Upgrading" *)
| MsgUpgraded                       (* "Upgraded. Takes %.2f seconds." *)
| MsgCloneFailed (dir : string) (e : error) (stderr : string)
| MsgCloneFinished (dir : string)
| MsgFetchFailed (dir : string) (e : error) (stderr : string)
| MsgFetchFinished (dir : string)
| MsgUpgradeSkipped (dir : string)
| MsgUpgradeFailed (dir : string) (e : error) (stderr : string)
| MsgUpgradeFinished (dir : string)
| MsgUpdating                       (* "Updating..." *)
| MsgUpdated (n : nat)              (* "Updated %d repositories. Takes %.2f seconds." *)
| MsgWalkError (e : error).         (* "Error in file path walk: ", err *)

(** ** The history of a run *)

(** Every interaction of the program with its environment, with the answer
    it got. *)
Inductive Event :=
| EvLog (sev : Severity) (msg : LogMsg)
| EvStat (path : string) (r : option syserror)
| EvPipe (cmd : Cmd) (which : Stream) (r : option syserror)
| EvStart (cmd : Cmd) (r : option syserror)
| EvReadAll (cmd : Cmd) (which : Stream) (out : string) (r : option syserror)
| EvWait (cmd : Cmd) (r : option syserror)
| EvLstat (path : string) (r : option syserror)
| EvReadDir (path : string) (r : option syserror)
| EvOrigin (path : string) (r : OriginLookup)
| EvReadFile (filename : string) (r : string + syserror)
| EvWriteFile (filename : string) (data : string) (r : option syserror).

(** A flag that an imported package registers, as [glog] does: whether it
    is a boolean flag, and what its [Set] returns for a value. *)
Record LibFlag := { IsBoolFlag : bool; flag_Set : string -> option syserror }.

(** The environment answers each request knowing everything that happened
    before: a file that [git clone] created exists afterwards, a second
    [git status] may differ from the first.  [yaml.Unmarshal] and
    [yaml.Marshal] are functions; [range_seed] fixes the order in which
    [range] visits the keys of a map.  [flag_lib] are the flags of the
    imported packages; [glog_exits] tells whether a log call ends the
    process, as [glog] does with [os.Exit(2)] when it cannot write its
    files. *)
Record OS := {
  os_Stat : list Event -> string -> option syserror;
  cmd_Pipe : list Event -> Cmd -> Stream -> option syserror;
  cmd_Start : list Event -> Cmd -> option syserror;
  io_ReadAll : list Event -> Cmd -> Stream -> string * option syserror;
  cmd_Wait : list Event -> Cmd -> option syserror;
  fs_tree : list Event -> string -> FileTree;
  git_config : list Event -> string -> ConfigRead;
  io_ReadFile : list Event -> string -> string + syserror;
  io_WriteFile : list Event -> string -> string -> option syserror;
  yaml_Unmarshal : string -> Config -> Config * option syserror;
  yaml_Marshal : Config -> string + syserror;
  range_seed : list nat;
  flag_lib : string -> option LibFlag;
  glog_exits : list Event -> Severity -> LogMsg -> bool
}.

(** The name of the section of the remote named origin. *)
Definition remote_origin : string := "remote " +:+ dq +:+ "origin" +:+ dq.

(** Lines 177 to 194 on what was read: the two errors, the two nil checks,
    the value of the key. *)
Definition lookup_origin (r : ConfigRead) : OriginLookup :=
  match r with
  | CannotOpen e => OpenFails e
  | CannotLoad e => LoadFails e
  | IniLoaded cfg =>
      match ini_Section cfg remote_origin with
      | None => NoSection
      | Some section =>
          match ini_Key section "url" with
          | None => NoKey
          | Some value => Url value
          end
      end
  end.

(** Opening and loading the configuration at [path] after [h], and the
    lookup in it. *)
Definition git_origin (os : OS) (h : list Event) (path : string) : OriginLookup :=
  lookup_origin (git_config os h path).

(** ** State: the globals [config] and [flags], and the history *)

Record World := { config : Config; flags : Flag; history : list Event }.

Definition M (A : Type) : Type := World -> A * World.

#[global] Instance M_ret : MRet M := fun A (a : A) w => (a, w).
#[global] Instance M_bind : MBind M :=
  fun A B (f : A -> M B) (m : M A) w => let (a, w') := m w in f a w'.

Definition record (e : Event) : M unit :=
  fun w => (tt, {| config := config w; flags := flags w; history := history w ++ [e] |}).

(** Ask the environment, and keep the answer in the history. *)
Definition ask {A} (answer : list Event -> A) (ev : A -> Event) : M A :=
  fun w => let a := answer (history w) in
           (a, {| config := config w; flags := flags w; history := history w ++ [ev a] |}).

Definition get_config : M Config := fun w => (config w, w).
Definition get_flags : M Flag := fun w => (flags w, w).
Definition set_config (c : Config) : M unit :=
  fun w => (tt, {| config := c; flags := flags w; history := history w |}).

(** [for _, x := range l { body }] *)
Fixpoint for_range {A} (l : list A) (body : A -> M unit) : M unit :=
  match l with
  | [] => mret tt
  | x :: l' => body x;; for_range l' body
  end.

Definition glog_Info (msg : LogMsg) : M unit := record (EvLog INFO msg).
Definition glog_Warning (msg : LogMsg) : M unit := record (EvLog WARNING msg).
Definition glog_Error (msg : LogMsg) : M unit := record (EvLog ERROR msg).

(** ** The three git steps (lines 44 to 138) *)

Section Program.

Variable os : OS.

Definition os_Stat_ (path : string) : M (option syserror) :=
  ask (fun h => os_Stat os h path) (EvStat path).
Definition cmd_Pipe_ (cmd : Cmd) (which : Stream) : M (option syserror) :=
  ask (fun h => cmd_Pipe os h cmd which) (EvPipe cmd which).
Definition cmd_Start_ (cmd : Cmd) : M (option syserror) :=
  ask (fun h => cmd_Start os h cmd) (EvStart cmd).
Definition io_ReadAll_ (cmd : Cmd) (which : Stream) : M (string * option syserror) :=
  ask (fun h => io_ReadAll os h cmd which) (fun r => EvReadAll cmd which r.1 r.2).
Definition cmd_Wait_ (cmd : Cmd) : M (option syserror) :=
  ask (fun h => cmd_Wait os h cmd) (EvWait cmd).

(** The four commands the program runs. *)
Definition git_clone_cmd (repo : RepoConfig) : Cmd :=
  Command "git" ["clone"; Remote repo; Directory repo].
Definition git_fetch_cmd (repo : RepoConfig) : Cmd :=
  in_dir (Command "git" ["fetch"]) (Directory repo).
Definition git_status_cmd (repo : RepoConfig) : Cmd :=
  in_dir (Command "git" ["status"]) (Directory repo).
Definition git_pull_cmd (repo : RepoConfig) : Cmd :=
  in_dir (Command "git" ["pull"]) (Directory repo).

Definition gitClone (repo : RepoConfig) : M (string * option error) :=
  err ← os_Stat_ (Join (Directory repo) ".git");
  match err with
  | None => mret (EmptyString, Some SkipDir)
  | Some err =>
      if negb (IsNotExist err) then mret (EmptyString, Some (OfSys err))
      else
        let cmd := git_clone_cmd repo in
        err ← cmd_Pipe_ cmd Stderr;
        match err with
        | Some err => mret (EmptyString, Some (OfSys err))
        | None =>
            err ← cmd_Start_ cmd;
            match err with
            | Some err => mret (EmptyString, Some (OfSys err))
            | None =>
                '(stderrBytes, err) ← io_ReadAll_ cmd Stderr;
                match err with
                | Some err => mret (EmptyString, Some (OfSys err))
                | None =>
                    err ← cmd_Wait_ cmd;
                    match err with
                    | Some err => mret (stderrBytes, Some (OfSys err))
                    | None => mret (stderrBytes, None)
                    end
                end
            end
        end
  end.

Definition gitFetch (repo : RepoConfig) : M (string * option error) :=
  let cmd := git_fetch_cmd repo in
  err ← cmd_Pipe_ cmd Stderr;
  match err with
  | Some err => mret (EmptyString, Some (OfSys err))
  | None =>
      err ← cmd_Start_ cmd;
      match err with
      | Some err => mret (EmptyString, Some (OfSys err))
      | None =>
          '(stderrBytes, err) ← io_ReadAll_ cmd Stderr;
          match err with
          | Some err => mret (EmptyString, Some (OfSys err))
          | None =>
              err ← cmd_Wait_ cmd;
              match err with
              | Some err => mret (stderrBytes, Some (OfSys err))
              | None => mret (stderrBytes, None)
              end
          end
      end
  end.

Definition gitPull (repo : RepoConfig) : M (string * option error) :=
  (* Check if can pull *)
  let cmd := git_status_cmd repo in
  err ← cmd_Pipe_ cmd Stdout;
  match err with
  | Some err => mret (EmptyString, Some (OfSys err))
  | None =>
      err ← cmd_Start_ cmd;
      match err with
      | Some err => mret (EmptyString, Some (OfSys err))
      | None =>
          '(stdoutBytes, err) ← io_ReadAll_ cmd Stdout;
          match err with
          | Some err => mret (EmptyString, Some (OfSys err))
          | None =>
              err ← cmd_Wait_ cmd;
              match err with
              | Some err => mret (EmptyString, Some (OfSys err))
              | None =>
                  (* Skip this dir *)
                  if negb (gate stdoutBytes) then mret (EmptyString, Some SkipDir)
                  else
                    (* Run git pull *)
                    let cmd := git_pull_cmd repo in
                    err ← cmd_Pipe_ cmd Stderr;
                    match err with
                    | Some err => mret (EmptyString, Some (OfSys err))
                    | None =>
                        err ← cmd_Start_ cmd;
                        match err with
                        | Some err => mret (EmptyString, Some (OfSys err))
                        | None =>
                            '(stderrBytes, err) ← io_ReadAll_ cmd Stderr;
                            match err with
                            | Some err => mret (EmptyString, Some (OfSys err))
                            | None =>
                                err ← cmd_Wait_ cmd;
                                match err with
                                | Some err => mret (stderrBytes, Some (OfSys err))
                                | None => mret (stderrBytes, None)
                                end
                            end
                        end
                    end
              end
          end
      end
  end.

(** ** The reconciler (lines 140 to 174) *)

(** The third step of the loop body, lines 164 to 171. *)
Definition pull_step (repo : RepoConfig) : M unit :=
  '(stderr, err) ← gitPull repo;
  match err with
  | Some err =>
      if is_SkipDir err then glog_Warning (MsgUpgradeSkipped (Directory repo))
      else glog_Error (MsgUpgradeFailed (Directory repo) err stderr)
  | None => glog_Info (MsgUpgradeFinished (Directory repo))
  end.

(** The second step, lines 158 to 163, and on success the third. *)
Definition fetch_step (repo : RepoConfig) : M unit :=
  '(stderr, err) ← gitFetch repo;
  match err with
  | Some err => glog_Error (MsgFetchFailed (Directory repo) err stderr)
  | None => glog_Info (MsgFetchFinished (Directory repo));; pull_step repo
  end.

(** The loop body, lines 150 to 171; each [continue] ends it. *)
Definition upgrade_repo (repo : RepoConfig) : M unit :=
  '(stderr, err) ← gitClone repo;
  match err with
  | Some err =>
      if is_SkipDir err then fetch_step repo  (* No log for exist repos *)
      else glog_Error (MsgCloneFailed (Directory repo) err stderr)
  | None => glog_Info (MsgCloneFinished (Directory repo));; fetch_step repo
  end.

Definition upgrade : M (option error) :=
  glog_Info MsgUpgrading;;
  c ← get_config;
  for_range (Repos c) upgrade_repo;;
  glog_Info MsgUpgraded;;      (* the deferred call *)
  mret None.

End Program.

(** ** Merging the manifest (lines 227 to 238) *)

(** [range] over a Go map visits the keys in an order the language leaves
    open.  The seed picks, one after the other, which of the remaining
    entries comes next; every order arises from some seed. *)
Fixpoint range_order {A} (seed : list nat) (l : list A) : list A :=
  match seed with
  | [] => l
  | k :: seed' =>
      let i := k `mod` length l in
      match l !! i with
      | Some x => x :: range_order seed' (delete i l)
      | None => l
      end
  end.

(** [sort.Slice(x, less)]: the library promises a permutation that is
    sorted for [less], not a stable one.  Insertion is the algorithm here;
    with distinct keys, as after the merge, every algorithm gives the same
    list (see [sorted_permutation_unique]). *)
Fixpoint insert_sorted {A} (less : A -> A -> bool) (x : A) (l : list A) : list A :=
  match l with
  | [] => [x]
  | y :: l' => if less y x then y :: insert_sorted less x l' else x :: l
  end.

Definition sort_Slice {A} (less : A -> A -> bool) (l : list A) : list A :=
  foldr (insert_sorted less) [] l.

(** Lines 228 to 231: the map from directory to remote. *)
Definition repoDict (repos : list RepoConfig) : gmap string string :=
  foldl (fun m repo => <[Directory repo := Remote repo]> m) ∅ repos.

(** The comparison of line 237. *)
Definition less_directory (a b : RepoConfig) : bool :=
  String.ltb (Directory a) (Directory b).

(** Lines 228 to 238. *)
Definition merge_repos (seed : list nat) (repos : list RepoConfig) : list RepoConfig :=
  let repoDict := repoDict repos in
  let ranged := range_order seed (map_to_list repoDict) in
  let repos := map (fun '(dir, remote) => {| Directory := dir; Remote := remote |}) ranged in
  sort_Slice less_directory repos.

Section Discovery.

Variable os : OS.

(** ** [filepath.Walk] *)

Definition WalkFunc : Type := string -> option FileInfo -> option error -> M (option error).

Definition info_of (t : FileTree) : FileInfo :=
  {| Name := tree_name t; IsDir := tree_is_dir t |}.

(** The loop of [walk] over the entries of a directory: [lstat] each,
    descend with [descend], go on after [SkipDir] from a directory. *)
Definition walk_entries (descend : string -> FileTree -> M (option error))
    (walkFn : WalkFunc) (path : string) : list FileTree -> M (option error) :=
  fix each (entries : list FileTree) : M (option error) :=
    match entries with
    | [] => mret None
    | child :: entries' =>
        let filename := Join path (tree_name child) in
        match child with
        | NoEntry _ e =>
            record (EvLstat filename (Some e));;
            err ← walkFn filename None (Some (OfSys e));
            match err with
            | Some err => if is_SkipDir err then each entries' else mret (Some err)
            | None => each entries'
            end
        | _ =>
            record (EvLstat filename None);;
            err ← descend filename child;
            match err with
            | Some err =>
                if negb (tree_is_dir child) || negb (is_SkipDir err)
                then mret (Some err) else each entries'
            | None => each entries'
            end
        end
    end.

(** [walk] of [path/filepath], as the standard library has it today: the
    names of a directory are read, the function is called on the
    directory, then the entries are walked in turn.  [SkipDir] from a
    directory skips it, any other error stops the walk. *)
Fixpoint walk (walkFn : WalkFunc) (path : string) (t : FileTree) {struct t}
  : M (option error) :=
  match t with
  | NoEntry _ e => walkFn path None (Some (OfSys e))
  | File _ => walkFn path (Some (info_of t)) None
  | Folder _ readdir entries =>
      record (EvReadDir path readdir);;
      err1 ← walkFn path (Some (info_of t)) (OfSys <$> readdir);
      if bool_decide (is_Some readdir) || bool_decide (is_Some err1) then mret err1
      else walk_entries (walk walkFn) walkFn path entries
  end.

Definition Walk (root : string) (fn : WalkFunc) : M (option error) :=
  t ← (fun w => (fs_tree os (history w) root, w));
  err ← match t with
        | NoEntry _ e =>
            record (EvLstat root (Some e));;
            fn root None (Some (OfSys e))
        | _ =>
            record (EvLstat root None);;
            walk fn root t
        end;
  match err with
  | Some err => if is_SkipDir err then mret None else mret (Some err)
  | None => mret None
  end.

(** ** [remoteDir] (lines 176 to 195) *)

(** What [remoteDir] returns for each outcome of the lookup. *)
Definition origin_result (path : string) (r : OriginLookup) : string * option error :=
  match r with
  | OpenFails e => (EmptyString, Some (OfSys e))
  | LoadFails e => (EmptyString, Some (OfSys e))
  | NoSection =>
      (EmptyString,
       Some (ErrorsNew ("can't find " +:+ dq +:+ "origin" +:+ dq +:+ " in " +:+ path)))
  | NoKey =>
      (EmptyString,
       Some (ErrorsNew ("can't find " +:+ dq +:+ "origin.url" +:+ dq +:+ " in " +:+ path)))
  | Url value => (value, None)
  end.

Definition remoteDir (path : string) : M (string * option error) :=
  r ← ask (fun h => git_origin os h (Join path "config")) (EvOrigin (Join path "config"));
  mret (origin_result path r).

(** ** [update] (lines 197 to 240) *)

(** The function literal passed to [filepath.Walk], lines 206 to 223. *)
Definition update_visit : WalkFunc := fun path info err =>
  match err with
  | Some err => glog_Error (MsgWalkError err);; mret (Some err)
  | None =>
      match info with
      | None => mret None   (* not reached: Walk passes info when err is nil *)
      | Some info =>
          if negb (IsDir info) || negb (String.eqb (Name info) ".git") then mret None
          else
            '(remote, err) ← remoteDir path;
            match err with
            | Some err => mret (Some err)
            | None =>
                c ← get_config;
                set_config {| Repos := Repos c ++
                                [{| Directory := Dir path; Remote := remote |}] |};;
                mret (Some SkipDir)
            end
      end
  end.

(** The deferred log line of [update], lines 200 to 204. *)
Definition update_deferred : M unit :=
  c ← get_config; glog_Info (MsgUpdated (length (Repos c))).

Definition update : M (option error) :=
  glog_Info MsgUpdating;;
  f ← get_flags;
  (* Recursively check all path *)
  err ← Walk (RootDir f) update_visit;
  match err with
  | Some err => update_deferred;; mret (Some err)
  | None =>
      (* Merge repositories *)
      c ← get_config;
      set_config {| Repos := merge_repos (range_seed os) (Repos c) |};;
      update_deferred;;
      mret None
  end.

(** ** [do] (lines 242 to 277) *)

Definition do : M (option error) :=
  f ← get_flags;
  (* Read config file *)
  let filename := Join (RootDir f) "repositories.txt" in
  r ← ask (fun h => io_ReadFile os h filename) (EvReadFile filename);
  match r with
  | inr err => mret (Some (OfSys err))
  | inl configYAML =>
      c ← get_config;
      let '(c', err) := yaml_Unmarshal os configYAML c in
      set_config c';;
      match err with
      | Some err => mret (Some (OfSys err))
      | None =>
          (* Update repositories list *)
          err ← (if Update f then update else mret None);
          match err with
          | Some err => mret (Some err)
          | None =>
              (* Upgrade repositories *)
              err ← (if Upgrade f then upgrade os else mret None);
              match err with
              | Some err => mret (Some err)
              | None =>
                  (* Update config file *)
                  if Update f then
                    c ← get_config;
                    match yaml_Marshal os c with
                    | inr err => mret (Some (OfSys err))
                    | inl configYAML =>
                        err ← ask (fun h => io_WriteFile os h filename configYAML)
                                  (EvWriteFile filename configYAML);
                        match err with
                        | Some err => mret (Some (OfSys err))
                        | None => mret None
                        end
                    end
                  else mret None
              end
          end
      end
  end.

(** ** [main] (lines 279 to 285) *)

(** What [main] does once [flag.Parse] has returned, lines 281 to 284. *)
Definition main_work : M unit :=
  f ← get_flags;
  glog_Info (MsgCheck (RootDir f));;
  err ← do;
  match err with
  | Some err => glog_Error (MsgErr err)
  | None => mret tt
  end.

End Discovery.

(** ** [init] (lines 38 to 42) and the command line ([flag]) *)

(** The three flags the program registers, with their default values. *)
Definition init : Flag :=
  {| RootDir := "/Volumes/Code/src"; Update := true; Upgrade := true |}.

(** The zero values of the globals and the flags as [init] leaves them. *)
Definition start : World := {| config := {| Repos := [] |}; flags := init; history := [] |}.

(** [strconv.ParseBool] *)
Definition ParseBool (s : string) : option bool :=
  if existsb (String.eqb s) ["1"; "t"; "T"; "TRUE"; "true"; "True"] then Some true
  else if existsb (String.eqb s) ["0"; "f"; "F"; "FALSE"; "false"; "False"] then Some false
  else None.

(** The text before the first [=] and the text after it. *)
Fixpoint cut_equals (s : string) : option (string * string) :=
  match s with
  | EmptyString => None
  | String c rest =>
      if Ascii.eqb c "=" then Some (EmptyString, rest)
      else match cut_equals rest with
           | Some (name, value) => Some (String c name, value)
           | None => None
           end
  end.

(** How [parseOne] reads an argument: not a flag, the terminator [--], a
    flag with bad syntax, or a flag with its name and, after [=], its
    value.  The [=] cannot be the first character of the name. *)
Inductive Argument :=
| NotAFlag
| Terminator
| BadSyntax
| IsFlag (name : string) (value : option string).

Definition read_argument (s : string) : Argument :=
  match s with
  | String "-" (String c rest as one) =>
      let two := Ascii.eqb c "-" in
      if two && String.eqb rest EmptyString then Terminator
      else
        match (if two then rest else one) with
        | EmptyString => BadSyntax
        | String d name' =>
            if Ascii.eqb d "-" || Ascii.eqb d "=" then BadSyntax
            else match cut_equals name' with
                 | Some (name, value) => IsFlag (String d name) (Some value)
                 | None => IsFlag (String d name') None
                 end
        end
  | _ => NotAFlag
  end.

(** A flag of the set [flag.CommandLine]: one of the three of the program
    or one of an imported package. *)
Inductive Formal :=
| FlagDir
| FlagUpdate
| FlagUpgrade
| FlagLib (lf : LibFlag).

Definition formal (os : OS) (name : string) : option Formal :=
  if String.eqb name "dir" then Some FlagDir
  else if String.eqb name "update" then Some FlagUpdate
  else if String.eqb name "upgrade" then Some FlagUpgrade
  else FlagLib <$> flag_lib os name.

Definition is_bool_flag (fl : Formal) : bool :=
  match fl with
  | FlagDir => false
  | FlagUpdate | FlagUpgrade => true
  | FlagLib lf => IsBoolFlag lf
  end.

(** [flag.Value.Set]: the flags after the value was set, or nothing when
    the value is refused. *)
Definition set_flag (fl : Formal) (value : string) (f : Flag) : option Flag :=
  match fl with
  | FlagDir => Some {| RootDir := value; Update := Update f; Upgrade := Upgrade f |}
  | FlagUpdate =>
      b ← ParseBool value; Some {| RootDir := RootDir f; Update := b; Upgrade := Upgrade f |}
  | FlagUpgrade =>
      b ← ParseBool value; Some {| RootDir := RootDir f; Update := Update f; Upgrade := b |}
  | FlagLib lf =>
      match flag_Set lf value with
      | None => Some f
      | Some _ => None
      end
  end.

(** How [flag.Parse] ends: it returns with the flags set, or the process
    exits.  [flag.CommandLine] handles errors with [flag.ExitOnError]. *)
Inductive Parsed :=
| FlagsSet (f : Flag)
| ParseExit (code : nat).

(** [flag.Parse] on the arguments after the name of the program, as the
    standard library has it today.  [want] is a flag that is not boolean
    and came without [=]: its value is the next argument.  A flag that is
    not defined, a value that is refused and a missing value end the
    process with status 2, [-h] and [-help] with status 0; the first
    argument that is not a flag ends the parsing. *)
Fixpoint flag_Parse (os : OS) (want : option Formal) (args : list string) (f : Flag)
  : Parsed :=
  match args with
  | [] =>
      match want with
      | Some _ => ParseExit 2
      | None => FlagsSet f
      end
  | s :: args' =>
      match want with
      | Some fl =>
          match set_flag fl s f with
          | Some f' => flag_Parse os None args' f'
          | None => ParseExit 2
          end
      | None =>
          match read_argument s with
          | NotAFlag | Terminator => FlagsSet f
          | BadSyntax => ParseExit 2
          | IsFlag name value =>
              match formal os name with
              | None =>
                  if String.eqb name "help" || String.eqb name "h" then ParseExit 0
                  else ParseExit 2
              | Some fl =>
                  if is_bool_flag fl then
                    match set_flag fl (default "true" value) f with
                    | Some f' => flag_Parse os None args' f'
                    | None => ParseExit 2
                    end
                  else
                    match value with
                    | Some v =>
                        match set_flag fl v f with
                        | Some f' => flag_Parse os None args' f'
                        | None => ParseExit 2
                        end
                    | None => flag_Parse os (Some fl) args' f
                    end
              end
          end
      end
  end.

(** ** The process *)

(** How a Go process ends, and the exit status the shell sees: 0 when
    [main] returns, the argument of [os.Exit] otherwise. *)
Inductive Termination := Returned | Exited (code : nat).

Definition exit_status (t : Termination) : nat :=
  match t with Returned => 0 | Exited code => code end.

(** The history at the first log call among [new] that ends the process,
    if one does; [h] is what happened before [new]. *)
Fixpoint first_exit (os : OS) (h new : list Event) : option (list Event) :=
  match new with
  | [] => None
  | e :: new' =>
      match e with
      | EvLog sev msg =>
          if glog_exits os h sev msg then Some (h ++ [e]) else first_exit os (h ++ [e]) new'
      | _ => first_exit os (h ++ [e]) new'
      end
  end.

(** [main]: [flag.Parse], which may end the process, then the work.  A
    log call that ends the process cuts the work there.  Every answer of
    the environment depends only on what happened before, so up to that
    call the work is the one [main_work] computes. *)
Definition main (os : OS) (args : list string) (w : World) : Termination * list Event :=
  match flag_Parse os None args (flags w) with
  | ParseExit code => (Exited code, history w)
  | FlagsSet f =>
      let w1 := {| config := config w; flags := f; history := history w |} in
      let w2 := (main_work os w1).2 in
      match first_exit os (history w1) (drop (length (history w1)) (history w2)) with
      | Some h => (Exited 2, h)
      | None => (Returned, history w2)
      end
  end.

(** A run of the program with the arguments [args]. *)
Definition run (os : OS) (args : list string) : Termination * list Event :=
  main os args start.

(** * Notions the properties are stated with *)

(** What a match of [re] consumes: [den n re s s'] when [re] matches at the
    beginning of [s] and leaves [s'], in a text of length [n]. *)
Fixpoint den (n : nat) (re : Regexp) (s s' : bytes) {struct re} : Prop :=
  match re with
  | EmptyMatch => s = s'
  | Literal l => s = l ++ s'
  | CharClass lo hi => exists c, in_range lo hi c = true /\ s = c :: s'
  | BeginText => s = s' /\ length s = n
  | EndText => s = [] /\ s' = []
  | Capture r => den n r s s'
  | Quest r => s = s' \/ den n r s s'
  | Plus r =>
      exists k,
        (fix rep (k : nat) (s : bytes) : Prop :=
           match k with
           | O => den n r s s'
           | S k' => exists m, den n r s m /\ rep k' m
           end) k s
  | Concat r1 r2 => exists m, den n r1 s m /\ den n r2 m s'
  | Alternate r1 r2 => den n r1 s s' \/ den n r2 s s'
  end.

(** ** The status texts the gate accepts *)

Definition behind_line (count plural : string) : string :=
  "Your branch is behind 'origin/master' by " +:+ count +:+ " commit" +:+ plural
  +:+ ", and can be fast-forwarded.".

(** Four lines: the branch, its relation to the remote branch, an optional
    hint followed by an empty line, the state of the working tree. *)
Definition status_text (branch_line line2 hint : string) : string :=
  branch_line +:+ nl +:+ line2 +:+ nl +:+ hint +:+ nl +:+ clean_line +:+ nl.

Definition all_digits (s : string) : bool := forallb is_digit (to_bytes s).

Inductive tracking_line : string -> Prop :=
| tracking_up_to_date : tracking_line up_to_date_line
| tracking_behind count plural :
    count <> EmptyString -> all_digits count = true ->
    plural = EmptyString \/ plural = "s" ->
    tracking_line (behind_line count plural).

Definition hint_or_nothing (hint : string) : Prop :=
  hint = EmptyString \/ hint = hint_line +:+ nl.

(** ** The order on directories: Go compares strings byte by byte *)

Definition string_lt (a b : string) : Prop := String.ltb a b = true.


(** [not_after less a b]: for [less], [b] does not have to come before [a]. *)
Definition not_after {A} (less : A -> A -> bool) (a b : A) : Prop := less b a = false.

(** Sorted and without two equal directories is strictly ascending. *)
Definition ascending : list RepoConfig -> Prop :=
  StronglySorted (fun a b => string_lt (Directory a) (Directory b)).

(** The remote of the last entry of [repos] for directory [d]. *)
Fixpoint last_remote (d : string) (repos : list RepoConfig) : option string :=
  match repos with
  | [] => None
  | repo :: rest =>
      match last_remote d rest with
      | Some remote => Some remote
      | None => if String.eqb (Directory repo) d then Some (Remote repo) else None
      end
  end.

Definition repo_of (kv : string * string) : RepoConfig :=
  {| Directory := kv.1; Remote := kv.2 |}.

(** ** Histories *)

(** The events of [w'] that came after [w]. *)
Definition since (w w' : World) : list Event :=
  drop (length (history w)) (history w').

(** From [w] to [w'] the flags stayed, and the history grew by events that
    all satisfy [P]. *)
Definition grows (P : Event -> Prop) (w w' : World) : Prop :=
  flags w' = flags w /\
  exists new, history w' = history w ++ new /\ Forall P new.

Definition emits {A} (P : Event -> Prop) (m : M A) : Prop :=
  forall w, grows P w (m w).2.

(** The command an event is about. *)
Definition event_cmd (e : Event) : option Cmd :=
  match e with
  | EvPipe cmd _ _ | EvStart cmd _ | EvReadAll cmd _ _ _ | EvWait cmd _ => Some cmd
  | _ => None
  end.

(** The four events of a command that runs to the end with output [out]
    on the stream the program reads. *)
Definition run_events (cmd : Cmd) (which : Stream) (out : string) : list Event :=
  [EvPipe cmd which None; EvStart cmd None; EvReadAll cmd which out None; EvWait cmd None].

(** After history [h] the environment lets [cmd] run to the end: the pipe
    is made, the process starts, [out] is read, the process exits with
    status 0. *)
Definition completes (os : OS) (cmd : Cmd) (which : Stream) (h : list Event) (out : string)
  : Prop :=
  cmd_Pipe os h cmd which = None /\
  cmd_Start os (h ++ [EvPipe cmd which None]) cmd = None /\
  io_ReadAll os (h ++ [EvPipe cmd which None; EvStart cmd None]) cmd which = (out, None) /\
  cmd_Wait os (h ++ [EvPipe cmd which None; EvStart cmd None;
                     EvReadAll cmd which out None]) cmd = None.

(** ** Stages of a run *)

Inductive Stage := Startup | Load | Discover | Reconcile | Persist.

Definition stage_rank (s : Stage) : nat :=
  match s with Startup => 0 | Load => 1 | Discover => 2 | Reconcile => 3 | Persist => 4 end.

(** The stage an event belongs to: reading the manifest; walking the tree
    and reading git configurations; running git; writing the manifest. *)
Definition stage_of (e : Event) : Stage :=
  match e with
  | EvReadFile _ _ => Load
  | EvLstat _ _ | EvReadDir _ _ | EvOrigin _ _ => Discover
  | EvLog _ (MsgUpdating | MsgUpdated _ | MsgWalkError _) => Discover
  | EvStat _ _ | EvPipe _ _ _ | EvStart _ _ | EvReadAll _ _ _ _ | EvWait _ _ => Reconcile
  | EvLog _ (MsgCheck _ | MsgErr _) => Startup
  | EvLog _ _ => Reconcile
  | EvWriteFile _ _ _ => Persist
  end.

Definition in_stage (s : Stage) (e : Event) : Prop := stage_of e = s.

(** The stages of a history never go back. *)
Definition staged (h : list Event) : Prop :=
  StronglySorted (fun a b => stage_rank (stage_of a) <= stage_rank (stage_of b)) h.

(** ** What an event is about *)

(** The git subcommand of a command: its second argument. *)
Definition subcommand (cmd : Cmd) : string :=
  match Args cmd with
  | _ :: sub :: _ => sub
  | _ => EmptyString
  end.

(** The event belongs to a run of [git sub]. *)
Definition about (sub : string) (e : Event) : bool :=
  match event_cmd e with
  | Some cmd => String.eqb (subcommand cmd) sub
  | None => false
  end.

(** The two log lines of the clone step. *)
Definition clone_log (e : Event) : bool :=
  match e with
  | EvLog _ (MsgCloneFailed _ _ _ | MsgCloneFinished _) => true
  | _ => false
  end.

(** ** What a status text reports *)

Definition ends_with (s suffix : string) : bool :=
  match strip_prefix (rev (to_bytes suffix)) (rev (to_bytes s)) with
  | Some _ => true
  | None => false
  end.

(** The last line of the output of [git status] is the one git prints when
    there is nothing staged, modified or untracked.  A status that reports
    an uncommitted change ends otherwise. *)
Definition reports_clean (out : string) : bool := ends_with out (clean_line +:+ nl).

(** A status of a clean tree on [branch] that is up to date with [remote]. *)
Definition up_to_date_status (branch remote : string) : string :=
  status_text ("On branch " +:+ branch)
    ("Your branch is up-to-date with '" +:+ remote +:+ "'.") EmptyString.

(** The text has no byte [c]. *)
Definition lacks (c : ascii) (s : string) : bool :=
  forallb (fun x => negb (Ascii.eqb x c)) (to_bytes s).

(** The lookup of the origin url did not give a url. *)
Definition lookup_failed (o : OriginLookup) : bool :=
  match o with Url _ => false | _ => true end.

Definition origin_failure (e : Event) : bool :=
  match e with EvOrigin _ o => lookup_failed o | _ => false end.

Definition is_write (e : Event) : bool :=
  match e with EvWriteFile _ _ _ => true | _ => false end.

(** The world after one more event. *)
Definition after (w : World) (new : list Event) : World :=
  {| config := config w; flags := flags w; history := history w ++ new |}.

(** ** Running a command *)

(** The pattern of lines 53 to 67, 73 to 87 and 123 to 137: pipe the
    standard error, start, read it all, wait. *)
Definition run_capture (os : OS) (cmd : Cmd) : M (string * option error) :=
  err ← cmd_Pipe_ os cmd Stderr;
  match err with
  | Some err => mret (EmptyString, Some (OfSys err))
  | None =>
      err ← cmd_Start_ os cmd;
      match err with
      | Some err => mret (EmptyString, Some (OfSys err))
      | None =>
          '(stderrBytes, err) ← io_ReadAll_ os cmd Stderr;
          match err with
          | Some err => mret (EmptyString, Some (OfSys err))
          | None =>
              err ← cmd_Wait_ os cmd;
              match err with
              | Some err => mret (stderrBytes, Some (OfSys err))
              | None => mret (stderrBytes, None)
              end
          end
      end
  end.

(** The run of [cmd] begins: its pipe is asked for, and once the pipe is
    there the process is started. *)
Definition begins (cmd : Cmd) (which : Stream) (new : list Event) : Prop :=
  exists r rest,
    new = EvPipe cmd which r :: rest /\
    (r = None -> exists r' rest', rest = EvStart cmd r' :: rest').

(** ** Scenarios *)

(** A configuration whose remote named origin has the url [url]. *)
Definition origin_config (url : string) : ConfigRead :=
  IniLoaded {[ remote_origin := {[ "url" := url ]} ]}.

(** An environment that answers the same whatever happened before: [stat]
    to [os.Stat], [exits cmd] to the wait for [cmd], [status] on the
    standard output of a command and nothing on its standard error; pipes
    and starts succeed.  Below the root is [tree], every git configuration
    reads as [gitconfig], the manifest file reads as [manifest] and parses
    to [parsed].  No imported package registers a flag and no log call
    ends the process. *)
Definition scripted (stat : option syserror) (exits : Cmd -> option syserror)
    (status : string) (tree : FileTree) (gitconfig : ConfigRead)
    (manifest : string + syserror) (parsed : Config * option syserror) : OS :=
  {| os_Stat := fun _ _ => stat;
     cmd_Pipe := fun _ _ _ => None;
     cmd_Start := fun _ _ => None;
     io_ReadAll := fun _ _ which =>
       (match which with Stdout => status | Stderr => EmptyString end, None);
     cmd_Wait := fun _ cmd => exits cmd;
     fs_tree := fun _ _ => tree;
     git_config := fun _ _ => gitconfig;
     io_ReadFile := fun _ _ => manifest;
     io_WriteFile := fun _ _ _ => None;
     yaml_Unmarshal := fun _ _ => parsed;
     yaml_Marshal := fun _ => inl "repos: ...";
     range_seed := [1; 0];
     flag_lib := fun _ => None;
     glog_exits := fun _ _ _ => false |}.

Definition repo_a : RepoConfig := {| Directory := "/r/a"; Remote := "u1" |}.
Definition repo_b : RepoConfig := {| Directory := "/r/b"; Remote := "u2" |}.

(** Below [/r]: a plain directory [a] and a repository [b]. *)
Definition tree_r : FileTree :=
  Folder "r" None
    [Folder "a" None [File "x"];
     Folder "b" None [Folder ".git" None [File "config"]; File "y"]].

(** The world of a run on [/r] with both flags set, before anything
    happened. *)
Definition world_r : World :=
  {| config := {| Repos := [] |};
     flags := {| RootDir := "/r"; Update := true; Upgrade := true |};
     history := [] |}.

(** The status text of the scenario of the specification: three lines. *)
Definition scenario_status : string :=
  "On branch master" +:+ nl +:+ up_to_date_line +:+ nl +:+ clean_line +:+ nl.

(** What git prints for a clean tree that is up to date: the same with an
    empty line before the last. *)
Definition clean_status : string :=
  status_text "On branch master" up_to_date_line EmptyString.

(** A status with a modified file. *)
Definition dirty_status : string :=
  "On branch master" +:+ nl +:+ up_to_date_line +:+ nl +:+ nl +:+
  "Changes not staged for commit:" +:+ nl +:+
  "	modified:   main.go" +:+ nl +:+ nl +:+
  "no changes added to commit" +:+ nl.

Definition all_exit_0 : Cmd -> option syserror := fun _ => None.

(** Every git command runs, the repositories exist, the status is [status]. *)
Definition os_status (status : string) : OS :=
  scripted None all_exit_0 status tree_r (origin_config "u2") (inl "repos: ...")
    ({| Repos := [repo_a] |}, None).

(** The exit status of [git sub] is not 0, every other command runs. *)
Definition fails_on (sub : string) : Cmd -> option syserror :=
  fun cmd => if String.eqb (subcommand cmd) sub then Some (EFAIL "exit status 128") else None.

(** No repository is there yet and [git clone] fails. *)
Definition os_clone_fails : OS :=
  scripted (Some (ENOENT "no such file or directory")) (fails_on "clone") clean_status
    tree_r (origin_config "u2") (inl "repos: ...") ({| Repos := [repo_a] |}, None).

(** The repositories are there and [git fetch] fails. *)
Definition os_fetch_fails : OS :=
  scripted None (fails_on "fetch") clean_status
    tree_r (origin_config "u2") (inl "repos: ...") ({| Repos := [repo_a] |}, None).

(** A world with two repositories in the manifest. *)
Definition world_ab : World :=
  {| config := {| Repos := [repo_a; repo_b] |};
     flags := {| RootDir := "/r"; Update := true; Upgrade := true |};
     history := [] |}.

(** ** Discovery *)

(** What holds of any part of the walk of [update] that goes from [w] to
    [w'] and returns [r]: only events of the discovery, the manifest only
    grows at its end, and a failed lookup of an origin url is the last
    thing that happened and its error is what is returned. *)
Definition discovery_ok (w : World) (r : option error) (w' : World) : Prop :=
  grows (in_stage Discover) w w' /\
  (exists D, Repos (config w') = Repos (config w) ++ D) /\
  (forall p o,
      In (EvOrigin p o) (since w w') -> lookup_failed o = true ->
      exists path e,
        p = Join path "config" /\ (origin_result path o).2 = Some e /\
        r = Some e /\ exists before, since w w' = before ++ [EvOrigin p o]).

(** Events of the discovery other than a failed lookup. *)
Definition quiet (e : Event) : Prop := in_stage Discover e /\ origin_failure e = false.

(** [discovery_ok] holds of the walk of the tree [t], wherever it starts. *)
Definition walk_ok_at (os : OS) (t : FileTree) : Prop :=
  forall path w,
    discovery_ok w (walk (update_visit os) path t w).1 (walk (update_visit os) path t w).2.

(** ** The orchestrator *)

Definition manifest_file (w : World) : string :=
  Join (RootDir (flags w)) "repositories.txt".

(** The world after the manifest was read as [yaml] and parsed to [c]. *)
Definition loaded (w : World) (yaml : string) (c : Config) : World :=
  {| config := c; flags := flags w;
     history := history w ++ [EvReadFile (manifest_file w) (inl yaml)] |}.

(** The write-back of lines 266 to 275, from world [w]. *)
Definition persist (os : OS) (filename : string) (w : World) : option error * World :=
  match yaml_Marshal os (config w) with
  | inr err => (Some (OfSys err), w)
  | inl data =>
      let r := io_WriteFile os (history w) filename data in
      (OfSys <$> r, after w [EvWriteFile filename data r])
  end.

(** A world whose manifest holds the repository [/r/a]. *)
Definition world_a : World :=
  {| config := {| Repos := [repo_a] |};
     flags := {| RootDir := "/r"; Update := true; Upgrade := true |};
     history := [] |}.

(** The configuration of the repository [/r/b] has no remote named
    origin: the file loads and has no such section. *)
Definition os_no_origin : OS :=
  scripted None all_exit_0 clean_status tree_r (IniLoaded ∅) (inl "repos: ...")
    ({| Repos := [repo_a] |}, None).

(** The configuration of the repository [/r/b] cannot be opened. *)
Definition os_config_unreadable : OS :=
  scripted None all_exit_0 clean_status tree_r (CannotOpen (EFAIL "permission denied"))
    (inl "repos: ...") ({| Repos := [repo_a] |}, None).

(** The manifest file is not there. *)
Definition os_no_manifest : OS :=
  scripted None all_exit_0 clean_status tree_r (origin_config "u2")
    (inr (ENOENT "no such file or directory")) ({| Repos := [] |}, None).

(** ** Notions for the further properties *)

(** The error of a failed [lstat] or directory read. *)
Definition fs_failure (e : Event) : option syserror :=
  match e with
  | EvLstat _ (Some x) | EvReadDir _ (Some x) => Some x
  | _ => None
  end.

(** The program leaves the manifest in memory alone. *)
Definition keeps_config {A} (m : M A) : Prop :=
  forall w, config (m w).2 = config w.

Definition is_log (e : Event) : bool :=
  match e with EvLog _ _ => true | _ => false end.

(** The directory of the log line that ends the work on a repository:
    one of the three failures, the skip, or the finished upgrade. *)
Definition verdict_dir (e : Event) : option string :=
  match e with
  | EvLog ERROR (MsgCloneFailed dir _ _)
  | EvLog ERROR (MsgFetchFailed dir _ _)
  | EvLog ERROR (MsgUpgradeFailed dir _ _)
  | EvLog WARNING (MsgUpgradeSkipped dir)
  | EvLog INFO (MsgUpgradeFinished dir) => Some dir
  | _ => None
  end.

(** The events end with the verdict on [repo], the only one among them. *)
Definition one_verdict (repo : RepoConfig) (new : list Event) : Prop :=
  exists body v,
    new = body ++ [v] /\ verdict_dir v = Some (Directory repo) /\
    Forall (fun e => verdict_dir e = None) body.

(** [os.Stat] fails, but not because the file is missing. *)
Definition os_stat_denied : OS :=
  scripted (Some (EFAIL "permission denied")) all_exit_0 clean_status
    tree_r (origin_config "u2") (inl "repos: ...") ({| Repos := [repo_a] |}, None).

(** [git status] exits with a failure. *)
Definition os_status_fails : OS :=
  scripted None (fails_on "status") clean_status
    tree_r (origin_config "u2") (inl "repos: ...") ({| Repos := [repo_a] |}, None).

(** Below [/r] the entry [a] cannot be examined; the repository [b] comes
    after it. *)
Definition tree_broken : FileTree :=
  Folder "r" None
    [NoEntry "a" (EFAIL "input/output error");
     Folder "b" None [Folder ".git" None [File "config"]]].

Definition os_broken_tree : OS :=
  scripted None all_exit_0 clean_status tree_broken (origin_config "u2") (inl "repos: ...")
    ({| Repos := [repo_a] |}, None).


(** The directory a log line of the work on a repository names. *)
Definition msg_dir (m : LogMsg) : option string :=
  match m with
  | MsgCloneFailed d _ _ | MsgCloneFinished d | MsgFetchFailed d _ _
  | MsgFetchFinished d | MsgUpgradeSkipped d | MsgUpgradeFailed d _ _
  | MsgUpgradeFinished d => Some d
  | _ => None
  end.

(** The event belongs to the work on [repo]: the [os.Stat] of its
    metadata directory, one of its four commands, or a log line that names
    its directory. *)
Definition concerns (repo : RepoConfig) (e : Event) : Prop :=
  match e with
  | EvLog _ msg => msg_dir msg = Some (Directory repo)
  | EvStat p _ => p = Join (Directory repo) ".git"
  | EvPipe c _ _ | EvStart c _ | EvReadAll c _ _ _ | EvWait c _ =>
      c = git_clone_cmd repo \/ c = git_fetch_cmd repo \/
      c = git_status_cmd repo \/ c = git_pull_cmd repo
  | _ => False
  end.

(** ** The log of a discovery *)

(** A lookup that gave a url. *)
Definition origin_url (e : Event) : bool :=
  match e with EvOrigin _ (Url _) => true | _ => false end.

(** Something the discovery could not do: examine an entry, read a
    directory, open or load the configuration of a repository. *)
Definition failed (e : Event) : bool :=
  match e with
  | EvLstat _ (Some _) | EvReadDir _ (Some _) => true
  | EvOrigin _ (OpenFails _ | LoadFails _) => true
  | _ => false
  end.

(** Not a lookup that ended at one of the two nil checks of [remoteDir]. *)
Definition answered (e : Event) : bool :=
  match e with
  | EvOrigin _ (NoSection | NoKey) => false
  | _ => true
  end.

(** The repository [r] is what the lookup [e] found: the lookup read the
    configuration in a metadata directory [path] and gave the remote of
    [r], whose directory is the parent of [path]. *)
Definition found (e : Event) (r : RepoConfig) : Prop :=
  exists path,
    e = EvOrigin (Join path "config") (Url (Remote r)) /\ Directory r = Dir path.

(** What holds of any part of the walk of [update] that goes from [w] to
    [w'] and returns [r]: the repositories added to the manifest are what
    the lookups found, in their order; a failed [lstat] or directory read
    is followed by its error line and by nothing else, and its error is
    what is returned; an error other than [SkipDir] is only returned after
    something failed. *)
Definition discovery_log (w : World) (r : option error) (w' : World) : Prop :=
  grows (in_stage Discover) w w' /\
  (exists D, Repos (config w') = Repos (config w) ++ D /\
             Forall2 found (List.filter origin_url (since w w')) D) /\
  (forall e x,
      In e (since w w') -> fs_failure e = Some x ->
      r = Some (OfSys x) /\
      exists before,
        since w w' = before ++ [e; EvLog ERROR (MsgWalkError (OfSys x))]) /\
  (forall err, r = Some err -> is_SkipDir err = false ->
               exists e, In e (since w w') /\ failed e = true).

(** [discovery_log] holds of the walk of [t], wherever it starts; [walk]
    is never called on an entry whose [lstat] failed. *)
Definition walk_log_at (os : OS) (t : FileTree) : Prop :=
  match t with
  | NoEntry _ _ => True
  | _ => forall path w,
      discovery_log w (walk (update_visit os) path t w).1 (walk (update_visit os) path t w).2
  end.

(** No repository is there yet, and every git command runs to the end. *)
Definition os_fresh : OS :=
  scripted (Some (ENOENT "no such file or directory")) all_exit_0 clean_status
    tree_r (origin_config "u2") (inl "repos: ...") ({| Repos := [repo_a] |}, None).
(** ** Notions for the paths *)

(** A name: not empty, without a slash. *)
Definition is_name (e : string) : bool :=
  negb (String.eqb e EmptyString) && lacks "/" e.

(** A name other than [.] and [..]. *)
Definition is_real (e : string) : bool :=
  is_name e && negb (String.eqb e ".") && negb (String.eqb e "..").

(** The elements that [filepath.Clean] keeps, the last one first: names
    other than [.] and [..], and before them, in a path that is not
    rooted, some [..]. *)
Definition kept (rooted : bool) (out : list string) : Prop :=
  exists reals dds,
    out = reals ++ dds /\
    Forall (fun e => is_real e = true) reals /\
    Forall (fun e => e = "..") dds /\
    (rooted = true -> dds = []).

(** The path [filepath.Clean] makes of the elements it kept. *)
Definition render (rooted : bool) (out : list string) : string :=
  let body := join_slash (rev out) in
  if rooted then "/" +:+ body
  else match body with EmptyString => "." | _ => body end.

(** A path up to its last slash. *)
Definition dir_part (path : string) : string :=
  of_bytes (rev (drop_while (fun c => negb (is_slash c)) (rev (to_bytes path)))).

(** * Properties of the matcher *)

Lemma gitStatusTemplateRe_parsed : Compile gitStatusTemplateStr = Some status_re.
Proof. vm_compute. reflexivity. Qed.

Lemma gitStatusTemplateRe_eq : gitStatusTemplateRe = status_re.
Proof. unfold gitStatusTemplateRe, MustCompile. now rewrite gitStatusTemplateRe_parsed. Qed.

Section Denotation.

Variable n : nat.

Lemma strip_prefix_Some p s s' : strip_prefix p s = Some s' <-> s = p ++ s'.
Proof.
  revert s. induction p as [|a p IH]; intros [|b s]; simpl.
  - split; congruence.
  - split; congruence.
  - split; congruence.
  - destruct (Ascii.eqb_spec a b) as [->|Hne].
    + rewrite IH. split; congruence.
    + split; congruence.
Qed.

Lemma strip_prefix_app p s : strip_prefix p (p ++ s) = Some s.
Proof. now apply strip_prefix_Some. Qed.

(** The matcher only reports matches. *)
Lemma ends_sound re : forall s s', In s' (ends n re s) -> den n re s s'.
Proof.
  induction re as [|l|lo hi| | |r IH|r IH|r IH|r1 IH1 r2 IH2|r1 IH1 r2 IH2];
    intros s s'; simpl.
  - intuition.
  - destruct (strip_prefix l s) as [t|] eqn:E; simpl; [|intros []].
    intros [<-|[]]. now apply strip_prefix_Some.
  - destruct s as [|c s]; [intros []|].
    destruct (in_range lo hi c) eqn:E; simpl; [|intros []].
    intros [<-|[]]. eauto.
  - destruct (Nat.eqb_spec (length s) n); simpl; intuition.
  - destruct s; simpl; intuition.
  - apply IH.
  - rewrite in_app_iff. simpl. intuition.
  - generalize (length s) at 1. intros fuel. revert s.
    induction fuel as [|fuel IHf]; intros s; rewrite in_flat_map.
    + intros (m & Hm & [<-|[]]). exists 0. now apply IH.
    + intros (m & Hm & Hin). apply IH in Hm.
      destruct (length m <? length s)%nat.
      * apply in_app_iff in Hin. destruct Hin as [Hin|[<-|[]]].
        -- apply IHf in Hin. destruct Hin as [k Hk]. exists (S k), m. tauto.
        -- now exists 0.
      * destruct Hin as [<-|[]]. now exists 0.
  - rewrite in_flat_map. intros (m & H1 & H2). eauto.
  - rewrite in_app_iff. intuition.
Qed.

(** Introduction rules: what the matcher does report. *)
Lemma ends_literal l s : In s (ends n (Literal l) (l ++ s)).
Proof. simpl. rewrite strip_prefix_app. now left. Qed.

Lemma ends_concat r1 r2 s m s' :
  In m (ends n r1 s) -> In s' (ends n r2 m) -> In s' (ends n (Concat r1 r2) s).
Proof. simpl. rewrite in_flat_map. eauto. Qed.

Lemma ends_alt_l r1 r2 s s' : In s' (ends n r1 s) -> In s' (ends n (Alternate r1 r2) s).
Proof. simpl. rewrite in_app_iff. tauto. Qed.

Lemma ends_alt_r r1 r2 s s' : In s' (ends n r2 s) -> In s' (ends n (Alternate r1 r2) s).
Proof. simpl. rewrite in_app_iff. tauto. Qed.

Lemma ends_quest_skip r s : In s (ends n (Quest r) s).
Proof. simpl. rewrite in_app_iff. simpl. tauto. Qed.

Lemma ends_quest_take r s s' : In s' (ends n r s) -> In s' (ends n (Quest r) s).
Proof. simpl. rewrite in_app_iff. tauto. Qed.

Lemma ends_capture r s s' : In s' (ends n r s) -> In s' (ends n (Capture r) s).
Proof. trivial. Qed.

Lemma ends_end_text : In [] (ends n EndText []).
Proof. simpl. tauto. Qed.

Lemma ends_begin_text s : length s = n -> In s (ends n BeginText s).
Proof. simpl. intros ->. rewrite Nat.eqb_refl. now left. Qed.

(** A run of characters of the class is consumed by [Plus]. *)
Lemma ends_plus_class lo hi ds s :
  ds <> [] -> forallb (in_range lo hi) ds = true ->
  In s (ends n (Plus (CharClass lo hi)) (ds ++ s)).
Proof.
  intros Hne Hds. simpl.
  assert (Hfuel : (length ds <= S (length (ds ++ s)))%nat)
    by (rewrite length_app; lia).
  revert Hfuel. generalize (length (ds ++ s)) at 1 2. intros fuel.
  revert ds Hne Hds.
  induction fuel as [|fuel IHf]; intros [|c ds] Hne Hds Hfuel; try congruence;
    simpl in Hds; apply andb_true_iff in Hds as [Hc Hds]; simpl; rewrite Hc; simpl.
  - destruct ds; simpl in *; [tauto | lia].
  - rewrite app_nil_r.
    replace (length (ds ++ s) <? S (length (ds ++ s)))%nat with true
      by (symmetry; apply Nat.ltb_lt; lia).
    apply in_app_iff. destruct ds as [|d ds]; [right; now left|].
    left. apply IHf; [congruence | assumption | simpl in *; lia].
Qed.

End Denotation.

Lemma append_assoc (a b c : string) : (a +:+ b) +:+ c = a +:+ (b +:+ c).
Proof.
  induction a as [|x a IH]; [reflexivity|].
  change (String x ((a +:+ b) +:+ c) = String x (a +:+ (b +:+ c))). now rewrite IH.
Qed.

Lemma to_bytes_app a b : to_bytes (a +:+ b) = to_bytes a ++ to_bytes b.
Proof.
  unfold to_bytes. induction a as [|c a IH]; [reflexivity|].
  change (c :: list_ascii_of_string (a +:+ b) = c :: list_ascii_of_string a ++ list_ascii_of_string b).
  now rewrite IH.
Qed.

Lemma of_bytes_app a b : of_bytes (a ++ b) = of_bytes a +:+ of_bytes b.
Proof.
  unfold of_bytes. induction a as [|c a IH]; [reflexivity|].
  change (String c (string_of_list_ascii (a ++ b))
          = String c (string_of_list_ascii a +:+ string_of_list_ascii b)).
  now rewrite IH.
Qed.

Lemma of_to_bytes s : of_bytes (to_bytes s) = s.
Proof. apply string_of_list_ascii_of_string. Qed.

Lemma to_of_bytes l : to_bytes (of_bytes l) = l.
Proof. apply list_ascii_of_string_of_list_ascii. Qed.

Lemma to_bytes_inj a b : to_bytes a = to_bytes b -> a = b.
Proof. intros H. rewrite <- (of_to_bytes a), <- (of_to_bytes b). now f_equal. Qed.

Lemma drop_same_length {A} i (l : list A) : length (drop i l) = length l -> drop i l = l.
Proof.
  rewrite length_drop. intros H. destruct i; [reflexivity|].
  destruct l; [now destruct i | simpl in H; lia].
Qed.

Lemma nonempty_In {A} (l : list A) :
  negb (forallb (fun _ => false) l) = true -> exists x, In x l.
Proof. destruct l as [|x l]; simpl; [discriminate | eauto]. Qed.

Lemma In_nonempty {A} (x : A) l : In x l -> negb (forallb (fun _ => false) l) = true.
Proof. destruct l; simpl; tauto. Qed.

(** The pattern is anchored at both ends, so [Match] is a match of the
    whole text. *)
Lemma gate_whole b :
  gate b = true <-> In [] (ends (length (to_bytes b)) status_re (to_bytes b)).
Proof.
  unfold gate, Match. rewrite gitStatusTemplateRe_eq. cbv zeta.
  set (t := to_bytes b). rewrite existsb_exists. split.
  - intros (i & _ & Hi). apply nonempty_In in Hi as [s' Hs'].
    pose proof (ends_sound _ _ _ _ Hs') as Hd.
    unfold status_re in Hd. cbn [den] in Hd.
    destruct Hd as (m & [<- Hlen] & Hd).
    apply drop_same_length in Hlen. rewrite Hlen in Hs'.
    assert (s' = []) as ->; [|assumption].
    destruct Hd as (? & _ & ? & _ & ? & _ & ? & _ & ? & _ & _ & ?). assumption.
  - intros H. exists 0. split.
    + apply in_seq. lia.
    + rewrite drop_0. eapply In_nonempty, H.
Qed.

(** Every accepted text has the four-line shape. *)
Lemma gate_shape b :
  gate b = true ->
  exists line2 hint,
    tracking_line line2 /\ hint_or_nothing hint /\
    b = status_text "On branch master" line2 hint.
Proof.
  rewrite gate_whole. intros H. apply ends_sound in H.
  unfold status_re, behind_re, lit in H. cbn [den] in H.
  destruct H as (m0 & [<- _] & m1 & E1 & m2 & Hline & m3 & E3 & m4 & Hhint & m5 & E5 & -> & _).
  assert (Hb : b = of_bytes (to_bytes b)) by (now rewrite of_to_bytes).
  assert (exists line2, tracking_line line2 /\ m1 = to_bytes line2 ++ m2) as (line2 & Hl2 & ->).
  { destruct Hline as [(a1 & -> & a2 & (k & Hk) & a3 & E2 & a4 & Hs & E4) | ->].
    - assert (exists ds, ds <> [] /\ forallb is_digit ds = true /\ a1 = ds ++ a2)
        as (ds & Hne & Hds & ->).
      { clear -Hk. revert a1 Hk. induction k as [|k IH]; intros a1 Hk.
        - destruct Hk as (c & Hc & ->). exists [c].
          split; [congruence|]. split; [|reflexivity].
          simpl. unfold is_digit. now rewrite Hc.
        - destruct Hk as (m & (c & Hc & ->) & Hk). apply IH in Hk as (ds & Hne & Hds & ->).
          exists (c :: ds).
          split; [congruence|]. split; [|reflexivity].
          simpl. unfold is_digit at 1. now rewrite Hc. }
      assert (exists plural, (plural = EmptyString \/ plural = "s") /\ a3 = to_bytes plural ++ a4)
        as (plural & Hpl & ->).
      { destruct Hs as [<- | ->]; [exists EmptyString | exists "s"]; auto. }
      subst a2 a4.
      exists (behind_line (of_bytes ds) plural). split.
      + constructor; [ | unfold all_digits; now rewrite to_of_bytes | assumption].
        intros E. apply (f_equal to_bytes) in E. rewrite to_of_bytes in E. auto.
      + unfold behind_line. rewrite !to_bytes_app, to_of_bytes, <- !app_assoc. reflexivity.
    - exists up_to_date_line. split; [constructor | reflexivity]. }
  assert (exists hint, hint_or_nothing hint /\ m3 = to_bytes hint ++ m4) as (hint & Hh & ->).
  { destruct Hhint as [<- | ->]; [exists EmptyString | exists (hint_line +:+ nl)];
      unfold hint_or_nothing; auto. }
  exists line2, hint. repeat split; try assumption.
  rewrite app_nil_r in E5.
  rewrite Hb, E1, E3, E5. unfold status_text.
  rewrite !of_bytes_app, !of_to_bytes, !append_assoc. reflexivity.
Qed.

Lemma string_nonempty_bytes s : s <> EmptyString -> to_bytes s <> [].
Proof. destruct s; [congruence | discriminate]. Qed.

(** Every text of the four-line shape is accepted. *)
Lemma gate_accepts line2 hint :
  tracking_line line2 -> hint_or_nothing hint ->
  gate (status_text "On branch master" line2 hint) = true.
Proof.
  intros Hl Hh. apply gate_whole. unfold status_text.
  rewrite !to_bytes_app. unfold status_re.
  eapply ends_concat; [apply ends_begin_text; reflexivity|].
  match goal with |- In _ (ends ?len _ _) => generalize len; intros n end.
  rewrite (app_assoc (to_bytes "On branch master")), <- to_bytes_app.
  eapply ends_concat; [apply ends_literal|].
  eapply ends_concat.
  { apply ends_capture. destruct Hl as [|count plural Hne Hds Hpl].
    - apply ends_alt_r, ends_literal.
    - apply ends_alt_l. unfold behind_line, behind_re. rewrite !to_bytes_app, <- !app_assoc.
      eapply ends_concat; [apply ends_literal|].
      eapply ends_concat;
        [apply ends_plus_class; [now apply string_nonempty_bytes | exact Hds]|].
      eapply ends_concat; [apply ends_literal|].
      eapply ends_concat; [|apply ends_literal].
      apply ends_capture.
      destruct Hpl as [-> | ->]; [apply ends_quest_skip | apply ends_quest_take, ends_literal]. }
  eapply ends_concat; [apply ends_literal|].
  assert (Htail : In [] (ends n (Concat (lit (nl +:+ clean_line +:+ nl)) EndText)
                           (to_bytes nl ++ to_bytes clean_line ++ to_bytes nl))).
  { rewrite <- !to_bytes_app, <- (app_nil_r (to_bytes _)).
    eapply ends_concat; [apply ends_literal | apply ends_end_text]. }
  destruct Hh as [-> | ->].
  - eapply ends_concat; [apply ends_quest_skip | exact Htail].
  - eapply ends_concat; [apply ends_quest_take, ends_capture, ends_literal | exact Htail].
Qed.

(** The gate, characterised. *)
Lemma gate_iff b :
  gate b = true <->
  exists line2 hint,
    tracking_line line2 /\ hint_or_nothing hint /\
    b = status_text "On branch master" line2 hint.
Proof.
  split; [apply gate_shape|].
  intros (line2 & hint & Hl & Hh & ->). now apply gate_accepts.
Qed.

(** * Properties of the merge *)

(** ** The order on directories *)

Lemma compare_agree a b : String.compare a b = OrdersEx.String_as_OT.compare a b.
Proof.
  revert b. induction a as [|x a IH]; intros [|y b]; reflexivity.
Qed.

Lemma string_lt_compare a b : string_lt a b <-> OrdersEx.String_as_OT.lt a b.
Proof.
  unfold string_lt, String.ltb, OrdersEx.String_as_OT.lt. rewrite compare_agree.
  destruct (OrdersEx.String_as_OT.compare a b); split; congruence.
Qed.

#[global] Instance string_lt_strict : StrictOrder string_lt.
Proof.
  destruct OrdersEx.String_as_OT.lt_strorder as [Hirr Htr]. split.
  - intros a Ha. now apply (Hirr a), string_lt_compare.
  - intros a b c Hab Hbc. apply string_lt_compare.
    apply (Htr a b c); now apply string_lt_compare.
Qed.

Lemma string_lt_trichotomy a b : string_lt a b \/ a = b \/ string_lt b a.
Proof.
  unfold string_lt, String.ltb. rewrite (String.compare_antisym b a).
  destruct (String.compare a b) eqn:E; simpl; auto.
  right; left. now apply String.compare_eq_iff.
Qed.

(** ** Insertion sort *)

Section Sorting.

Context {A : Type} (less : A -> A -> bool).

Hypothesis less_asym : forall a b, less a b = true -> less b a = false.
Hypothesis not_after_trans :
  forall a b c, not_after less a b -> not_after less b c -> not_after less a c.

Lemma insert_sorted_Permutation x l : insert_sorted less x l ≡ₚ x :: l.
Proof using Type.
  induction l as [|y l IH]; simpl; [reflexivity|].
  destruct (less y x); [|reflexivity].
  rewrite IH. apply Permutation_swap.
Qed.

Lemma sort_Slice_Permutation l : sort_Slice less l ≡ₚ l.
Proof using Type.
  induction l as [|x l IH]; simpl; [reflexivity|].
  unfold sort_Slice in *. simpl. now rewrite insert_sorted_Permutation, IH.
Qed.

Lemma insert_sorted_sorted x l :
  StronglySorted (not_after less) l -> StronglySorted (not_after less) (insert_sorted less x l).
Proof using less_asym not_after_trans.
  induction 1 as [|y l Hl IH Hy]; simpl.
  - repeat constructor.
  - destruct (less y x) eqn:E.
    + constructor; [assumption|].
      rewrite insert_sorted_Permutation. constructor; [|assumption].
      now apply less_asym.
    + constructor; [now constructor|].
      constructor; [exact E|].
      eapply Forall_impl; [exact Hy|]. intros z Hz. now apply (not_after_trans x y z).
Qed.

Lemma sort_Slice_sorted l : StronglySorted (not_after less) (sort_Slice less l).
Proof using less_asym not_after_trans.
  induction l as [|x l IH]; [constructor|]. now apply insert_sorted_sorted.
Qed.

End Sorting.

Lemma less_directory_asym a b : less_directory a b = true -> less_directory b a = false.
Proof.
  unfold less_directory. intros H. apply not_true_is_false. intros H'.
  apply (irreflexivity string_lt (Directory a)). now transitivity (Directory b).
Qed.

Lemma not_after_directory a b :
  not_after less_directory a b <-> Directory a = Directory b \/ string_lt (Directory a) (Directory b).
Proof.
  unfold not_after, less_directory.
  destruct (string_lt_trichotomy (Directory a) (Directory b)) as [H|[H|H]].
  - split; [auto|]. intros _. apply not_true_is_false. intros H'.
    apply (irreflexivity string_lt (Directory a)). now transitivity (Directory b).
  - rewrite H. split; [auto|]. intros _. apply not_true_is_false.
    apply (irreflexivity string_lt).
  - unfold string_lt in H. rewrite H. split; [discriminate|].
    intros [E|H']; exfalso.
    + rewrite E in H. now apply (irreflexivity string_lt (Directory b)).
    + apply (irreflexivity string_lt (Directory a)). now transitivity (Directory b).
Qed.

Lemma not_after_directory_trans a b c :
  not_after less_directory a b -> not_after less_directory b c -> not_after less_directory a c.
Proof.
  rewrite !not_after_directory. intros [E1|H1] [E2|H2].
  - left. congruence.
  - right. now rewrite E1.
  - right. now rewrite <- E2.
  - right. now transitivity (Directory b).
Qed.

Lemma ascending_NoDup l : ascending l -> NoDup (map Directory l).
Proof.
  induction 1 as [|x l Hl IH Hx]; simpl; constructor; [|assumption].
  rewrite list_elem_of_In, in_map_iff. intros (y & E & Hy).
  rewrite Forall_forall in Hx. apply list_elem_of_In, Hx in Hy. rewrite E in Hy.
  now apply (irreflexivity string_lt (Directory x)).
Qed.

Lemma sorted_NoDup_ascending l :
  StronglySorted (not_after less_directory) l -> NoDup (map Directory l) -> ascending l.
Proof.
  induction 1 as [|x l Hl IH Hx]; simpl; intros Hnd; [constructor|].
  apply NoDup_cons in Hnd as [Hnotin Hnd]. constructor; [now apply IH|].
  rewrite Forall_forall in *. intros y Hy.
  destruct (proj1 (not_after_directory x y) (Hx y Hy)) as [E|H]; [|assumption].
  exfalso. apply Hnotin. rewrite E. apply list_elem_of_In, in_map, list_elem_of_In, Hy.
Qed.

(** There is one ascending list with given elements, whatever sorts it. *)
Lemma sorted_permutation_unique l1 l2 :
  ascending l1 -> ascending l2 -> l1 ≡ₚ l2 -> l1 = l2.
Proof.
  apply StronglySorted_unique_strong. intros x y _ _ H1 H2. exfalso.
  apply (irreflexivity string_lt (Directory x)). now transitivity (Directory y).
Qed.

(** ** The map and the merged list *)

Lemma last_remote_app d l1 l2 :
  last_remote d (l1 ++ l2) =
  match last_remote d l2 with Some r => Some r | None => last_remote d l1 end.
Proof.
  induction l1 as [|x l1 IH]; simpl.
  - now destruct (last_remote d l2).
  - rewrite IH. now destruct (last_remote d l2).
Qed.

Lemma last_remote_In d r l :
  last_remote d l = Some r -> In {| Directory := d; Remote := r |} l.
Proof.
  induction l as [|x l IH]; simpl; [discriminate|].
  destruct (last_remote d l) as [r'|].
  - intros [= ->]. right. now apply IH.
  - destruct (String.eqb_spec (Directory x) d) as [<-|]; [|discriminate].
    intros [= <-]. left. now destruct x.
Qed.

Lemma last_remote_None d l : last_remote d l = None <-> ~ In d (map Directory l).
Proof.
  induction l as [|x l IH]; simpl; [tauto|].
  destruct (last_remote d l) as [r'|].
  - split; [discriminate|]. intros H. exfalso.
    destruct (in_dec string_dec d (map Directory l)) as [Hin|Hin]; [tauto|].
    apply IH in Hin. discriminate.
  - destruct (String.eqb_spec (Directory x) d) as [E|E].
    + split; [discriminate|]. tauto.
    + split; [|reflexivity]. intros _ [?|?]; [congruence|]. now apply IH.
Qed.

Lemma repoDict_foldl d repos (m : gmap string string) :
  foldl (fun m repo => <[Directory repo := Remote repo]> m) m repos !! d =
  match last_remote d repos with Some r => Some r | None => m !! d end.
Proof.
  revert m. induction repos as [|x l IH]; intros m; simpl; [reflexivity|].
  rewrite IH. destruct (last_remote d l); [reflexivity|].
  destruct (String.eqb_spec (Directory x) d) as [<-|E].
  - now rewrite lookup_insert_eq.
  - now rewrite lookup_insert_ne.
Qed.

Lemma repoDict_lookup d repos : repoDict repos !! d = last_remote d repos.
Proof.
  unfold repoDict. rewrite repoDict_foldl, lookup_empty. now destruct (last_remote d repos).
Qed.

Lemma range_order_Permutation {A} seed (l : list A) : range_order seed l ≡ₚ l.
Proof.
  revert l. induction seed as [|k seed IH]; intros l; simpl; [reflexivity|].
  destruct (l !! (k `mod` length l)) as [x|] eqn:E; [|reflexivity].
  rewrite IH. symmetry. now apply delete_Permutation.
Qed.

Lemma merge_repos_Permutation seed repos :
  merge_repos seed repos ≡ₚ map repo_of (map_to_list (repoDict repos)).
Proof.
  unfold merge_repos. rewrite sort_Slice_Permutation.
  rewrite (map_ext _ repo_of) by (now intros []).
  apply Permutation_map, range_order_Permutation.
Qed.

Lemma merge_repos_In seed repos x :
  In x (merge_repos seed repos) <-> last_remote (Directory x) repos = Some (Remote x).
Proof.
  rewrite <- list_elem_of_In, merge_repos_Permutation, list_elem_of_In, in_map_iff.
  rewrite <- repoDict_lookup. split.
  - intros ([d r] & <- & H). apply list_elem_of_In in H. now apply elem_of_map_to_list in H.
  - intros H. exists (Directory x, Remote x). split; [now destruct x|].
    now apply list_elem_of_In, elem_of_map_to_list.
Qed.

Lemma merge_repos_NoDup seed repos : NoDup (map Directory (merge_repos seed repos)).
Proof.
  assert (E : map Directory (merge_repos seed repos) ≡ₚ (map_to_list (repoDict repos)).*1).
  { rewrite merge_repos_Permutation. unfold fmap, list_fmap. rewrite map_map. reflexivity. }
  rewrite E. apply NoDup_fst_map_to_list.
Qed.

Lemma merge_repos_ascending seed repos : ascending (merge_repos seed repos).
Proof.
  apply sorted_NoDup_ascending; [|apply merge_repos_NoDup].
  apply sort_Slice_sorted.
  - apply less_directory_asym.
  - apply not_after_directory_trans.
Qed.

Lemma NoDup_count_occ_1 (l : list string) d :
  NoDup l -> In d l -> count_occ string_dec l d = 1.
Proof.
  intros Hnd Hin. apply NoDup_ListNoDup in Hnd.
  rewrite (NoDup_count_occ string_dec) in Hnd. specialize (Hnd d).
  apply (count_occ_In string_dec) in Hin. lia.
Qed.

Lemma merge_repos_directories seed repos d :
  In d (map Directory (merge_repos seed repos)) <-> In d (map Directory repos).
Proof.
  split.
  - rewrite in_map_iff. intros (x & <- & Hx). apply merge_repos_In in Hx.
    destruct (last_remote (Directory x) repos) eqn:E; [|discriminate].
    destruct (in_dec string_dec (Directory x) (map Directory repos)) as [H|H]; [assumption|].
    apply last_remote_None in H. congruence.
  - intros H. destruct (last_remote d repos) as [r|] eqn:E.
    + apply in_map_iff. exists {| Directory := d; Remote := r |}. split; [reflexivity|].
      now apply merge_repos_In.
    + apply last_remote_None in E. contradiction.
Qed.

(** * Properties of the effects *)

(** ** How histories grow *)

Lemma grows_refl P w : grows P w w.
Proof. split; [reflexivity|]. exists []. now rewrite app_nil_r. Qed.

Lemma grows_trans P w1 w2 w3 : grows P w1 w2 -> grows P w2 w3 -> grows P w1 w3.
Proof.
  intros [F1 (n1 & H1 & P1)] [F2 (n2 & H2 & P2)]. split; [congruence|].
  exists (n1 ++ n2). rewrite H2, H1, app_assoc. split; [reflexivity|].
  now apply Forall_app.
Qed.

Lemma grows_weaken (P Q : Event -> Prop) w w' :
  (forall e, P e -> Q e) -> grows P w w' -> grows Q w w'.
Proof.
  intros HPQ [F (n & H & HP)]. split; [assumption|]. exists n.
  split; [assumption|]. eapply Forall_impl; eauto.
Qed.

Lemma grows_since P w w' : grows P w w' -> history w' = history w ++ since w w'.
Proof.
  intros [_ (n & H & _)]. unfold since. rewrite H at 2. now rewrite drop_app_length.
Qed.

Lemma grows_since_Forall P w w' : grows P w w' -> Forall P (since w w').
Proof.
  intros [_ (n & H & HP)]. unfold since. now rewrite H, drop_app_length.
Qed.

Lemma since_app w w' new : history w' = history w ++ new -> since w w' = new.
Proof. intros H. unfold since. now rewrite H, drop_app_length. Qed.

Section Emits.

Context (P : Event -> Prop).

Lemma emits_ret {A} (a : A) : emits P (mret a).
Proof. intros w. apply grows_refl. Qed.

Lemma emits_bind {A B} (m : M A) (f : A -> M B) :
  emits P m -> (forall a, emits P (f a)) -> emits P (m ≫= f).
Proof.
  intros Hm Hf w. unfold mbind, M_bind. specialize (Hm w).
  destruct (m w) as [a w1]. eapply grows_trans; [exact Hm | apply Hf].
Qed.

Lemma emits_record e : P e -> emits P (record e).
Proof. intros He w. split; [reflexivity|]. exists [e]. simpl. auto. Qed.

Lemma emits_ask {A} (answer : list Event -> A) ev :
  (forall a, P (ev a)) -> emits P (ask answer ev).
Proof. intros He w. split; [reflexivity|]. eexists [_]. simpl. auto. Qed.

Lemma emits_get_config : emits P get_config.
Proof. intros w. apply grows_refl. Qed.

Lemma emits_get_flags : emits P get_flags.
Proof. intros w. apply grows_refl. Qed.

Lemma emits_set_config c : emits P (set_config c).
Proof. intros w. split; [reflexivity|]. exists []. simpl. now rewrite app_nil_r. Qed.

Lemma emits_for_range {A} (l : list A) body :
  (forall x, emits P (body x)) -> emits P (for_range l body).
Proof.
  intros Hb. induction l as [|x l IH]; simpl; [apply emits_ret|].
  apply emits_bind; auto.
Qed.

End Emits.

Lemma emits_weaken {A} (P Q : Event -> Prop) (m : M A) :
  (forall e, P e -> Q e) -> emits P m -> emits Q m.
Proof. intros HPQ Hm w. eapply grows_weaken; eauto. Qed.

(** One step of a proof that a program only emits events in [P]: split a
    bind, or close a leaf. *)
Ltac emits_step :=
  lazymatch goal with
  | |- emits _ (mbind _ _) => apply emits_bind; [|intros ?]
  | |- emits _ (mret _) => apply emits_ret
  | |- emits _ (record _) => apply emits_record
  | |- emits _ (glog_Info _) => apply emits_record
  | |- emits _ (glog_Warning _) => apply emits_record
  | |- emits _ (glog_Error _) => apply emits_record
  | |- emits _ (ask _ _) => apply emits_ask; intros ?
  | |- emits _ get_config => apply emits_get_config
  | |- emits _ get_flags => apply emits_get_flags
  | |- emits _ (set_config _) => apply emits_set_config
  | |- emits _ (if ?b then _ else _) => destruct b
  | |- emits _ (match ?x with _ => _ end) => destruct x
  | |- emits _ (let '(_, _) := ?x in _) => destruct x
  end.

Ltac emits_auto := repeat emits_step.

(** ** What each step emits *)

Section Steps.

Context (os : OS) (repo : RepoConfig).

(** [gitClone] stats the metadata directory and runs [git clone], and
    nothing else; it logs nothing. *)
Lemma gitClone_emits :
  emits (fun e => ((exists r, e = EvStat (Join (Directory repo) ".git") r) \/
                   about "clone" e = true) /\
                  about "fetch" e = false /\ about "status" e = false /\
                  about "pull" e = false /\ in_stage Reconcile e)
        (gitClone os repo).
Proof.
  unfold gitClone, os_Stat_, cmd_Pipe_, cmd_Start_, io_ReadAll_, cmd_Wait_.
  emits_auto; repeat split; eauto.
Qed.

Lemma gitFetch_emits :
  emits (fun e => about "fetch" e = true /\ about "status" e = false /\
                  about "pull" e = false /\ in_stage Reconcile e)
        (gitFetch os repo).
Proof.
  unfold gitFetch, cmd_Pipe_, cmd_Start_, io_ReadAll_, cmd_Wait_.
  emits_auto; repeat split; eauto.
Qed.

Lemma gitPull_emits :
  emits (fun e => about "clone" e = false /\ clone_log e = false /\ in_stage Reconcile e)
        (gitPull os repo).
Proof.
  unfold gitPull, cmd_Pipe_, cmd_Start_, io_ReadAll_, cmd_Wait_.
  emits_auto; repeat split; eauto.
Qed.

Lemma pull_step_emits :
  emits (fun e => about "clone" e = false /\ clone_log e = false /\ in_stage Reconcile e)
        (pull_step os repo).
Proof.
  unfold pull_step. apply emits_bind; [apply gitPull_emits|].
  intros [stderr [err|]]; emits_auto; repeat split.
Qed.

Lemma fetch_step_emits :
  emits (fun e => about "clone" e = false /\ clone_log e = false /\ in_stage Reconcile e)
        (fetch_step os repo).
Proof.
  unfold fetch_step. apply emits_bind.
  - eapply emits_weaken; [|apply gitFetch_emits].
    intros e (Hf & _ & _ & Hs). repeat split; [|now destruct e|assumption].
    unfold about in *. destruct (event_cmd e); [|reflexivity].
    apply String.eqb_eq in Hf. now rewrite Hf.
  - intros [stderr [err|]]; [emits_auto; repeat split|].
    apply emits_bind; [emits_auto; repeat split|]. intros _. apply pull_step_emits.
Qed.

Lemma upgrade_repo_emits : emits (in_stage Reconcile) (upgrade_repo os repo).
Proof.
  unfold upgrade_repo. apply emits_bind.
  - eapply emits_weaken; [|apply gitClone_emits]. intros e H. apply H.
  - assert (Hf : emits (in_stage Reconcile) (fetch_step os repo)).
    { eapply emits_weaken; [|apply fetch_step_emits]. intros e H. apply H. }
    intros [stderr [err|]]; [destruct (is_SkipDir err)|]; emits_auto;
      solve [reflexivity | exact Hf].
Qed.

End Steps.

Lemma upgrade_emits os : emits (in_stage Reconcile) (upgrade os).
Proof.
  unfold upgrade. emits_auto; try reflexivity.
  apply emits_for_range, upgrade_repo_emits.
Qed.

(** ** Commands that run to the end *)

Lemma app_snoc {A} (l l1 : list A) x : (l ++ l1) ++ [x] = l ++ (l1 ++ [x]).
Proof. now rewrite app_assoc. Qed.

Lemma after_after w l1 l2 : after (after w l1) l2 = after w (l1 ++ l2).
Proof. unfold after. simpl. now rewrite app_assoc. Qed.

Lemma since_after w new : since w (after w new) = new.
Proof. now apply since_app. Qed.

Lemma gitFetch_run os repo : gitFetch os repo = run_capture os (git_fetch_cmd repo).
Proof. reflexivity. Qed.

(** One [ask] of the environment, unfolded. *)
Ltac ask_step :=
  unfold mbind at 1, M_bind at 1, ask at 1; cbn [history config flags];
  rewrite ?app_snoc; cbn [app].

Lemma run_capture_completes os cmd w out :
  completes os cmd Stderr (history w) out ->
  run_capture os cmd w = ((out, None), after w (run_events cmd Stderr out)).
Proof.
  intros (H1 & H2 & H3 & H4).
  unfold run_capture, cmd_Pipe_, cmd_Start_, io_ReadAll_, cmd_Wait_.
  ask_step. rewrite H1. ask_step. rewrite H2. ask_step. rewrite H3. cbn [fst snd].
  ask_step. rewrite H4. reflexivity.
Qed.

Lemma run_capture_begins os cmd w : begins cmd Stderr (since w (run_capture os cmd w).2).
Proof.
  unfold run_capture, cmd_Pipe_, cmd_Start_, io_ReadAll_, cmd_Wait_.
  ask_step. destruct (cmd_Pipe os (history w) cmd Stderr) as [e|] eqn:E1.
  - exists (Some e), []. split; [now apply since_app | discriminate].
  - ask_step.
    match goal with |- context [cmd_Start os ?h cmd] => destruct (cmd_Start os h cmd) as [e|] eqn:E2 end.
    + exists None, [EvStart cmd (Some e)]. split; [now apply since_app | eauto].
    + ask_step.
      match goal with |- context [io_ReadAll os ?h cmd Stderr] =>
        destruct (io_ReadAll os h cmd Stderr) as [out [e|]] eqn:E3 end; cbn [fst snd].
      * eexists None, _. split; [now apply since_app | eauto].
      * ask_step.
        match goal with |- context [cmd_Wait os ?h cmd] =>
          destruct (cmd_Wait os h cmd) as [e|] eqn:E4 end;
          (eexists None, _; split; [now apply since_app | eauto]).
Qed.

Lemma gitPull_after_status os repo w out :
  completes os (git_status_cmd repo) Stdout (history w) out ->
  gitPull os repo w =
  (if negb (gate out) then mret (EmptyString, Some SkipDir)
   else run_capture os (git_pull_cmd repo))
    (after w (run_events (git_status_cmd repo) Stdout out)).
Proof.
  intros (H1 & H2 & H3 & H4).
  unfold gitPull, cmd_Pipe_, cmd_Start_, io_ReadAll_, cmd_Wait_.
  ask_step. rewrite H1. ask_step. rewrite H2. ask_step. rewrite H3. cbn [fst snd].
  ask_step. rewrite H4. reflexivity.
Qed.

Lemma gitClone_exists os repo w :
  os_Stat os (history w) (Join (Directory repo) ".git") = None ->
  gitClone os repo w =
  ((EmptyString, Some SkipDir), after w [EvStat (Join (Directory repo) ".git") None]).
Proof.
  intros H. unfold gitClone, os_Stat_. ask_step. now rewrite H.
Qed.

Lemma gitPull_begins os repo w :
  begins (git_status_cmd repo) Stdout (since w (gitPull os repo w).2).
Proof.
  unfold gitPull, cmd_Pipe_, cmd_Start_.
  ask_step. destruct (cmd_Pipe os (history w) (git_status_cmd repo) Stdout) as [e|] eqn:E1.
  - exists (Some e), []. split; [now apply since_app | discriminate].
  - ask_step.
    match goal with |- context [cmd_Start os ?h ?c] =>
      destruct (cmd_Start os h c) as [e|] eqn:E2 end.
    + exists None, [EvStart (git_status_cmd repo) (Some e)].
      split; [now apply since_app | eauto].
    + match goal with |- context [(mbind ?f ?m ?w0)] =>
        pose proof (emits_bind (fun _ => True) m f) as Hg; specialize (Hg
          ltac:(unfold io_ReadAll_; emits_auto; exact I)); set (k := f) in *; set (mm := m) in * end.
      assert (Hk : forall a, emits (fun _ => True) (k a)).
      { intros [out [e|]]; subst k; cbn beta iota; unfold cmd_Wait_, cmd_Pipe_, cmd_Start_, io_ReadAll_.
        - emits_auto.
        - emits_auto; exact I. }
      specialize (Hg Hk).
      match goal with |- context [(mbind k mm ?w0)] => specialize (Hg w0) end.
      destruct Hg as [_ (new & Hnew & _)]. cbn [history] in Hnew.
      exists None, (EvStart (git_status_cmd repo) None :: new). split; [|eauto].
      apply since_app. rewrite Hnew, <- app_assoc. reflexivity.
Qed.

Lemma since_trans P Q w1 w2 w3 :
  grows P w1 w2 -> grows Q w2 w3 -> since w1 w3 = since w1 w2 ++ since w2 w3.
Proof.
  intros H12 H23. apply since_app.
  rewrite (grows_since _ _ _ H23), (grows_since _ _ _ H12), app_assoc. reflexivity.
Qed.

Lemma grows_after P w new : Forall P new -> grows P w (after w new).
Proof. intros H. split; [reflexivity|]. now exists new. Qed.

Lemma grows_after_any w new : grows (fun _ => True) w (after w new).
Proof. apply grows_after, Forall_forall. auto. Qed.

Lemma bind_run {A B} (m : M A) (f : A -> M B) w : (m ≫= f) w = f (m w).1 (m w).2.
Proof. unfold mbind, M_bind. now destruct (m w). Qed.

Lemma bind_since {A B} P Q (m : M A) (f : A -> M B) w :
  emits P m -> (forall a, emits Q (f a)) ->
  since w ((m ≫= f) w).2 = since w (m w).2 ++ since (m w).2 (f (m w).1 (m w).2).2.
Proof.
  intros Hm Hf. rewrite bind_run. eapply since_trans; [apply Hm | apply Hf].
Qed.

Lemma begins_app cmd which l l' : begins cmd which l -> begins cmd which (l ++ l').
Proof.
  intros (r & rest & -> & H). exists r, (rest ++ l'). split; [reflexivity|].
  intros Hr. destruct (H Hr) as (r' & rest' & ->). eauto.
Qed.

Lemma any_event {A} P (m : M A) : emits P m -> emits (fun _ => True) m.
Proof. apply emits_weaken. auto. Qed.

Lemma pull_step_begins os repo w :
  begins (git_status_cmd repo) Stdout (since w (pull_step os repo w).2).
Proof.
  unfold pull_step.
  rewrite (bind_since (fun _ => True) (fun _ => True));
    [apply begins_app, gitPull_begins | apply (any_event _ _ (gitPull_emits os repo)) |].
  intros [stderr [err|]]; [destruct (is_SkipDir err)|]; apply emits_record; exact I.
Qed.

Lemma fetch_step_begins os repo w :
  begins (git_fetch_cmd repo) Stderr (since w (fetch_step os repo w).2).
Proof.
  unfold fetch_step.
  rewrite (bind_since (fun _ => True) (fun _ => True));
    [rewrite gitFetch_run; apply begins_app, run_capture_begins
    | apply (any_event _ _ (gitFetch_emits os repo)) |].
  intros [stderr [err|]]; [apply emits_record; exact I|].
  apply emits_bind; [apply emits_record; exact I|]. intros _.
  apply (any_event _ _ (pull_step_emits os repo)).
Qed.

Lemma fetch_step_completes os repo w out :
  completes os (git_fetch_cmd repo) Stderr (history w) out ->
  fetch_step os repo w =
  pull_step os repo
    (after w (run_events (git_fetch_cmd repo) Stderr out ++
              [EvLog INFO (MsgFetchFinished (Directory repo))])).
Proof.
  intros H. unfold fetch_step. rewrite bind_run, gitFetch_run.
  rewrite (run_capture_completes _ _ _ _ H). cbn [fst snd].
  rewrite bind_run. unfold glog_Info, record. cbn [fst snd].
  now rewrite <- after_after.
Qed.

(** ** The clone step when the repository is there *)

(** C5.  When [os.Stat] finds the [.git] directory of a repository, the
    clone step does nothing: [gitClone] returns the sentinel after the one
    [os.Stat], no event of the loop body belongs to a [git clone] or is a
    log line of the clone step, whatever the environment would answer to a
    clone.  The loop body goes on with the fetch, and when the fetch runs to
    the end with the status check of the pull step. *)
Theorem existing_repository_is_not_cloned os repo w :
  os_Stat os (history w) (Join (Directory repo) ".git") = None ->
  let stat := EvStat (Join (Directory repo) ".git") None in
  gitClone os repo w = ((EmptyString, Some SkipDir), after w [stat]) /\
  upgrade_repo os repo w = fetch_step os repo (after w [stat]) /\
  Forall (fun e => about "clone" e = false /\ clone_log e = false)
         (since w (upgrade_repo os repo w).2) /\
  (exists rest,
      since w (upgrade_repo os repo w).2 = stat :: rest /\
      begins (git_fetch_cmd repo) Stderr rest) /\
  (forall out,
      completes os (git_fetch_cmd repo) Stderr (history w ++ [stat]) out ->
      exists rest,
        since w (upgrade_repo os repo w).2 =
        stat :: run_events (git_fetch_cmd repo) Stderr out ++
        EvLog INFO (MsgFetchFinished (Directory repo)) :: rest /\
        begins (git_status_cmd repo) Stdout rest).
Proof.
  intros Hstat stat.
  pose proof (gitClone_exists os repo w Hstat) as Hclone. fold stat in Hclone.
  assert (Hbody : upgrade_repo os repo w = fetch_step os repo (after w [stat])).
  { unfold upgrade_repo. rewrite bind_run, Hclone. reflexivity. }
  assert (Hsince : since w (upgrade_repo os repo w).2 =
                   stat :: since (after w [stat]) (fetch_step os repo (after w [stat])).2).
  { rewrite Hbody.
    rewrite (since_trans _ _ w (after w [stat]) _
               (grows_after_any w [stat]) (fetch_step_emits os repo _)).
    now rewrite since_after. }
  split; [exact Hclone|]. split; [exact Hbody|]. split; [|split].
  - rewrite Hsince. constructor.
    + split; reflexivity.
    + eapply Forall_impl; [apply (grows_since_Forall _ _ _ (fetch_step_emits os repo _))|].
      intros e (H1 & H2 & _). tauto.
  - eexists. split; [exact Hsince | apply fetch_step_begins].
  - intros out Hout. rewrite Hsince, (fetch_step_completes os repo (after w [stat]) out Hout).
    set (w1 := after w [stat]).
    set (new := run_events _ _ _ ++ _).
    exists (since (after w1 new) (pull_step os repo (after w1 new)).2). split.
    + rewrite (since_trans _ _ w1 (after w1 new) _
                 (grows_after_any w1 new) (pull_step_emits os repo _)).
      rewrite since_after. subst new. now rewrite <- app_assoc.
    + apply pull_step_begins.
Qed.

Lemma existing_repository_witness :
  gitClone (os_status clean_status) repo_a world_r =
  ((EmptyString, Some SkipDir), after world_r [EvStat "/r/a/.git" None]) /\
  Forall (fun e => about "clone" e = false /\ clone_log e = false)
         (since world_r (upgrade_repo (os_status clean_status) repo_a world_r).2).
Proof.
  pose proof (existing_repository_is_not_cloned (os_status clean_status) repo_a world_r
                eq_refl) as (H1 & _ & H3 & _).
  split; [exact H1 | exact H3].
Defined.

(** ** Failures of one repository *)

Lemma In_since_trans P Q w1 w2 w3 e :
  grows P w1 w2 -> grows Q w2 w3 ->
  In e (since w1 w2) \/ In e (since w2 w3) -> In e (since w1 w3).
Proof.
  intros H12 H23 H. rewrite (since_trans _ _ _ _ _ H12 H23). apply in_app_iff. exact H.
Qed.

(** Every element of the list gets its turn: the body runs on it in some
    world between the first and the last. *)
Lemma for_range_visits {A} P (body : A -> M unit) l x w :
  (forall y, emits P (body y)) -> In x l ->
  exists w1, grows P w w1 /\ grows P (body x w1).2 (for_range l body w).2.
Proof.
  intros Hb. revert w. induction l as [|y l IH]; intros w; [intros []|].
  intros [->|Hin]; simpl; rewrite bind_run.
  - exists w. split; [apply grows_refl|]. apply emits_for_range, Hb.
  - destruct (IH (body y w).2 Hin) as (w1 & H1 & H2). exists w1. split; [|exact H2].
    eapply grows_trans; [apply Hb | exact H1].
Qed.

Lemma gitClone_stats os repo w :
  exists r rest, since w (gitClone os repo w).2 = EvStat (Join (Directory repo) ".git") r :: rest.
Proof.
  unfold gitClone.
  rewrite (bind_since (fun _ => True) (fun _ => True)).
  - unfold os_Stat_ at 1, ask at 1. cbn [snd]. erewrite since_app; [|reflexivity].
    eexists _, _. reflexivity.
  - unfold os_Stat_. emits_auto. exact I.
  - intros [err|]; unfold cmd_Pipe_, cmd_Start_, io_ReadAll_, cmd_Wait_;
      emits_auto; exact I.
Qed.

Lemma upgrade_repo_stats os repo w :
  exists r rest,
    since w (upgrade_repo os repo w).2 = EvStat (Join (Directory repo) ".git") r :: rest.
Proof.
  unfold upgrade_repo.
  rewrite (bind_since (fun _ => True) (fun _ => True)).
  - destruct (gitClone_stats os repo w) as (r & rest & ->). eexists _, _. reflexivity.
  - apply (any_event _ _ (gitClone_emits os repo)).
  - pose proof (any_event _ _ (fetch_step_emits os repo)) as Hf.
    intros [stderr [err|]]; emits_auto; solve [exact I | exact Hf].
Qed.

Lemma upgrade_returns_nil os w : (upgrade os w).1 = None.
Proof.
  unfold upgrade. rewrite !bind_run. reflexivity.
Qed.

(** C6.  In the loop body, a failure of [gitClone] (an error other than
    the sentinel) leaves the world [gitClone] left plus one error line:
    no fetch, status or pull is run.  A failure of [gitFetch], wherever the
    loop body reaches the fetch step, leaves what [gitFetch] left plus one
    error line: no status or pull is run.  Whatever fails, the loop takes
    every repository of the manifest in turn (each one is looked for with
    [os.Stat]), and [upgrade] returns nil. *)
Theorem reconciler_isolates_failures os :
  (forall repo w stderr err,
      (gitClone os repo w).1 = (stderr, Some err) -> is_SkipDir err = false ->
      upgrade_repo os repo w =
      (tt, after (gitClone os repo w).2
             [EvLog ERROR (MsgCloneFailed (Directory repo) err stderr)]) /\
      Forall (fun e => about "fetch" e = false /\ about "status" e = false /\
                       about "pull" e = false)
             (since w (upgrade_repo os repo w).2)) /\
  (forall repo w w1 stderr err,
      upgrade_repo os repo w = fetch_step os repo w1 ->
      (gitFetch os repo w1).1 = (stderr, Some err) ->
      upgrade_repo os repo w =
      (tt, after (gitFetch os repo w1).2
             [EvLog ERROR (MsgFetchFailed (Directory repo) err stderr)]) /\
      Forall (fun e => about "status" e = false /\ about "pull" e = false)
             (since w1 (upgrade_repo os repo w).2)) /\
  (forall w repo,
      In repo (Repos (config w)) ->
      exists r, In (EvStat (Join (Directory repo) ".git") r) (since w (upgrade os w).2)) /\
  (forall w, (upgrade os w).1 = None).
Proof.
  split; [|split; [|split]].
  - intros repo w stderr err Hclone Hskip.
    assert (E : upgrade_repo os repo w =
                (tt, after (gitClone os repo w).2
                       [EvLog ERROR (MsgCloneFailed (Directory repo) err stderr)])).
    { unfold upgrade_repo. rewrite bind_run. destruct (gitClone os repo w) as [[s e] w1].
      cbn [fst snd] in *. injection Hclone as -> ->. now rewrite Hskip. }
    split; [exact E|]. rewrite E. cbn [snd].
    rewrite (since_trans _ _ _ _ _ (gitClone_emits os repo w) (grows_after_any _ _)).
    rewrite since_after. apply Forall_app. split; [|repeat constructor].
    eapply Forall_impl; [apply (grows_since_Forall _ _ _ (gitClone_emits os repo w))|].
    intros e (_ & H1 & H2 & H3 & _). auto.
  - intros repo w w1 stderr err Hbody Hfetch.
    rewrite Hbody. unfold fetch_step. rewrite bind_run.
    pose proof (gitFetch_emits os repo w1) as Hg.
    destruct (gitFetch os repo w1) as [[s e] w2]. cbn [fst snd] in *.
    injection Hfetch as -> ->. split; [reflexivity|].
    change (glog_Error (MsgFetchFailed (Directory repo) err stderr) w2).2
      with (after w2 [EvLog ERROR (MsgFetchFailed (Directory repo) err stderr)]).
    rewrite (since_trans _ _ _ _ _ Hg (grows_after_any _ _)).
    rewrite since_after. apply Forall_app. split; [|repeat constructor].
    eapply Forall_impl; [apply (grows_since_Forall _ _ _ Hg)|].
    intros e (_ & H2 & H3 & _). auto.
  - intros w repo Hin. unfold upgrade. rewrite !bind_run. cbn [fst snd].
    set (w0 := (glog_Info MsgUpgrading w).2).
    assert (H0 : grows (in_stage Reconcile) w w0) by (apply emits_record; reflexivity).
    change (Repos (get_config w0).1) with (Repos (config w)).
    change (get_config w0).2 with w0.
    destruct (for_range_visits (in_stage Reconcile) (upgrade_repo os) _ repo w0
                (upgrade_repo_emits os) Hin) as (w1 & H1 & H2).
    destruct (upgrade_repo_stats os repo w1) as (r & rest & Hr).
    exists r.
    set (w3 := (for_range (Repos (config w)) (upgrade_repo os) w0).2) in *.
    assert (H3 : grows (in_stage Reconcile) w3 (glog_Info MsgUpgraded w3).2)
      by (apply emits_record; reflexivity).
    apply (In_since_trans _ _ w w3 _ _
             (grows_trans _ _ _ _ H0
                (grows_trans _ _ _ _ H1
                   (grows_trans _ _ _ _ (upgrade_repo_emits os repo w1) H2))) H3).
    left.
    apply (In_since_trans _ _ w w1 _ _ (grows_trans _ _ _ _ H0 H1)
             (grows_trans _ _ _ _ (upgrade_repo_emits os repo w1) H2)).
    right.
    apply (In_since_trans _ _ w1 _ _ _ (upgrade_repo_emits os repo w1) H2).
    left. rewrite Hr. now left.
  - apply upgrade_returns_nil.
Qed.

Lemma reconciler_isolates_failures_witness :
  upgrade_repo os_clone_fails repo_a world_r =
  (tt, after (gitClone os_clone_fails repo_a world_r).2
         [EvLog ERROR (MsgCloneFailed "/r/a" (OfSys (EFAIL "exit status 128")) EmptyString)]) /\
  upgrade_repo os_fetch_fails repo_a world_r =
  (tt, after (gitFetch os_fetch_fails repo_a (after world_r [EvStat "/r/a/.git" None])).2
         [EvLog ERROR (MsgFetchFailed "/r/a" (OfSys (EFAIL "exit status 128")) EmptyString)]) /\
  exists r, In (EvStat "/r/b/.git" r) (since world_ab (upgrade os_clone_fails world_ab).2).
Proof.
  split; [|split].
  - apply (proj1 (reconciler_isolates_failures os_clone_fails) repo_a world_r
             EmptyString (OfSys (EFAIL "exit status 128")) eq_refl eq_refl).
  - apply (proj1 (proj2 (reconciler_isolates_failures os_fetch_fails)) repo_a world_r
             (after world_r [EvStat "/r/a/.git" None])
             EmptyString (OfSys (EFAIL "exit status 128")) eq_refl eq_refl).
  - apply (proj1 (proj2 (proj2 (reconciler_isolates_failures os_clone_fails))) world_ab repo_b).
    right; left; reflexivity.
Defined.

(** ** The fast-forward gate *)

Lemma ends_with_app a b : ends_with (a +:+ b) b = true.
Proof.
  unfold ends_with. rewrite to_bytes_app, rev_app_distr, strip_prefix_app. reflexivity.
Qed.

Lemma status_text_clean branch line2 hint :
  reports_clean (status_text branch line2 hint) = true.
Proof.
  unfold reports_clean, status_text.
  replace (branch +:+ nl +:+ line2 +:+ nl +:+ hint +:+ nl +:+ clean_line +:+ nl)
    with ((branch +:+ nl +:+ line2 +:+ nl +:+ hint +:+ nl) +:+ (clean_line +:+ nl))
    by (now rewrite !append_assoc).
  apply ends_with_app.
Qed.

(** A status that does not end with the line of a clean tree is rejected. *)
Lemma gate_needs_clean out : reports_clean out = false -> gate out = false.
Proof.
  intros H. apply not_true_is_false. intros Hg.
  apply gate_shape in Hg as (line2 & hint & _ & _ & ->).
  rewrite status_text_clean in H. discriminate.
Qed.

Lemma pull_step_rejected os repo w out :
  completes os (git_status_cmd repo) Stdout (history w) out -> gate out = false ->
  gitPull os repo w =
  ((EmptyString, Some SkipDir), after w (run_events (git_status_cmd repo) Stdout out)) /\
  pull_step os repo w =
  (tt, after w (run_events (git_status_cmd repo) Stdout out ++
                [EvLog WARNING (MsgUpgradeSkipped (Directory repo))])).
Proof.
  intros Hc Hg. pose proof (gitPull_after_status os repo w out Hc) as E.
  rewrite Hg in E. cbn [negb] in E. split; [exact E|].
  unfold pull_step. rewrite bind_run, E. cbn [fst snd is_SkipDir].
  unfold glog_Warning, record. now rewrite <- after_after.
Qed.

Lemma pull_step_accepted os repo w out :
  completes os (git_status_cmd repo) Stdout (history w) out -> gate out = true ->
  let w1 := after w (run_events (git_status_cmd repo) Stdout out) in
  (exists rest,
      since w (pull_step os repo w).2 = run_events (git_status_cmd repo) Stdout out ++ rest /\
      begins (git_pull_cmd repo) Stderr rest) /\
  (forall stderr,
      completes os (git_pull_cmd repo) Stderr (history w1) stderr ->
      pull_step os repo w =
      (tt, after w1 (run_events (git_pull_cmd repo) Stderr stderr ++
                     [EvLog INFO (MsgUpgradeFinished (Directory repo))]))).
Proof.
  intros Hc Hg w1. pose proof (gitPull_after_status os repo w out Hc) as E.
  rewrite Hg in E. cbn [negb] in E. fold w1 in E.
  assert (Hr : emits (fun _ => True) (run_capture os (git_pull_cmd repo))).
  { unfold run_capture, cmd_Pipe_, cmd_Start_, io_ReadAll_, cmd_Wait_. emits_auto; exact I. }
  assert (Hgrow : grows (fun _ => True) w1 (pull_step os repo w).2).
  { unfold pull_step. rewrite bind_run, E.
    eapply grows_trans; [apply Hr|].
    destruct (run_capture os (git_pull_cmd repo) w1) as [[s [e|]] w2]; cbn [fst snd];
      [destruct (is_SkipDir e)|]; apply emits_record; exact I. }
  split.
  - exists (since w1 (pull_step os repo w).2). split.
    + pose proof (since_after w (run_events (git_status_cmd repo) Stdout out)) as Hs.
      fold w1 in Hs.
      now rewrite (since_trans _ _ w w1 _ (grows_after_any w _) Hgrow), Hs.
    + unfold pull_step. rewrite bind_run, E.
      pose proof (run_capture_begins os (git_pull_cmd repo) w1) as Hb.
      specialize (Hr w1).
      destruct (run_capture os (git_pull_cmd repo) w1) as [[s e] w2]; cbn [fst snd] in *.
      erewrite (since_trans _ (fun _ => True)); [apply begins_app, Hb | exact Hr |].
      destruct e as [e|]; [destruct (is_SkipDir e)|]; apply emits_record; exact I.
  - intros stderr Hp. unfold pull_step. rewrite bind_run, E.
    rewrite (run_capture_completes _ _ _ _ Hp). cbn [fst snd].
    unfold glog_Info, record. now rewrite <- after_after.
Qed.

(** C2.  Let [git status] run to the end in the directory of the
    repository and print [out].  If [out] is a status of the branch
    [master] that is up to date with [origin/master], or behind it by some
    commits and fast-forwardable, and of a clean tree, the gate accepts it
    and the next thing the pull step does is to run [git pull].  If [out]
    does not end with the line of a clean tree, as every status that
    reports an uncommitted change, the gate rejects it, [gitPull] returns
    the sentinel with no further command, and the step ends with one
    warning line: no pull, no error line. *)
Theorem fast_forward_gate os repo w out :
  completes os (git_status_cmd repo) Stdout (history w) out ->
  ((exists line2 hint,
       tracking_line line2 /\ hint_or_nothing hint /\
       out = status_text "On branch master" line2 hint) ->
   gate out = true /\
   exists rest,
     since w (pull_step os repo w).2 = run_events (git_status_cmd repo) Stdout out ++ rest /\
     begins (git_pull_cmd repo) Stderr rest) /\
  (reports_clean out = false ->
   gate out = false /\
   gitPull os repo w =
   ((EmptyString, Some SkipDir), after w (run_events (git_status_cmd repo) Stdout out)) /\
   pull_step os repo w =
   (tt, after w (run_events (git_status_cmd repo) Stdout out ++
                 [EvLog WARNING (MsgUpgradeSkipped (Directory repo))]))).
Proof.
  intros Hc. split.
  - intros (line2 & hint & Hl & Hh & ->).
    pose proof (gate_accepts line2 hint Hl Hh) as Hg. split; [exact Hg|].
    apply (pull_step_accepted os repo w _ Hc Hg).
  - intros Hd. pose proof (gate_needs_clean out Hd) as Hg. split; [exact Hg|].
    apply (pull_step_rejected os repo w out Hc Hg).
Qed.

Lemma fast_forward_gate_witness :
  (gate clean_status = true /\
   exists rest,
     since world_r (pull_step (os_status clean_status) repo_a world_r).2 =
     run_events (git_status_cmd repo_a) Stdout clean_status ++ rest /\
     begins (git_pull_cmd repo_a) Stderr rest) /\
  (gate dirty_status = false /\
   gitPull (os_status dirty_status) repo_a world_r =
   ((EmptyString, Some SkipDir),
    after world_r (run_events (git_status_cmd repo_a) Stdout dirty_status)) /\
   pull_step (os_status dirty_status) repo_a world_r =
   (tt, after world_r (run_events (git_status_cmd repo_a) Stdout dirty_status ++
                       [EvLog WARNING (MsgUpgradeSkipped (Directory repo_a))]))).
Proof.
  split.
  - apply (proj1 (fast_forward_gate (os_status clean_status) repo_a world_r clean_status
                    ltac:(repeat split))).
    exists up_to_date_line, EmptyString.
    split; [constructor|]. split; [now left | reflexivity].
  - apply (proj2 (fast_forward_gate (os_status dirty_status) repo_a world_r dirty_status
                    ltac:(repeat split))).
    vm_compute. reflexivity.
Defined.

(** C3, as the specification states it, fails: the three-line text has no
    empty line before its last line, the pattern asks for one.  The gate
    rejects the text, no pull is run and the repository is skipped with a
    warning. *)
Lemma scenario_status_is_rejected :
  gate scenario_status = false /\
  pull_step (os_status scenario_status) repo_a world_r =
  (tt, after world_r (run_events (git_status_cmd repo_a) Stdout scenario_status ++
                      [EvLog WARNING (MsgUpgradeSkipped "/r/a")])).
Proof. vm_compute. split; reflexivity. Qed.

(** C3, amended.  For the text git prints, with an empty line between the
    line of the branch state and the line of the clean tree, the gate
    accepts, the pull step goes on to run [git pull], and when that runs to
    the end the step logs that the upgrade finished. *)
Theorem clean_status_is_pulled os repo w :
  completes os (git_status_cmd repo) Stdout (history w) clean_status ->
  let w1 := after w (run_events (git_status_cmd repo) Stdout clean_status) in
  clean_status =
    "On branch master" +:+ nl +:+ "Your branch is up-to-date with 'origin/master'." +:+ nl
    +:+ nl +:+ "nothing to commit, working tree clean" +:+ nl /\
  gate clean_status = true /\
  (exists rest,
      since w (pull_step os repo w).2 =
      run_events (git_status_cmd repo) Stdout clean_status ++ rest /\
      begins (git_pull_cmd repo) Stderr rest) /\
  (forall stderr,
      completes os (git_pull_cmd repo) Stderr (history w1) stderr ->
      pull_step os repo w =
      (tt, after w1 (run_events (git_pull_cmd repo) Stderr stderr ++
                     [EvLog INFO (MsgUpgradeFinished (Directory repo))]))).
Proof.
  intros Hc w1. split; [reflexivity|].
  assert (Hg : gate clean_status = true) by (vm_compute; reflexivity).
  split; [exact Hg|]. apply (pull_step_accepted os repo w _ Hc Hg).
Qed.

Lemma clean_status_is_pulled_witness :
  pull_step (os_status clean_status) repo_a world_r =
  (tt, after world_r
         (run_events (git_status_cmd repo_a) Stdout clean_status ++
          run_events (git_pull_cmd repo_a) Stderr EmptyString ++
          [EvLog INFO (MsgUpgradeFinished "/r/a")])).
Proof.
  rewrite (proj2 (proj2 (proj2 (clean_status_is_pulled (os_status clean_status) repo_a world_r
                                  ltac:(repeat split)))) EmptyString ltac:(repeat split)).
  rewrite after_after. reflexivity.
Defined.

(** ** Only [master] and [origin/master] *)

Lemma split_at_unique (c : ascii) (a b x y : bytes) :
  forallb (fun z => negb (Ascii.eqb z c)) a = true ->
  forallb (fun z => negb (Ascii.eqb z c)) b = true ->
  a ++ c :: x = b ++ c :: y -> a = b /\ x = y.
Proof.
  revert b. induction a as [|p a IH]; intros [|q b]; simpl; intros Ha Hb E.
  - injection E as ->. auto.
  - injection E as <- _. apply andb_true_iff in Hb as [Hq _].
    now rewrite Ascii.eqb_refl in Hq.
  - injection E as -> _. apply andb_true_iff in Ha as [Hp _].
    now rewrite Ascii.eqb_refl in Hp.
  - injection E as -> E. apply andb_true_iff in Ha as [_ Ha], Hb as [_ Hb].
    destruct (IH b Ha Hb E) as [-> ->]. auto.
Qed.

Lemma only_master branch remote :
  lacks nl_char branch = true -> lacks "'" remote = true ->
  gate (up_to_date_status branch remote) = true ->
  branch = "master" /\ remote = "origin/master".
Proof.
  intros Hb Hr Hg. apply gate_shape in Hg as (line2 & hint & Hl & Hh & E).
  apply (f_equal to_bytes) in E. unfold up_to_date_status, status_text in E.
  rewrite !to_bytes_app in E.
  change (to_bytes "On branch master") with (to_bytes "On branch " ++ to_bytes "master") in E.
  rewrite <- !app_assoc in E. apply app_inv_head in E.
  change (to_bytes nl) with [nl_char] in E. cbn [app] in E.
  apply split_at_unique in E as [E1 E2]; [|exact Hb|reflexivity].
  apply to_bytes_inj in E1. split; [exact E1|].
  destruct Hl as [|count plural _ _ _].
  - unfold up_to_date_line in E2.
    change (to_bytes "Your branch is up-to-date with 'origin/master'.")
      with (to_bytes "Your branch is up-to-date with '" ++ to_bytes "origin/master"
            ++ "'"%char :: to_bytes ".") in E2.
    rewrite <- !app_assoc in E2. apply app_inv_head in E2.
    change (to_bytes "'.") with ("'"%char :: to_bytes ".") in E2. cbn [app] in E2.
    apply split_at_unique in E2 as [E2 _]; [|exact Hr|reflexivity].
    now apply to_bytes_inj in E2.
  - exfalso. unfold behind_line in E2. rewrite !to_bytes_app in E2.
    unfold to_bytes in E2. simpl in E2. discriminate E2.
Qed.

(** C10.  A status the gate accepts begins with the line
    [On branch master], and its second line names ['origin/master'].  So
    the status of a clean tree on a branch that is up to date with its
    remote branch is rejected as soon as the branch is not [master] or the
    remote branch is not [origin/master] (a branch name has no line break,
    a remote name no quote); and whenever the gate rejects the status that
    [git status] printed, the pull step runs nothing more and logs the
    skip. *)
Theorem gate_names_master_only :
  (forall out,
      gate out = true ->
      exists line2 hint,
        tracking_line line2 /\ hint_or_nothing hint /\
        out = status_text "On branch master" line2 hint) /\
  (forall branch remote,
      lacks nl_char branch = true -> lacks "'" remote = true ->
      branch <> "master" \/ remote <> "origin/master" ->
      gate (up_to_date_status branch remote) = false) /\
  (forall os repo w out,
      completes os (git_status_cmd repo) Stdout (history w) out ->
      gate out = false ->
      pull_step os repo w =
      (tt, after w (run_events (git_status_cmd repo) Stdout out ++
                    [EvLog WARNING (MsgUpgradeSkipped (Directory repo))]))).
Proof.
  split; [exact gate_shape|]. split.
  - intros branch remote Hb Hr Hne. apply not_true_is_false. intros Hg.
    destruct (only_master branch remote Hb Hr Hg) as [-> ->]. tauto.
  - intros os repo w out Hc Hg. apply (pull_step_rejected os repo w out Hc Hg).
Qed.

Lemma gate_names_master_only_witness :
  gate (up_to_date_status "main" "origin/main") = false /\
  pull_step (os_status (up_to_date_status "main" "origin/main")) repo_a world_r =
  (tt, after world_r
         (run_events (git_status_cmd repo_a) Stdout (up_to_date_status "main" "origin/main") ++
          [EvLog WARNING (MsgUpgradeSkipped "/r/a")])).
Proof.
  assert (Hg : gate (up_to_date_status "main" "origin/main") = false).
  { apply (proj1 (proj2 gate_names_master_only) "main" "origin/main");
      [reflexivity | reflexivity | left; discriminate]. }
  split; [exact Hg|].
  apply (proj2 (proj2 gate_names_master_only)
           (os_status (up_to_date_status "main" "origin/main")) repo_a world_r _
           ltac:(repeat split) Hg).
Defined.

(** ** The merge, as a whole *)

Lemma last_remote_unique l x :
  NoDup (map Directory l) -> In x l -> last_remote (Directory x) l = Some (Remote x).
Proof.
  induction l as [|y l IH]; simpl; [intros _ []|].
  intros Hnd Hin. apply NoDup_cons in Hnd as [Hy Hnd].
  destruct Hin as [->|Hin].
  - rewrite (proj2 (last_remote_None (Directory x) l)).
    + now rewrite String.eqb_refl.
    + intros H. apply Hy, list_elem_of_In, H.
  - now rewrite (IH Hnd Hin).
Qed.

Lemma merge_repos_spec seed M D :
  let R := merge_repos seed (M ++ D) in
  (forall d, In d (map Directory (M ++ D)) -> count_occ string_dec (map Directory R) d = 1) /\
  (forall d, In d (map Directory R) -> In d (map Directory (M ++ D))) /\
  (forall x, In x R ->
             match last_remote (Directory x) D with
             | Some remote => Remote x = remote
             | None => last_remote (Directory x) M = Some (Remote x)
             end) /\
  (forall x, In x R -> In (Directory x) (map Directory D) -> In x D) /\
  ascending R.
Proof.
  intros R. subst R. repeat split.
  - intros d Hd. apply NoDup_count_occ_1; [apply merge_repos_NoDup|].
    now apply merge_repos_directories.
  - intros d. apply merge_repos_directories.
  - intros x Hx. apply merge_repos_In in Hx. rewrite last_remote_app in Hx.
    destruct (last_remote (Directory x) D); congruence.
  - intros x Hx Hd. apply merge_repos_In in Hx. rewrite last_remote_app in Hx.
    destruct (last_remote (Directory x) D) as [r|] eqn:E.
    + injection Hx as ->. apply last_remote_In in E. now destruct x.
    + apply last_remote_None in E. contradiction.
  - apply merge_repos_ascending.
Qed.

(** C8.  Merging a manifest that is sorted by directory, without two equal
    directories, with itself gives the manifest back, whatever the order
    in which the map is visited. *)
Theorem merge_is_idempotent seed M :
  ascending M -> merge_repos seed (M ++ M) = M.
Proof.
  intros HM. apply sorted_permutation_unique; [apply merge_repos_ascending | exact HM |].
  pose proof (ascending_NoDup M HM) as Hnd.
  apply NoDup_Permutation.
  - eapply NoDup_fmap_1, merge_repos_NoDup.
  - eapply NoDup_fmap_1, Hnd.
  - intros x. rewrite !list_elem_of_In, merge_repos_In, last_remote_app.
    split.
    + intros H. destruct (last_remote (Directory x) M) as [r|] eqn:E; [|discriminate].
      injection H as ->. apply last_remote_In in E. now destruct x.
    + intros H. now rewrite (last_remote_unique M x Hnd H).
Qed.

Lemma merge_is_idempotent_witness :
  merge_repos [2; 7] ([repo_a; repo_b] ++ [repo_a; repo_b]) = [repo_a; repo_b].
Proof.
  apply (merge_is_idempotent [2; 7] [repo_a; repo_b]).
  repeat constructor.
Defined.

(** * Properties of the discovery and of the orchestrator *)

Lemma FileTree_induction (P : FileTree -> Prop) :
  (forall n e, P (NoEntry n e)) -> (forall n, P (File n)) ->
  (forall n rd entries, Forall P entries -> P (Folder n rd entries)) ->
  forall t, P t.
Proof.
  intros HN HF HD. fix IH 1. intros [n e|n|n rd entries]; [apply HN | apply HF |].
  apply HD. induction entries as [|c cs IHcs]; constructor; [apply IH | exact IHcs].
Qed.

Lemma origin_error_not_skip path o e :
  (origin_result path o).2 = Some e -> is_SkipDir e = false.
Proof. destruct o; simpl; intros [= <-]; reflexivity. Qed.

Lemma quiet_no_failure new p o :
  Forall quiet new -> In (EvOrigin p o) new -> lookup_failed o = true -> False.
Proof.
  rewrite Forall_forall. intros H Hin Hf. apply list_elem_of_In, H in Hin as [_ Hq].
  simpl in Hq. congruence.
Qed.

Lemma ok_quiet w r w' :
  grows quiet w w' -> config w' = config w -> discovery_ok w r w'.
Proof.
  intros Hg Hc. split; [|split].
  - eapply grows_weaken; [|exact Hg]. now intros e [].
  - exists []. now rewrite Hc, app_nil_r.
  - intros p o Hin Hf. exfalso.
    eapply quiet_no_failure; [apply (grows_since_Forall _ _ _ Hg) | exact Hin | exact Hf].
Qed.

Lemma ok_seq w r1 w1 r2 w2 :
  discovery_ok w r1 w1 ->
  (forall e, r1 = Some e -> is_SkipDir e = true) ->
  discovery_ok w1 r2 w2 ->
  discovery_ok w r2 w2.
Proof.
  intros (G1 & (D1 & C1) & F1) Hcont (G2 & (D2 & C2) & F2). split; [|split].
  - eapply grows_trans; eauto.
  - exists (D1 ++ D2). now rewrite C2, C1, app_assoc.
  - intros p o Hin Hf. rewrite (since_trans _ _ _ _ _ G1 G2) in *.
    apply in_app_iff in Hin as [Hin|Hin].
    + destruct (F1 p o Hin Hf) as (path & e & _ & He & -> & _).
      apply origin_error_not_skip in He. rewrite (Hcont e eq_refl) in He. discriminate.
    + destruct (F2 p o Hin Hf) as (path & e & Hp & He & Hr & before & Hb).
      exists path, e. repeat split; try assumption.
      exists (since w w1 ++ before). now rewrite Hb, app_assoc.
Qed.

Section Walk.
Context (os : OS).

Lemma record_quiet e w : quiet e -> grows quiet w (record e w).2.
Proof. intros He. apply emits_record. exact He. Qed.

Lemma update_visit_ok path info err w :
  discovery_ok w (update_visit os path info err w).1 (update_visit os path info err w).2.
Proof.
  unfold update_visit. destruct err as [e|].
  - rewrite bind_run. apply ok_quiet; [|reflexivity].
    apply emits_record. split; reflexivity.
  - destruct info as [info|]; [|apply ok_quiet; [apply grows_refl | reflexivity]].
    destruct (negb (IsDir info) || negb (Name info =? ".git")%string);
      [apply ok_quiet; [apply grows_refl | reflexivity]|].
    rewrite bind_run. unfold remoteDir at 1 2 3. rewrite !bind_run.
    unfold ask at 1 2 3 4 5 6. cbn [fst snd mret M_ret].
    set (p := Join path "config"). set (o := git_origin os (history w) p).
    destruct (origin_result path o) as [remote [e|]] eqn:E; cbn [fst snd].
    + split; [|split].
      * apply grows_after, Forall_forall. intros x Hx.
        apply list_elem_of_In in Hx. destruct Hx as [<-|[]]. reflexivity.
      * exists []. cbn. now rewrite app_nil_r.
      * intros p' o' Hin Hf. rewrite since_app with (new := [EvOrigin p o]) in * by reflexivity.
        destruct Hin as [[= <- <-]|[]].
        exists path, e. repeat split; [now rewrite E|]. now exists [].
    + rewrite !bind_run. cbn [fst snd get_config set_config config flags history].
      split; [|split].
      * split; [reflexivity|]. exists [EvOrigin p o]. split; [reflexivity|].
        repeat constructor.
      * eexists. reflexivity.
      * intros p' o' Hin Hf. rewrite since_app with (new := [EvOrigin p o]) in * by reflexivity.
        destruct Hin as [[= <- <-]|[]]. destruct o; try discriminate.
Qed.
Lemma ok_after_event e w r w' :
  quiet e -> discovery_ok (record e w).2 r w' -> discovery_ok w r w'.
Proof.
  intros He H. eapply (ok_seq _ None); [|discriminate|exact H].
  apply ok_quiet; [now apply record_quiet | reflexivity].
Qed.

Ltac after_event :=
  rewrite bind_run;
  match goal with
  | |- context [record ?e ?w] => apply (ok_after_event e); [split; reflexivity|]
  end.

Lemma ok_nothing w r : discovery_ok w r w.
Proof. apply ok_quiet; [apply grows_refl | reflexivity]. Qed.

Lemma walk_entries_ok path entries :
  Forall (walk_ok_at os) entries ->
  forall w,
    discovery_ok w
      (walk_entries (walk (update_visit os)) (update_visit os) path entries w).1
      (walk_entries (walk (update_visit os)) (update_visit os) path entries w).2.
Proof.
  induction 1 as [|child entries Hc _ IH]; intros w; [apply ok_nothing|].
  cbn [walk_entries].
  destruct child as [n e|n|n rd sub].
  - after_event.
    cbn [fst]. set (w1 := (record _ w).2). rewrite bind_run.
    pose proof (update_visit_ok (Join path (tree_name (NoEntry n e))) None
                  (Some (OfSys e)) w1) as Hv.
    destruct (update_visit os _ None (Some (OfSys e)) w1) as [[err|] w2]; cbn [fst snd] in *.
    + destruct (is_SkipDir err) eqn:Es; [|exact Hv].
      eapply ok_seq; [exact Hv | now intros ? [= <-] | apply IH].
    + eapply ok_seq; [exact Hv | discriminate | apply IH].
  - after_event.
    cbn [fst]. set (w1 := (record _ w).2). rewrite bind_run.
    pose proof (Hc (Join path (tree_name (File n))) w1) as Hv.
    destruct (walk (update_visit os) _ (File n) w1) as [[err|] w2]; cbn [fst snd] in *.
    + cbn [tree_is_dir negb orb]. exact Hv.
    + eapply ok_seq; [exact Hv | discriminate | apply IH].
  - after_event.
    cbn [fst]. set (w1 := (record _ w).2). rewrite bind_run.
    pose proof (Hc (Join path (tree_name (Folder n rd sub))) w1) as Hv.
    destruct (walk (update_visit os) _ (Folder n rd sub) w1) as [[err|] w2];
      cbn [fst snd] in *.
    + cbn [tree_is_dir negb orb]. destruct (is_SkipDir err) eqn:Es; cbn [negb]; [|exact Hv].
      eapply ok_seq; [exact Hv | now intros ? [= <-] | apply IH].
    + eapply ok_seq; [exact Hv | discriminate | apply IH].
Qed.

Lemma walk_ok t : walk_ok_at os t.
Proof.
  induction t as [n e|n|n rd entries IH] using FileTree_induction; intros path w.
  - apply update_visit_ok.
  - apply update_visit_ok.
  - cbn [walk]. rewrite bind_run.
    match goal with
    | |- context [record ?e ?w] => apply (ok_after_event e); [split; reflexivity|]
    end.
    cbn [fst]. set (w1 := (record _ w).2). rewrite bind_run.
    pose proof (update_visit_ok path (Some (info_of (Folder n rd entries)))
                  (OfSys <$> rd) w1) as Hv.
    destruct (update_visit os path _ (OfSys <$> rd) w1) as [err1 w2]; cbn [fst snd] in *.
    destruct (bool_decide (is_Some rd) || bool_decide (is_Some err1)) eqn:Eb; [exact Hv|].
    apply orb_false_iff in Eb as [_ Eb]. apply bool_decide_eq_false in Eb.
    eapply ok_seq; [exact Hv | | apply walk_entries_ok, IH].
    intros e ->. exfalso. apply Eb. eauto.
Qed.

Lemma Walk_finish (m : M (option error)) w :
  discovery_ok w (m w).1 (m w).2 ->
  discovery_ok w
    ((m ≫= fun err => match err with
                      | Some err => if is_SkipDir err then mret None else mret (Some err)
                      | None => mret None
                      end) w).1
    ((m ≫= fun err => match err with
                      | Some err => if is_SkipDir err then mret None else mret (Some err)
                      | None => mret None
                      end) w).2.
Proof.
  intros H. rewrite bind_run. destruct (m w) as [[err|] w1]; cbn [fst snd] in *; [|exact H].
  destruct (is_SkipDir err) eqn:Es; [|exact H].
  cbn [mret M_ret fst snd].
  destruct H as (G & C & F). split; [exact G|]. split; [exact C|].
  intros p o Hin Hf. destruct (F p o Hin Hf) as (path & e & _ & He & [= ->] & _).
  apply origin_error_not_skip in He. congruence.
Qed.

Lemma Walk_ok root w :
  discovery_ok w (Walk os root (update_visit os) w).1 (Walk os root (update_visit os) w).2.
Proof.
  unfold Walk. rewrite bind_run. cbn [fst snd]. apply Walk_finish.
  destruct (fs_tree os (history w) root); after_event;
    first [apply update_visit_ok | apply walk_ok].
Qed.
End Walk.

Section Update.
Context (os : OS).

Lemma update_deferred_run w :
  update_deferred w = (tt, after w [EvLog INFO (MsgUpdated (length (Repos (config w))))]).
Proof. reflexivity. Qed.

Lemma update_spec w :
  grows (in_stage Discover) w (update os w).2 /\
  ((update os w).1 = None ->
   exists D, Repos (config (update os w).2) =
             merge_repos (range_seed os) (Repos (config w) ++ D)) /\
  (forall p o,
      In (EvOrigin p o) (since w (update os w).2) -> lookup_failed o = true ->
      exists path e,
        p = Join path "config" /\ (origin_result path o).2 = Some e /\
        (update os w).1 = Some e /\
        exists before n,
          since w (update os w).2 = before ++ [EvOrigin p o; EvLog INFO (MsgUpdated n)]).
Proof.
  unfold update. rewrite !bind_run. cbn [fst snd].
  set (w0 := (glog_Info MsgUpdating w).2).
  assert (G0 : grows (in_stage Discover) w w0) by (apply emits_record; reflexivity).
  assert (S0 : since w w0 = [EvLog INFO MsgUpdating]) by (now apply since_app).
  change (RootDir (get_flags w0).1) with (RootDir (flags w)).
  change (get_flags w0).2 with w0.
  pose proof (Walk_ok os (RootDir (flags w)) w0) as Hw. unfold discovery_ok in Hw.
  destruct (Walk os (RootDir (flags w)) (update_visit os) w0) as [[err|] w1];
    cbn [fst snd] in *; destruct Hw as (G1 & (D & C1) & F1).
  - rewrite bind_run, update_deferred_run. cbn [fst snd mret M_ret].
    set (n := length (Repos (config w1))).
    assert (G2 : grows (in_stage Discover) w1 (after w1 [EvLog INFO (MsgUpdated n)])).
    { apply grows_after. repeat constructor. }
    split; [|split].
    + eapply grows_trans; [exact G0|]. eapply grows_trans; eauto.
    + discriminate.
    + intros p o Hin Hf.
      rewrite (since_trans _ _ _ _ _ G0 (grows_trans _ _ _ _ G1 G2)) in *.
      rewrite (since_trans _ _ _ _ _ G1 G2), since_after, S0 in *.
      rewrite !in_app_iff in Hin. simpl in Hin.
      destruct Hin as [[[=]|[]]|[Hin|[[=]|[]]]].
      destruct (F1 p o Hin Hf) as (path & e & Hp & He & Hr & before & Hb).
      exists path, e. repeat split; try assumption.
      exists (EvLog INFO MsgUpdating :: before), n. rewrite Hb.
      cbn [app]. now rewrite <- app_assoc.
  - rewrite !bind_run, update_deferred_run.
    cbn [fst snd get_config set_config mret M_ret config flags history Repos].
    set (merged := merge_repos (range_seed os) (Repos (config w1))).
    set (w2 := {| config := {| Repos := merged |}; flags := flags w1; history := history w1 |}).
    set (n := length merged).
    assert (G2 : grows (in_stage Discover) w1 (after w2 [EvLog INFO (MsgUpdated n)])).
    { split; [reflexivity|]. exists [EvLog INFO (MsgUpdated n)]. split; [reflexivity|].
      repeat constructor. }
    split; [|split].
    + eapply grows_trans; [exact G0|]. eapply grows_trans; eauto.
    + intros _. exists D. unfold after, w2, merged. cbn [config Repos]. now rewrite C1.
    + intros p o Hin Hf.
      rewrite (since_trans _ _ _ _ _ G0 (grows_trans _ _ _ _ G1 G2)) in *.
      rewrite (since_trans _ _ _ _ _ G1 G2) in *.
      rewrite (since_app w1 _ [EvLog INFO (MsgUpdated n)]), S0 in * by reflexivity.
      rewrite !in_app_iff in Hin. simpl in Hin.
      destruct Hin as [[[=]|[]]|[Hin|[[=]|[]]]].
      destruct (F1 p o Hin Hf) as (path & e & _ & _ & [=] & _).
Qed.
End Update.

Section Do.
Context (os : OS).

Lemma do_unfold w :
  do os w =
  let filename := manifest_file w in
  match io_ReadFile os (history w) filename with
  | inr e => (Some (OfSys e), after w [EvReadFile filename (inr e)])
  | inl yaml =>
      let cu := yaml_Unmarshal os yaml (config w) in
      let w2 := loaded w yaml cu.1 in
      match cu.2 with
      | Some e => (Some (OfSys e), w2)
      | None =>
          let u := if Update (flags w) then update os w2 else (None, w2) in
          match u.1 with
          | Some e => (Some e, u.2)
          | None =>
              let w4 := if Upgrade (flags w) then (upgrade os u.2).2 else u.2 in
              if Update (flags w) then persist os filename w4 else (None, w4)
          end
      end
  end.
Proof.
  unfold do, persist, loaded, after, manifest_file.
  unfold mbind, M_bind, mret, M_ret, ask, get_flags, get_config, set_config.
  cbn [fst snd config flags history].
  destruct (io_ReadFile os (history w) _) as [yaml|e]; [|reflexivity].
  cbn [fst snd config flags history].
  destruct (yaml_Unmarshal os yaml (config w)) as [c [e|]]; cbn [fst snd]; [reflexivity|].
  destruct (Update (flags w)), (Upgrade (flags w)); cbv beta; cbn [fst snd config flags history].
  - destruct (update os _) as [[e|] w3]; cbn [fst snd]; [reflexivity|].
    pose proof (upgrade_returns_nil os w3) as Hu.
    destruct (upgrade os w3) as [r w4]; cbn [fst snd] in *. subst r.
    destruct (yaml_Marshal os _); [|reflexivity].
    now destruct (io_WriteFile os _ _ _).
  - destruct (update os _) as [[e|] w3]; cbn [fst snd]; [reflexivity|].
    destruct (yaml_Marshal os _); [|reflexivity].
    now destruct (io_WriteFile os _ _ _).
  - cbv beta. match goal with |- context [upgrade os ?w3] =>
      pose proof (upgrade_returns_nil os w3) as Hu; destruct (upgrade os w3) as [r w4] end.
    cbn [fst snd] in *. now subst r.
  - reflexivity.
Qed.

Lemma Walk_emits root : emits (in_stage Discover) (Walk os root (update_visit os)).
Proof. intros w. apply (Walk_ok os root w). Qed.

Lemma update_deferred_emits : emits (in_stage Discover) update_deferred.
Proof. unfold update_deferred. emits_auto. reflexivity. Qed.

Lemma update_starts w :
  exists rest, since w (update os w).2 = EvLog INFO MsgUpdating :: rest.
Proof.
  unfold update.
  rewrite (bind_since (in_stage Discover) (in_stage Discover)).
  - rewrite (since_app w _ [EvLog INFO MsgUpdating]) by reflexivity. eauto.
  - apply emits_record. reflexivity.
  - intros _. apply emits_bind; [apply emits_get_flags|]. intros f.
    apply emits_bind; [apply Walk_emits|]. intros [err|].
    + apply emits_bind; [apply update_deferred_emits|]. intros _. apply emits_ret.
    + apply emits_bind; [apply emits_get_config|]. intros c.
      apply emits_bind; [apply emits_set_config|]. intros _.
      apply emits_bind; [apply update_deferred_emits|]. intros _. apply emits_ret.
Qed.

Lemma upgrade_starts w :
  exists rest, since w (upgrade os w).2 = EvLog INFO MsgUpgrading :: rest.
Proof.
  unfold upgrade.
  rewrite (bind_since (in_stage Reconcile) (in_stage Reconcile)).
  - rewrite (since_app w _ [EvLog INFO MsgUpgrading]) by reflexivity. eauto.
  - apply emits_record. reflexivity.
  - intros _. apply emits_bind; [apply emits_get_config|]. intros c.
    apply emits_bind; [apply emits_for_range, upgrade_repo_emits|]. intros _.
    apply emits_bind; [apply emits_record; reflexivity|]. intros _. apply emits_ret.
Qed.

Lemma persist_grows filename w : grows (in_stage Persist) w (persist os filename w).2.
Proof.
  unfold persist. destruct (yaml_Marshal os (config w)); cbn [snd]; [|apply grows_refl].
  apply grows_after. repeat constructor.
Qed.

Lemma grows_any P w w' : grows P w w' -> grows (fun _ => True) w w'.
Proof. apply grows_weaken. auto. Qed.

Lemma do_segments w :
  exists rd dsc rec per,
    since w (do os w).2 = EvReadFile (manifest_file w) rd :: dsc ++ rec ++ per /\
    Forall (in_stage Discover) dsc /\ Forall (in_stage Reconcile) rec /\
    Forall (in_stage Persist) per /\
    (Update (flags w) = false -> dsc = [] /\ per = []) /\
    (Upgrade (flags w) = false -> rec = []) /\
    ((do os w).1 = None ->
     (Update (flags w) = true ->
      In (EvLog INFO MsgUpdating) dsc /\
      exists data, per = [EvWriteFile (manifest_file w) data None]) /\
     (Upgrade (flags w) = true -> In (EvLog INFO MsgUpgrading) rec)) /\
    (forall p o,
        In (EvOrigin p o) dsc -> lookup_failed o = true ->
        exists path e,
          p = Join path "config" /\ (origin_result path o).2 = Some e /\
          (do os w).1 = Some e /\ rec = [] /\ per = [] /\
          exists before n, dsc = before ++ [EvOrigin p o; EvLog INFO (MsgUpdated n)]).
Proof.
  rewrite do_unfold. cbv zeta.
  destruct (io_ReadFile os (history w) (manifest_file w)) as [yaml|e] eqn:Erd.
  2:{ exists (inr e), [], [], []. cbn [fst snd]. rewrite since_after.
      repeat split; auto; try discriminate. intros ? ? []. }
  destruct (yaml_Unmarshal os yaml (config w)) as [c [e|]] eqn:Ecu; cbn [fst snd].
  { exists (inl yaml), [], [], []. rewrite (since_app w _ [EvReadFile (manifest_file w) (inl yaml)])
      by reflexivity.
    repeat split; auto; try discriminate. intros ? ? []. }
  set (w2 := loaded w yaml c).
  assert (G2 : grows (fun _ => True) w w2).
  { split; [reflexivity|]. eexists. split; [reflexivity|]. repeat constructor. }
  assert (S2 : since w w2 = [EvReadFile (manifest_file w) (inl yaml)])
    by (now apply since_app).
  set (u := if Update (flags w) then update os w2 else (None, w2)).
  assert (G3 : grows (in_stage Discover) w2 u.2).
  { subst u. destruct (Update (flags w)); [apply update_spec | apply grows_refl]. }
  destruct u.1 as [e|] eqn:Eu; cbn [fst snd].
  { exists (inl yaml), (since w2 u.2), [], [].
    rewrite (since_trans _ _ _ _ _ G2 G3), S2, !app_nil_r.
    split; [reflexivity|]. split; [apply (grows_since_Forall _ _ _ G3)|].
    split; [constructor|]. split; [constructor|].
    split; [|split; [reflexivity | split; [discriminate|]]].
    - intros Hu. subst u. rewrite Hu in Eu. discriminate.
    - intros p o Hin Hf. subst u. destruct (Update (flags w)); [|discriminate].
      destruct (proj2 (proj2 (update_spec os w2)) p o Hin Hf)
        as (path & e' & Hp & He & Hr & Hb).
      exists path, e'. cbn [fst snd] in *. rewrite Hr in Eu. injection Eu as <-.
      repeat split; assumption. }
  set (w4 := if Upgrade (flags w) then (upgrade os u.2).2 else u.2).
  assert (G4 : grows (in_stage Reconcile) u.2 w4).
  { subst w4. destruct (Upgrade (flags w)); [apply upgrade_emits | apply grows_refl]. }
  set (f := if Update (flags w) then persist os (manifest_file w) w4 else (None, w4)).
  assert (G5 : grows (in_stage Persist) w4 f.2).
  { subst f. destruct (Update (flags w)); [apply persist_grows | apply grows_refl]. }
  exists (inl yaml), (since w2 u.2), (since u.2 w4), (since w4 f.2).
  rewrite (since_trans _ _ _ _ _ G2 (grows_trans _ _ _ _ (grows_any _ _ _ G3)
             (grows_trans _ _ _ _ (grows_any _ _ _ G4) (grows_any _ _ _ G5)))), S2.
  rewrite (since_trans _ _ _ _ _ G3 (grows_trans _ _ _ _
             (grows_any _ _ _ G4) (grows_any _ _ _ G5))).
  rewrite (since_trans _ _ _ _ _ G4 G5).
  split; [reflexivity|].
  split; [apply (grows_since_Forall _ _ _ G3)|].
  split; [apply (grows_since_Forall _ _ _ G4)|].
  split; [apply (grows_since_Forall _ _ _ G5)|].
  split; [|split; [|split; [intros Hr; split|]]].
  - intros Hu. subst f u. rewrite Hu in *. cbn [snd]. unfold since. now rewrite !drop_all.
  - intros Hg. subst w4. rewrite Hg. unfold since. now rewrite drop_all.
  - intros Hu. subst f u. rewrite Hu in *. split.
    + destruct (update_starts w2) as (rest & ->). now left.
    + unfold persist in *. destruct (yaml_Marshal os (config w4)) as [data|e]; [|discriminate].
      cbn [fst snd] in *. exists data. rewrite since_after.
      destruct (io_WriteFile os (history w4) (manifest_file w) data); [discriminate|reflexivity].
  - intros Hg. clear Hr. subst w4. rewrite Hg.
    destruct (upgrade_starts u.2) as (rest & ->). now left.
  - intros p o Hin Hf. exfalso. subst u. destruct (Update (flags w)).
    + destruct (proj2 (proj2 (update_spec os w2)) p o Hin Hf) as (? & ? & _ & _ & Hu & _).
      rewrite Hu in Eu. discriminate.
    + cbn [snd] in Hin. unfold since in Hin. now rewrite drop_all in Hin.
Qed.
End Do.

(** ** The claims about [update], [do] and [main] *)

(** The scenario of the specification: the manifest holds [/r/a], the walk
    finds [/r/b]. *)
Example update_scenario :
  update (os_status clean_status) world_a =
  (None,
   {| config := {| Repos := [repo_a; repo_b] |};
      flags := flags world_a;
      history :=
        [EvLog INFO MsgUpdating; EvLstat "/r" None; EvReadDir "/r" None;
         EvLstat "/r/a" None; EvReadDir "/r/a" None; EvLstat "/r/a/x" None;
         EvLstat "/r/b" None; EvReadDir "/r/b" None;
         EvLstat "/r/b/.git" None; EvReadDir "/r/b/.git" None;
         EvOrigin "/r/b/.git/config" (Url "u2"); EvLstat "/r/b/y" None;
         EvLog INFO (MsgUpdated 2)] |}).
Proof. vm_compute. reflexivity. Qed.

(** C1.  Whatever the order in which the map is visited, the merge of a
    manifest [M] followed by discovered entries [D] has every directory of
    [M] and [D] exactly once and no other; the remote of a directory is the
    last one [D] gives for it, and the last one [M] gives when [D] has
    none; the list is strictly ascending by directory.  When [update]
    succeeds, the manifest it leaves is such a merge of the manifest it
    found and some list of discovered entries. *)
Theorem merge_last_wins_sorted :
  (forall seed M D,
      let R := merge_repos seed (M ++ D) in
      (forall d, In d (map Directory (M ++ D)) ->
                 count_occ string_dec (map Directory R) d = 1) /\
      (forall d, In d (map Directory R) -> In d (map Directory (M ++ D))) /\
      (forall x, In x R ->
                 match last_remote (Directory x) D with
                 | Some remote => Remote x = remote
                 | None => last_remote (Directory x) M = Some (Remote x)
                 end) /\
      (forall x, In x R -> In (Directory x) (map Directory D) -> In x D) /\
      ascending R) /\
  (forall os w,
      (update os w).1 = None ->
      exists D,
        Repos (config (update os w).2) =
        merge_repos (range_seed os) (Repos (config w) ++ D)).
Proof.
  split; [exact merge_repos_spec|]. intros os w. apply update_spec.
Qed.

Lemma merge_last_wins_sorted_witness :
  exists D,
    Repos (config (update (os_status clean_status) world_a).2) =
    merge_repos [1; 0] ([repo_a] ++ D).
Proof.
  apply (proj2 merge_last_wins_sorted (os_status clean_status) world_a).
  vm_compute. reflexivity.
Defined.

(** C4.  The claim fails where the configuration of a repository has no
    remote named origin.  [remoteDir] checks the section and the key for
    nil (lines 187 to 193), but ini.v1 returns neither as nil: for a file
    that loads, [remoteDir] returns a value and no error, whatever the
    file holds, and the empty string when the url is not there.  So for
    the tree below [/r], where the configuration of [/r/b] has no such
    remote, [update] returns nil and puts [/r/b] with an empty remote in
    the manifest, and [do] goes on to the upgrade and writes the manifest
    back. *)
Theorem missing_origin_does_not_abort :
  (forall path cfg, (origin_result path (lookup_origin (IniLoaded cfg))).2 = None) /\
  lookup_origin (IniLoaded ∅) = Url EmptyString /\
  update os_no_origin world_a =
  (None,
   {| config := {| Repos := [repo_a; {| Directory := "/r/b"; Remote := EmptyString |}] |};
      flags := flags world_a;
      history :=
        [EvLog INFO MsgUpdating;
         EvLstat "/r" None; EvReadDir "/r" None;
         EvLstat "/r/a" None; EvReadDir "/r/a" None; EvLstat "/r/a/x" None;
         EvLstat "/r/b" None; EvReadDir "/r/b" None;
         EvLstat "/r/b/.git" None; EvReadDir "/r/b/.git" None;
         EvOrigin "/r/b/.git/config" (Url EmptyString);
         EvLstat "/r/b/y" None;
         EvLog INFO (MsgUpdated 2)] |}) /\
  (do os_no_origin world_r).1 = None /\
  Repos (config (do os_no_origin world_r).2) =
    [repo_a; {| Directory := "/r/b"; Remote := EmptyString |}] /\
  In (EvLog INFO MsgUpgrading) (since world_r (do os_no_origin world_r).2) /\
  last (since world_r (do os_no_origin world_r).2) =
    Some (EvWriteFile "/r/repositories.txt" "repos: ..." None).
Proof.
  split; [|split; [|split; [|split; [|split; [|split]]]]].
  - intros path cfg. reflexivity.
  - reflexivity.
  - vm_compute. reflexivity.
  - vm_compute. reflexivity.
  - vm_compute. reflexivity.
  - vm_compute. tauto.
  - vm_compute. reflexivity.
Qed.

(** X20.  If, during the walk, [remoteDir] returns an error (the
    configuration of a repository cannot be opened or loaded), that error
    is what [update] returns, and nothing follows the failed lookup but
    the deferred log line: no other directory is visited.  [do] returns
    the same error; after the failed lookup it runs no git command and
    does not write the manifest. *)
Theorem origin_failure_aborts os w p o :
  lookup_failed o = true ->
  (In (EvOrigin p o) (since w (update os w).2) ->
   exists path e,
     p = Join path "config" /\ (origin_result path o).2 = Some e /\
     (update os w).1 = Some e /\
     exists before n,
       since w (update os w).2 = before ++ [EvOrigin p o; EvLog INFO (MsgUpdated n)]) /\
  (In (EvOrigin p o) (since w (do os w).2) ->
   exists path e,
     p = Join path "config" /\ (origin_result path o).2 = Some e /\
     (do os w).1 = Some e /\
     (exists before n,
         since w (do os w).2 = before ++ [EvOrigin p o; EvLog INFO (MsgUpdated n)]) /\
     Forall (fun ev => is_write ev = false /\ stage_of ev <> Reconcile)
            (since w (do os w).2)).
Proof.
  intros Hf. split.
  - intros Hin. now apply update_spec.
  - intros Hin.
    destruct (do_segments os w)
      as (rd & dsc & rec & per & Hs & Hd & Hr & Hp & _ & _ & _ & Hfail).
    rewrite Hs in Hin |- *.
    assert (Hin' : In (EvOrigin p o) dsc).
    { destruct Hin as [[=]|Hin]. rewrite !in_app_iff in Hin.
      destruct Hin as [Hin|[Hin|Hin]]; [exact Hin | exfalso..].
      - rewrite Forall_forall in Hr. apply list_elem_of_In, Hr in Hin. discriminate.
      - rewrite Forall_forall in Hp. apply list_elem_of_In, Hp in Hin. discriminate. }
    destruct (Hfail p o Hin' Hf) as (path & e & Hpath & He & Hres & -> & -> & before & n & Hb).
    exists path, e. rewrite !app_nil_r. repeat split; try assumption.
    + exists (EvReadFile (manifest_file w) rd :: before), n. now rewrite Hb.
    + constructor; [split; [reflexivity | discriminate]|].
      eapply Forall_impl; [exact Hd|]. intros ev Hev.
      unfold in_stage in Hev. split; [now destruct ev | congruence].
Qed.

Lemma origin_failure_aborts_witness :
  exists path e,
    "/r/b/.git/config" = Join path "config" /\
    (origin_result path (OpenFails (EFAIL "permission denied"))).2 = Some e /\
    (do os_config_unreadable world_r).1 = Some e /\
    (exists before n,
        since world_r (do os_config_unreadable world_r).2 =
        before ++ [EvOrigin "/r/b/.git/config" (OpenFails (EFAIL "permission denied"));
                   EvLog INFO (MsgUpdated n)]) /\
    Forall (fun ev => is_write ev = false /\ stage_of ev <> Reconcile)
           (since world_r (do os_config_unreadable world_r).2).
Proof.
  apply (proj2 (origin_failure_aborts os_config_unreadable world_r "/r/b/.git/config"
                  (OpenFails (EFAIL "permission denied")) eq_refl)).
  vm_compute. tauto.
Defined.

Lemma staged_uniform s l : Forall (in_stage s) l -> staged l.
Proof.
  induction 1 as [|e l He Hl IH]; constructor; [exact IH|].
  eapply Forall_impl; [exact Hl|]. intros e' He'. unfold in_stage in *. now rewrite He, He'.
Qed.

Lemma staged_app l1 l2 k :
  staged l1 -> staged l2 ->
  Forall (fun e => stage_rank (stage_of e) <= k) l1 ->
  Forall (fun e => k <= stage_rank (stage_of e)) l2 ->
  staged (l1 ++ l2).
Proof.
  intros H1 H2 F1 F2. apply StronglySorted_app_2; [|assumption..].
  rewrite Forall_forall in F1, F2. intros a b Ha Hb.
  specialize (F1 a Ha). specialize (F2 b Hb). lia.
Qed.

Lemma stage_bounds s l :
  Forall (in_stage s) l ->
  Forall (fun e => stage_rank (stage_of e) <= stage_rank s) l /\
  Forall (fun e => stage_rank s <= stage_rank (stage_of e)) l.
Proof.
  intros H. split; (eapply Forall_impl; [exact H|]); intros e He;
    unfold in_stage in He; now rewrite He.
Qed.

Lemma stage_differs s s' l :
  Forall (in_stage s) l -> s <> s' -> Forall (fun e => stage_of e <> s') l.
Proof.
  intros H Hne. eapply Forall_impl; [exact H|]. unfold in_stage. intros e He. now rewrite He.
Qed.

(** C7.  The events of [do] come in stages that never go back: the read
    of the manifest first, then events of the discovery, then events of
    the reconciliation, then the write of the manifest.  Without the
    update flag there is no event of the discovery and no write, without
    the upgrade flag no event of the reconciliation; in a run that returns
    nil, each flag that is set brings its stage, and with the update flag
    the write is the last event.  When reading or parsing the manifest
    fails, [do] returns the error with nothing after the read; when
    [update] fails, [do] returns its error with nothing after [update];
    [upgrade] never returns an error. *)
Theorem orchestrator_stages os w :
  let new := since w (do os w).2 in
  staged new /\
  (exists rd rest,
      new = EvReadFile (manifest_file w) rd :: rest /\
      Forall (fun e => stage_of e <> Load) rest) /\
  (Update (flags w) = false ->
   Forall (fun e => stage_of e <> Discover /\ stage_of e <> Persist) new) /\
  (Upgrade (flags w) = false -> Forall (fun e => stage_of e <> Reconcile) new) /\
  ((do os w).1 = None ->
   (Update (flags w) = true ->
    In (EvLog INFO MsgUpdating) new /\
    exists data, last new = Some (EvWriteFile (manifest_file w) data None)) /\
   (Upgrade (flags w) = true -> In (EvLog INFO MsgUpgrading) new)) /\
  (forall e,
      io_ReadFile os (history w) (manifest_file w) = inr e ->
      do os w = (Some (OfSys e), after w [EvReadFile (manifest_file w) (inr e)])) /\
  (forall yaml c e,
      io_ReadFile os (history w) (manifest_file w) = inl yaml ->
      yaml_Unmarshal os yaml (config w) = (c, Some e) ->
      do os w = (Some (OfSys e), loaded w yaml c)) /\
  (forall yaml c e,
      io_ReadFile os (history w) (manifest_file w) = inl yaml ->
      yaml_Unmarshal os yaml (config w) = (c, None) ->
      Update (flags w) = true ->
      (update os (loaded w yaml c)).1 = Some e ->
      do os w = (Some e, (update os (loaded w yaml c)).2)) /\
  (forall w', (upgrade os w').1 = None).
Proof.
  intros new. subst new.
  destruct (do_segments os w)
    as (rd & dsc & rec & per & Hs & Hd & Hr & Hp & Hnoupd & Hnoupg & Hrun & _).
  destruct (stage_bounds _ _ Hd) as [Hd1 Hd2].
  destruct (stage_bounds _ _ Hr) as [Hr1 Hr2].
  destruct (stage_bounds _ _ Hp) as [Hp1 Hp2].
  rewrite Hs. split; [|split; [|split; [|split; [|split; [|split; [|split; [|split]]]]]]].
  - change (staged ([EvReadFile (manifest_file w) rd] ++ dsc ++ rec ++ per)).
    apply (staged_app _ _ 1); [repeat constructor | | repeat constructor |].
    + apply (staged_app _ _ 2); [now apply (staged_uniform Discover) | | exact Hd1 |].
      * apply (staged_app _ _ 3);
          [now apply (staged_uniform Reconcile) | now apply (staged_uniform Persist) | exact Hr1 |].
        eapply Forall_impl; [exact Hp2|]. simpl. intros; lia.
      * apply Forall_app. split; (eapply Forall_impl; [eassumption|]); simpl; intros; lia.
    + rewrite !Forall_app. repeat split; (eapply Forall_impl; [eassumption|]);
        simpl; intros; lia.
  - exists rd, (dsc ++ rec ++ per). split; [reflexivity|].
    rewrite !Forall_app. split; [|split].
    + now apply (stage_differs Discover).
    + now apply (stage_differs Reconcile).
    + now apply (stage_differs Persist).
  - intros Hu. destruct (Hnoupd Hu) as [-> ->]. rewrite app_nil_r. cbn [app].
    constructor; [split; discriminate|].
    eapply Forall_impl; [exact Hr|]. unfold in_stage. intros e He. rewrite He.
    split; discriminate.
  - intros Hg. rewrite (Hnoupg Hg). cbn [app].
    constructor; [discriminate|]. rewrite Forall_app. split.
    + now apply (stage_differs Discover).
    + now apply (stage_differs Persist).
  - intros Hres. destruct (Hrun Hres) as [Hu Hg]. split.
    + intros Hupd. destruct (Hu Hupd) as (Hin & data & ->). split.
      * right. apply in_app_iff. now left.
      * exists data.
        change (EvReadFile (manifest_file w) rd :: dsc ++ rec ++ [EvWriteFile (manifest_file w) data None])
          with ((EvReadFile (manifest_file w) rd :: dsc) ++ rec ++ [EvWriteFile (manifest_file w) data None]).
        now rewrite !app_assoc, last_snoc.
    + intros Hupg. right. rewrite !in_app_iff. right; left. now apply Hg.
  - intros e He. rewrite do_unfold. cbv zeta. now rewrite He.
  - intros yaml c e He Hc. rewrite do_unfold. cbv zeta. now rewrite He, Hc.
  - intros yaml c e He Hc Hu Hup. rewrite do_unfold. cbv zeta.
    rewrite He, Hc, Hu. cbn [fst snd]. now rewrite Hup.
  - apply upgrade_returns_nil.
Qed.

Lemma orchestrator_stages_witness :
  do os_no_manifest world_r =
  (Some (OfSys (ENOENT "no such file or directory")),
   after world_r
     [EvReadFile (manifest_file world_r) (inr (ENOENT "no such file or directory"))]) /\
  do os_config_unreadable world_r =
  (Some (OfSys (EFAIL "permission denied")),
   (update os_config_unreadable (loaded world_r "repos: ..." {| Repos := [repo_a] |})).2) /\
  In (EvLog INFO MsgUpgrading)
     (since world_r (do (os_status clean_status) world_r).2).
Proof.
  split; [|split].
  - apply (proj1 (proj2 (proj2 (proj2 (proj2 (proj2 (orchestrator_stages os_no_manifest world_r))))))).
    reflexivity.
  - apply (proj1 (proj2 (proj2 (proj2 (proj2 (proj2 (proj2 (proj2
             (orchestrator_stages os_config_unreadable world_r))))))))
             "repos: ..." {| Repos := [repo_a] |}); reflexivity.
  - apply (proj1 (proj2 (proj2 (proj2 (proj2 (orchestrator_stages (os_status clean_status)
                                                world_r)))))); reflexivity.
Defined.

(** ** The exit status *)

Lemma first_exit_never os h new :
  (forall h' sev msg, glog_exits os h' sev msg = false) -> first_exit os h new = None.
Proof.
  intros Hno. revert h. induction new as [|e new IH]; intros h; [reflexivity|].
  cbn [first_exit]. destruct e; try apply IH. now rewrite Hno.
Qed.

Lemma main_work_run os w :
  main_work os w =
  let w1 := after w [EvLog INFO (MsgCheck (RootDir (flags w)))] in
  match (do os w1).1 with
  | Some e => (tt, after (do os w1).2 [EvLog ERROR (MsgErr e)])
  | None => (tt, (do os w1).2)
  end.
Proof.
  unfold main_work. rewrite !bind_run. cbn [fst snd get_flags].
  change (glog_Info (MsgCheck (RootDir (flags w))) w).2
    with (after w [EvLog INFO (MsgCheck (RootDir (flags w)))]).
  cbv zeta. now destruct (do os _) as [[e|] w2].
Qed.

(** C9, as the specification states it, fails: [main] begins with
    [flag.Parse], which ends the process with status 2 when the command
    line is not well formed.  With a value for [-update] that is not a
    boolean nothing is done and the exit status is 2, in every
    environment. *)
Theorem bad_flag_exits_with_2 :
  run (os_status clean_status) ["-update=maybe"] = (Exited 2, []) /\
  exit_status (run (os_status clean_status) ["-update=maybe"]).1 <> 0 /\
  (forall os, run os ["-update=maybe"] = (Exited 2, [])).
Proof. split; [reflexivity | split; [discriminate | intros os; reflexivity]]. Qed.

(** C9, amended.  When [flag.Parse] returns and no log call ends the
    process, the run ends when [main] returns and the exit status is 0,
    whatever [do] returns: its error adds one error line to the log and
    nothing else.  In every run the exit status is 0 or 2. *)
Theorem exit_status_is_zero os args :
  (forall f,
      flag_Parse os None args init = FlagsSet f ->
      (forall h sev msg, glog_exits os h sev msg = false) ->
      let w1 := {| config := {| Repos := [] |}; flags := f;
                   history := [EvLog INFO (MsgCheck (RootDir f))] |} in
      exit_status (run os args).1 = 0 /\
      (forall e,
          (do os w1).1 = Some e ->
          run os args = (Returned, history (do os w1).2 ++ [EvLog ERROR (MsgErr e)])) /\
      ((do os w1).1 = None -> run os args = (Returned, history (do os w1).2))) /\
  (forall code, flag_Parse os None args init = ParseExit code ->
                run os args = (Exited code, []) /\ (code = 0 \/ code = 2)) /\
  (exit_status (run os args).1 = 0 \/ exit_status (run os args).1 = 2).
Proof.
  assert (Hcode : forall want a f code,
             flag_Parse os want a f = ParseExit code -> code = 0 \/ code = 2).
  { intros want a. revert want. induction a as [|s a IH]; intros want f code.
    - cbn. destruct want; [intros [= <-]; now right | discriminate].
    - cbn [flag_Parse]. destruct want as [fl|].
      + destruct (set_flag fl s f); [apply IH | intros [= <-]; now right].
      + destruct (read_argument s) as [| | |name value]; try discriminate;
          [intros [= <-]; now right|].
        destruct (formal os name) as [fl|].
        * destruct (is_bool_flag fl).
          -- destruct (set_flag fl (default "true" value) f);
               [apply IH | intros [= <-]; now right].
          -- destruct value as [v|]; [|apply IH].
             destruct (set_flag fl v f); [apply IH | intros [= <-]; now right].
        * destruct (_ || _); intros [= <-]; [now left | now right]. }
  split; [|split].
  - intros f Hp Hno w1. unfold run, main. cbn [flags start config history].
    rewrite Hp, first_exit_never by exact Hno.
    rewrite main_work_run. cbv zeta. cbn [flags].
    change (after {| config := {| Repos := [] |}; flags := f; history := [] |}
              [EvLog INFO (MsgCheck (RootDir f))]) with w1.
    destruct (do os w1) as [[e|] w2]; cbn [fst snd].
    + split; [reflexivity|]. split; [|discriminate]. now intros ? [= <-].
    + split; [reflexivity|]. split; [discriminate | reflexivity].
  - intros code Hp. unfold run, main. cbn [flags start history]. rewrite Hp.
    split; [reflexivity | exact (Hcode _ _ _ _ Hp)].
  - unfold run, main. cbn [flags start config history].
    destruct (flag_Parse os None args init) as [f|code] eqn:Hp.
    + destruct (first_exit os _ _); [now right | now left].
    + exact (Hcode _ _ _ _ Hp).
Qed.

Lemma exit_status_is_zero_witness :
  exit_status (run os_no_manifest ["-dir"; "/r"]).1 = 0 /\
  run os_no_manifest ["-dir"; "/r"] =
  (Returned,
   [EvLog INFO (MsgCheck "/r");
    EvReadFile "/r/repositories.txt" (inr (ENOENT "no such file or directory"));
    EvLog ERROR (MsgErr (OfSys (ENOENT "no such file or directory")))]).
Proof.
  pose proof (proj1 (exit_status_is_zero os_no_manifest ["-dir"; "/r"])
                {| RootDir := "/r"; Update := true; Upgrade := true |}
                eq_refl (fun _ _ _ => eq_refl)) as H.
  cbv zeta in H. destruct H as (H0 & He & _). split; [exact H0|].
  rewrite (He (OfSys (ENOENT "no such file or directory")) eq_refl). reflexivity.
Defined.

(** * Further properties *)

(** ** The merge *)

Lemma last_remote_merge seed repos d :
  last_remote d (merge_repos seed repos) = last_remote d repos.
Proof.
  destruct (last_remote d repos) as [r|] eqn:E.
  - change d with (Directory {| Directory := d; Remote := r |}).
    change r with (Remote {| Directory := d; Remote := r |}) at 2.
    apply last_remote_unique; [apply merge_repos_NoDup|].
    now apply merge_repos_In.
  - apply last_remote_None. rewrite merge_repos_directories. now apply last_remote_None.
Qed.

Lemma merge_repos_ext s1 s2 l1 l2 :
  (forall d, last_remote d l1 = last_remote d l2) ->
  merge_repos s1 l1 = merge_repos s2 l2.
Proof.
  intros H. apply sorted_permutation_unique; try apply merge_repos_ascending.
  apply NoDup_Permutation.
  - eapply NoDup_fmap_1, merge_repos_NoDup.
  - eapply NoDup_fmap_1, merge_repos_NoDup.
  - intros x. rewrite !list_elem_of_In, !merge_repos_In. now rewrite H.
Qed.

(** X1.  The merged manifest does not depend on the order in which [range]
    visits the map: two runs with different orders give the same list. *)
Theorem merge_order_independent seed1 seed2 repos :
  merge_repos seed1 repos = merge_repos seed2 repos.
Proof.
  apply sorted_permutation_unique; try apply merge_repos_ascending.
  apply NoDup_Permutation.
  - eapply NoDup_fmap_1, merge_repos_NoDup.
  - eapply NoDup_fmap_1, merge_repos_NoDup.
  - intros x. now rewrite !list_elem_of_In, !merge_repos_In.
Qed.

(** X2.  Looking a directory up in the merged manifest gives what the last
    entry for it in the input gives, and nothing for a directory the input
    does not have. *)
Theorem merge_lookup seed repos d :
  last_remote d (merge_repos seed repos) = last_remote d repos /\
  (last_remote d repos = None <-> ~ In d (map Directory (merge_repos seed repos))).
Proof.
  split; [apply last_remote_merge|].
  rewrite <- (last_remote_merge seed). apply last_remote_None.
Qed.

Lemma merge_lookup_witness :
  ~ In "/r/c" (map Directory (merge_repos [0] [repo_a; repo_b])).
Proof.
  apply (proj1 (proj2 (merge_lookup [0] [repo_a; repo_b] "/r/c"))). reflexivity.
Defined.

(** X3.  A second merge with the same discovered entries changes nothing:
    what [update] leaves is a fixed point of the merge. *)
Theorem merge_again_is_stable seed seed' M D :
  merge_repos seed (merge_repos seed' (M ++ D) ++ D) = merge_repos seed' (M ++ D).
Proof.
  apply merge_repos_ext. intros d.
  rewrite !last_remote_app, last_remote_merge, last_remote_app.
  now destruct (last_remote d D).
Qed.

(** X4.  The merge never has more entries than its input, and when no two
    entries of the input have the same directory it only reorders them. *)
Theorem merge_size seed repos :
  length (merge_repos seed repos) <= length repos /\
  (NoDup (map Directory repos) -> merge_repos seed repos ≡ₚ repos).
Proof.
  assert (Hsub : forall x, In x (merge_repos seed repos) -> In x repos).
  { intros x Hx. apply merge_repos_In, last_remote_In in Hx. now destruct x. }
  split.
  - apply NoDup_incl_length.
    + apply NoDup_ListNoDup. eapply NoDup_fmap_1, merge_repos_NoDup.
    + exact Hsub.
  - intros Hnd. apply NoDup_Permutation.
    + eapply NoDup_fmap_1, merge_repos_NoDup.
    + eapply NoDup_fmap_1, Hnd.
    + intros x. rewrite !list_elem_of_In. split; [apply Hsub|].
      intros Hx. apply merge_repos_In. now apply last_remote_unique.
Qed.

Lemma merge_size_witness : merge_repos [3] [repo_b; repo_a] ≡ₚ [repo_b; repo_a].
Proof.
  apply (proj2 (merge_size [3] [repo_b; repo_a])).
  simpl. apply NoDup_cons. split; [|apply NoDup_singleton].
  intros H. apply list_elem_of_singleton in H. discriminate H.
Defined.

(** ** The results of the git steps *)

Lemma run_capture_not_skip os cmd w e :
  (run_capture os cmd w).1.2 = Some e -> is_SkipDir e = false.
Proof.
  unfold run_capture, cmd_Pipe_, cmd_Start_, io_ReadAll_, cmd_Wait_.
  ask_step. destruct (cmd_Pipe os (history w) cmd Stderr) as [e1|]; [now intros [= <-]|].
  ask_step.
  match goal with |- context [cmd_Start os ?h cmd] =>
    destruct (cmd_Start os h cmd) as [e2|] end; [now intros [= <-]|].
  ask_step.
  match goal with |- context [io_ReadAll os ?h cmd Stderr] =>
    destruct (io_ReadAll os h cmd Stderr) as [out [e3|]] end; cbn [fst snd];
    [now intros [= <-]|].
  ask_step.
  match goal with |- context [cmd_Wait os ?h cmd] =>
    destruct (cmd_Wait os h cmd) as [e4|] end; [now intros [= <-] | discriminate].
Qed.

Lemma run_capture_nil os cmd w :
  (run_capture os cmd w).1.2 = None ->
  exists out, completes os cmd Stderr (history w) out.
Proof.
  unfold completes, run_capture, cmd_Pipe_, cmd_Start_, io_ReadAll_, cmd_Wait_.
  ask_step. destruct (cmd_Pipe os (history w) cmd Stderr) as [e1|] eqn:E1; [discriminate|].
  ask_step.
  match goal with |- context [cmd_Start os ?h cmd] =>
    destruct (cmd_Start os h cmd) as [e2|] eqn:E2 end; [discriminate|].
  ask_step.
  match goal with |- context [io_ReadAll os ?h cmd Stderr] =>
    destruct (io_ReadAll os h cmd Stderr) as [out [e3|]] eqn:E3 end; cbn [fst snd];
    [discriminate|].
  ask_step.
  match goal with |- context [cmd_Wait os ?h cmd] =>
    destruct (cmd_Wait os h cmd) as [e4|] eqn:E4 end; [discriminate|].
  intros _. exists out. repeat split; assumption.
Qed.

(** X5.  [gitFetch] returns nil exactly when [git fetch] ran to the end
    with exit status 0; the text it returns is then what the command wrote
    on its standard error.  It never returns the sentinel [SkipDir]. *)
Theorem fetch_succeeds_iff_completes os repo w :
  ((gitFetch os repo w).1.2 = None <->
   exists out, completes os (git_fetch_cmd repo) Stderr (history w) out) /\
  (forall out,
      completes os (git_fetch_cmd repo) Stderr (history w) out ->
      gitFetch os repo w =
      ((out, None), after w (run_events (git_fetch_cmd repo) Stderr out))) /\
  (gitFetch os repo w).1.2 <> Some SkipDir.
Proof.
  rewrite gitFetch_run. split; [split|split].
  - apply run_capture_nil.
  - intros (out & H). now rewrite (run_capture_completes _ _ _ _ H).
  - apply run_capture_completes.
  - intros H. apply run_capture_not_skip in H. discriminate.
Qed.

Lemma fetch_succeeds_iff_completes_witness :
  gitFetch (os_status clean_status) repo_a world_r =
  ((EmptyString, None), after world_r (run_events (git_fetch_cmd repo_a) Stderr EmptyString)).
Proof.
  apply (proj1 (proj2 (fetch_succeeds_iff_completes (os_status clean_status) repo_a world_r))).
  repeat split.
Defined.

Lemma gitClone_missing os repo w e :
  os_Stat os (history w) (Join (Directory repo) ".git") = Some e -> IsNotExist e = true ->
  gitClone os repo w =
  run_capture os (git_clone_cmd repo) (after w [EvStat (Join (Directory repo) ".git") (Some e)]).
Proof.
  intros H Hn. unfold gitClone, os_Stat_. ask_step. rewrite H, Hn. reflexivity.
Qed.

Lemma gitClone_stat_error os repo w e :
  os_Stat os (history w) (Join (Directory repo) ".git") = Some e -> IsNotExist e = false ->
  gitClone os repo w =
  ((EmptyString, Some (OfSys e)), after w [EvStat (Join (Directory repo) ".git") (Some e)]).
Proof.
  intros H Hn. unfold gitClone, os_Stat_. ask_step. rewrite H, Hn. reflexivity.
Qed.

(** X6.  [gitClone] returns the sentinel [SkipDir] exactly when [os.Stat]
    finds the [.git] directory.  When [os.Stat] fails for another reason
    than a missing file, that error is returned after the one call: no
    [git clone] is run.  When the file is missing, the result is nil
    exactly when [git clone] ran to the end with exit status 0. *)
Theorem clone_result os repo w :
  let git := Join (Directory repo) ".git" in
  ((gitClone os repo w).1.2 = Some SkipDir <-> os_Stat os (history w) git = None) /\
  (forall e,
      os_Stat os (history w) git = Some e -> IsNotExist e = false ->
      gitClone os repo w = ((EmptyString, Some (OfSys e)), after w [EvStat git (Some e)])) /\
  (forall e,
      os_Stat os (history w) git = Some e -> IsNotExist e = true ->
      ((gitClone os repo w).1.2 = None <->
       exists out,
         completes os (git_clone_cmd repo) Stderr (history w ++ [EvStat git (Some e)]) out)).
Proof.
  intros git. subst git. set (git := Join (Directory repo) ".git"). split; [|split].
  - split.
    + intros H. destruct (os_Stat os (history w) git) as [e|] eqn:E; [exfalso|reflexivity].
      destruct (IsNotExist e) eqn:En.
      * rewrite (gitClone_missing _ _ _ _ E En) in H.
        apply run_capture_not_skip in H. discriminate.
      * rewrite (gitClone_stat_error _ _ _ _ E En) in H. discriminate.
    + intros H. now rewrite (gitClone_exists _ _ _ H).
  - apply gitClone_stat_error.
  - intros e E En. rewrite (gitClone_missing _ _ _ _ E En). split.
    + apply run_capture_nil.
    + intros (out & H).
      unfold git in *.
      now rewrite (run_capture_completes os _ (after w [EvStat _ (Some e)]) out H).
Qed.

Lemma clone_result_witness :
  gitClone os_stat_denied repo_a world_r =
  ((EmptyString, Some (OfSys (EFAIL "permission denied"))),
   after world_r [EvStat "/r/a/.git" (Some (EFAIL "permission denied"))]).
Proof.
  apply (proj1 (proj2 (clone_result os_stat_denied repo_a world_r))
           (EFAIL "permission denied")); reflexivity.
Defined.

Lemma gitPull_status_cases os repo w :
  (exists out, completes os (git_status_cmd repo) Stdout (history w) out) \/
  (exists e evs,
      gitPull os repo w = ((EmptyString, Some (OfSys e)), after w evs) /\
      Forall (fun ev => about "status" ev = true) evs).
Proof.
  unfold completes, gitPull, cmd_Pipe_, cmd_Start_, io_ReadAll_, cmd_Wait_.
  ask_step.
  destruct (cmd_Pipe os (history w) (git_status_cmd repo) Stdout) as [e1|] eqn:E1.
  { right. exists e1. eexists [_]. split; [reflexivity | repeat constructor]. }
  ask_step.
  match goal with |- context [cmd_Start os ?h ?c] =>
    destruct (cmd_Start os h c) as [e2|] eqn:E2 end.
  { right. exists e2. eexists [_; _]. split; [reflexivity | repeat constructor]. }
  ask_step.
  match goal with |- context [io_ReadAll os ?h ?c Stdout] =>
    destruct (io_ReadAll os h c Stdout) as [out [e3|]] eqn:E3 end; cbn [fst snd].
  { right. exists e3. eexists [_; _; _]. split; [reflexivity | repeat constructor]. }
  ask_step.
  match goal with |- context [cmd_Wait os ?h ?c] =>
    destruct (cmd_Wait os h c) as [e4|] eqn:E4 end.
  { right. exists e4. eexists [_; _; _; _]. split; [reflexivity | repeat constructor]. }
  left. exists out. repeat split; assumption.
Qed.

(** X7.  [gitPull] returns the sentinel [SkipDir] exactly when
    [git status] ran to the end and the gate rejected what it printed: a
    command that fails is never taken for a skip.  It returns nil exactly
    when the status was accepted and [git pull] then ran to the end with
    exit status 0. *)
Theorem pull_result os repo w :
  ((gitPull os repo w).1.2 = Some SkipDir <->
   exists out,
     completes os (git_status_cmd repo) Stdout (history w) out /\ gate out = false) /\
  ((gitPull os repo w).1.2 = None <->
   exists out,
     completes os (git_status_cmd repo) Stdout (history w) out /\ gate out = true /\
     exists err,
       completes os (git_pull_cmd repo) Stderr
         (history w ++ run_events (git_status_cmd repo) Stdout out) err).
Proof.
  split; split.
  - intros H. destruct (gitPull_status_cases os repo w) as [(out & Hc)|(e & evs & He & _)].
    + exists out. split; [exact Hc|].
      rewrite (gitPull_after_status _ _ _ _ Hc) in H.
      destruct (gate out); [|reflexivity]. cbn [negb] in H.
      apply run_capture_not_skip in H. discriminate.
    + rewrite He in H. discriminate.
  - intros (out & Hc & Hg). rewrite (gitPull_after_status _ _ _ _ Hc), Hg. reflexivity.
  - intros H. destruct (gitPull_status_cases os repo w) as [(out & Hc)|(e & evs & He & _)].
    + exists out. split; [exact Hc|].
      rewrite (gitPull_after_status _ _ _ _ Hc) in H.
      destruct (gate out); cbn [negb] in H; [|discriminate].
      split; [reflexivity|]. apply run_capture_nil in H. exact H.
    + rewrite He in H. discriminate.
  - intros (out & Hc & Hg & err & Hp).
    rewrite (gitPull_after_status _ _ _ _ Hc), Hg. cbn [negb].
    now rewrite (run_capture_completes os _ (after w _) err Hp).
Qed.

Lemma pull_result_witness :
  (gitPull (os_status dirty_status) repo_a world_r).1.2 = Some SkipDir.
Proof.
  apply (proj2 (proj1 (pull_result (os_status dirty_status) repo_a world_r))).
  exists dirty_status. split; [repeat split|]. vm_compute. reflexivity.
Defined.

(** X8.  When [git status] does not run to the end, [gitPull] returns the
    error with an empty text (what the command wrote is dropped), every
    event of it belongs to [git status], so [git pull] is not run, and the
    pull step logs the failure as an error, not as a skip. *)
Theorem status_failure_is_an_error os repo w :
  (forall out, ~ completes os (git_status_cmd repo) Stdout (history w) out) ->
  exists e,
    (gitPull os repo w).1 = (EmptyString, Some (OfSys e)) /\
    Forall (fun ev => about "status" ev = true) (since w (gitPull os repo w).2) /\
    pull_step os repo w =
    (tt, after (gitPull os repo w).2
           [EvLog ERROR (MsgUpgradeFailed (Directory repo) (OfSys e) EmptyString)]).
Proof.
  intros Hno. destruct (gitPull_status_cases os repo w) as [(out & Hc)|(e & evs & He & Hev)].
  - now destruct (Hno out).
  - exists e. rewrite He. cbn [fst snd]. split; [reflexivity|].
    split; [now rewrite since_after|].
    unfold pull_step. rewrite bind_run, He. reflexivity.
Qed.

Lemma status_failure_is_an_error_witness :
  exists e,
    (gitPull os_status_fails repo_a world_r).1 = (EmptyString, Some (OfSys e)) /\
    Forall (fun ev => about "status" ev = true)
           (since world_r (gitPull os_status_fails repo_a world_r).2) /\
    pull_step os_status_fails repo_a world_r =
    (tt, after (gitPull os_status_fails repo_a world_r).2
           [EvLog ERROR (MsgUpgradeFailed (Directory repo_a) (OfSys e) EmptyString)]).
Proof.
  apply (status_failure_is_an_error os_status_fails repo_a world_r).
  intros out (_ & _ & _ & H). vm_compute in H. discriminate H.
Defined.

(** ** The reconciler and the manifest *)

Lemma keeps_ret {A} (a : A) : keeps_config (mret a).
Proof. intros w. reflexivity. Qed.

Lemma keeps_bind {A B} (m : M A) (f : A -> M B) :
  keeps_config m -> (forall a, keeps_config (f a)) -> keeps_config (m ≫= f).
Proof.
  intros Hm Hf w. rewrite bind_run. now rewrite Hf, Hm.
Qed.

Lemma keeps_record e : keeps_config (record e).
Proof. intros w. reflexivity. Qed.

Lemma keeps_ask {A} (answer : list Event -> A) ev : keeps_config (ask answer ev).
Proof. intros w. reflexivity. Qed.

Lemma keeps_get_config : keeps_config get_config.
Proof. intros w. reflexivity. Qed.

Lemma keeps_for_range {A} (l : list A) body :
  (forall x, keeps_config (body x)) -> keeps_config (for_range l body).
Proof.
  intros Hb. induction l as [|x l IH]; simpl; [apply keeps_ret|].
  apply keeps_bind; auto.
Qed.

Ltac keeps_step :=
  lazymatch goal with
  | |- keeps_config (mbind _ _) => apply keeps_bind; [|intros ?]
  | |- keeps_config (mret _) => apply keeps_ret
  | |- keeps_config (record _) => apply keeps_record
  | |- keeps_config (glog_Info _) => apply keeps_record
  | |- keeps_config (glog_Warning _) => apply keeps_record
  | |- keeps_config (glog_Error _) => apply keeps_record
  | |- keeps_config (ask _ _) => apply keeps_ask
  | |- keeps_config get_config => apply keeps_get_config
  | |- keeps_config (if ?b then _ else _) => destruct b
  | |- keeps_config (match ?x with _ => _ end) => destruct x
  | |- keeps_config (let '(_, _) := ?x in _) => destruct x
  end.

Lemma gitClone_keeps os repo : keeps_config (gitClone os repo).
Proof.
  unfold gitClone, os_Stat_, cmd_Pipe_, cmd_Start_, io_ReadAll_, cmd_Wait_.
  repeat keeps_step.
Qed.

Lemma gitFetch_keeps os repo : keeps_config (gitFetch os repo).
Proof.
  unfold gitFetch, cmd_Pipe_, cmd_Start_, io_ReadAll_, cmd_Wait_. repeat keeps_step.
Qed.

Lemma gitPull_keeps os repo : keeps_config (gitPull os repo).
Proof.
  unfold gitPull, cmd_Pipe_, cmd_Start_, io_ReadAll_, cmd_Wait_. repeat keeps_step.
Qed.

Lemma upgrade_repo_keeps os repo : keeps_config (upgrade_repo os repo).
Proof.
  assert (Hp : keeps_config (pull_step os repo)).
  { unfold pull_step. apply keeps_bind; [apply gitPull_keeps|].
    intros [s e]. repeat keeps_step. }
  assert (Hf : keeps_config (fetch_step os repo)).
  { unfold fetch_step. apply keeps_bind; [apply gitFetch_keeps|].
    intros [s [e|]]; [repeat keeps_step|].
    apply keeps_bind; [apply keeps_record | intros _; exact Hp]. }
  unfold upgrade_repo. apply keeps_bind; [apply gitClone_keeps|].
  intros [s [e|]]; [destruct (is_SkipDir e); [exact Hf | apply keeps_record]|].
  apply keeps_bind; [apply keeps_record | intros _; exact Hf].
Qed.

Lemma upgrade_keeps os : keeps_config (upgrade os).
Proof.
  unfold upgrade.
  apply keeps_bind; [apply keeps_record|]. intros _.
  apply keeps_bind; [apply keeps_get_config|]. intros c.
  apply keeps_bind; [apply keeps_for_range, upgrade_repo_keeps|]. intros _.
  apply keeps_bind; [apply keeps_record | intros _; apply keeps_ret].
Qed.

(** X9.  [upgrade] leaves the manifest in memory and the flags as they
    were, whatever happens to the repositories, and all it does belongs to
    the reconciliation: it does not read or write the manifest file and
    does not walk the tree. *)
Theorem upgrade_leaves_manifest os w :
  config (upgrade os w).2 = config w /\
  flags (upgrade os w).2 = flags w /\
  Forall (fun e => stage_of e = Reconcile /\ is_write e = false)
         (since w (upgrade os w).2).
Proof.
  split; [|split].
  - apply upgrade_keeps.
  - apply (upgrade_emits os w).
  - eapply Forall_impl; [apply (grows_since_Forall _ _ _ (upgrade_emits os w))|].
    intros e He. split; [exact He|]. unfold in_stage in He. now destruct e.
Qed.

(** ** One verdict for each repository *)

Lemma gitClone_silent os repo : emits (fun e => is_log e = false) (gitClone os repo).
Proof.
  unfold gitClone, os_Stat_, cmd_Pipe_, cmd_Start_, io_ReadAll_, cmd_Wait_.
  emits_auto; reflexivity.
Qed.

Lemma gitFetch_silent os repo : emits (fun e => is_log e = false) (gitFetch os repo).
Proof.
  unfold gitFetch, cmd_Pipe_, cmd_Start_, io_ReadAll_, cmd_Wait_. emits_auto; reflexivity.
Qed.

Lemma gitPull_silent os repo : emits (fun e => is_log e = false) (gitPull os repo).
Proof.
  unfold gitPull, cmd_Pipe_, cmd_Start_, io_ReadAll_, cmd_Wait_. emits_auto; reflexivity.
Qed.

Lemma silent_no_verdict new :
  Forall (fun e => is_log e = false) new -> Forall (fun e => verdict_dir e = None) new.
Proof.
  intros H. eapply Forall_impl; [exact H|]. intros e He. now destruct e.
Qed.

Lemma one_verdict_after repo pre new :
  Forall (fun e => verdict_dir e = None) pre -> one_verdict repo new ->
  one_verdict repo (pre ++ new).
Proof.
  intros Hpre (body & v & -> & Hv & Hb). exists (pre ++ body), v.
  split; [now rewrite app_assoc|]. split; [exact Hv|]. now apply Forall_app.
Qed.

(** After a silent step that leaves [w1], a last log line closes the
    work. *)
Lemma one_verdict_close repo w w1 v :
  grows (fun e => is_log e = false) w w1 -> verdict_dir v = Some (Directory repo) ->
  one_verdict repo (since w (after w1 [v])).
Proof.
  intros Hg Hv. rewrite (since_trans _ _ _ _ _ Hg (grows_after_any w1 [v])), since_after.
  exists (since w w1), v. split; [reflexivity|]. split; [exact Hv|].
  apply silent_no_verdict, (grows_since_Forall _ _ _ Hg).
Qed.

Lemma pull_step_verdict os repo w : one_verdict repo (since w (pull_step os repo w).2).
Proof.
  unfold pull_step. rewrite bind_run.
  pose proof (gitPull_silent os repo w) as Hg.
  destruct (gitPull os repo w) as [[s [e|]] w1]; cbn [fst snd] in *;
    [destruct (is_SkipDir e)|]; now apply one_verdict_close.
Qed.

Lemma fetch_step_verdict os repo w : one_verdict repo (since w (fetch_step os repo w).2).
Proof.
  unfold fetch_step. rewrite bind_run.
  pose proof (gitFetch_silent os repo w) as Hg.
  destruct (gitFetch os repo w) as [[s [e|]] w1]; cbn [fst snd] in *.
  - now apply one_verdict_close.
  - rewrite bind_run.
    change (glog_Info (MsgFetchFinished (Directory repo)) w1).2
      with (after w1 [EvLog INFO (MsgFetchFinished (Directory repo))]).
    cbn [fst].
    set (w2 := after w1 _).
    assert (H12 : grows (fun _ => True) w w2).
    { eapply grows_trans; [eapply grows_weaken; [|exact Hg]; auto | apply grows_after_any]. }
    rewrite (since_trans _ _ _ _ _ H12 (pull_step_emits os repo w2)).
    apply one_verdict_after; [|apply pull_step_verdict].
    unfold w2.
    rewrite (since_trans _ _ _ _ _ Hg (grows_after_any w1 _)), since_after.
    apply Forall_app. split; [|repeat constructor].
    apply silent_no_verdict, (grows_since_Forall _ _ _ Hg).
Qed.

Lemma upgrade_repo_verdict os repo w :
  one_verdict repo (since w (upgrade_repo os repo w).2).
Proof.
  unfold upgrade_repo. rewrite bind_run.
  pose proof (gitClone_silent os repo w) as Hg.
  destruct (gitClone os repo w) as [[s [e|]] w1]; cbn [fst snd] in *.
  - destruct (is_SkipDir e).
    + rewrite (since_trans _ _ _ _ _ Hg (fetch_step_emits os repo w1)).
      apply one_verdict_after; [|apply fetch_step_verdict].
      apply silent_no_verdict, (grows_since_Forall _ _ _ Hg).
    + now apply one_verdict_close.
  - rewrite bind_run.
    change (glog_Info (MsgCloneFinished (Directory repo)) w1).2
      with (after w1 [EvLog INFO (MsgCloneFinished (Directory repo))]).
    cbn [fst].
    set (w2 := after w1 _).
    assert (H12 : grows (fun _ => True) w w2).
    { eapply grows_trans; [eapply grows_weaken; [|exact Hg]; auto | apply grows_after_any]. }
    rewrite (since_trans _ _ _ _ _ H12 (fetch_step_emits os repo w2)).
    apply one_verdict_after; [|apply fetch_step_verdict].
    unfold w2.
    rewrite (since_trans _ _ _ _ _ Hg (grows_after_any w1 _)), since_after.
    apply Forall_app. split; [|repeat constructor].
    apply silent_no_verdict, (grows_since_Forall _ _ _ Hg).
Qed.

(** X10.  The work on a repository always ends with one log line that
    names its directory and tells the outcome (clone failed, fetch failed,
    upgrade failed, upgrade skipped or upgrade finished), and no other
    event of the loop body is such a line. *)
Theorem every_repository_gets_a_verdict os repo w :
  one_verdict repo (since w (upgrade_repo os repo w).2) /\
  exists v, last (since w (upgrade_repo os repo w).2) = Some v /\
            verdict_dir v = Some (Directory repo).
Proof.
  pose proof (upgrade_repo_verdict os repo w) as H. split; [exact H|].
  destruct H as (body & v & -> & Hv & _). exists v. split; [apply last_snoc|exact Hv].
Qed.

Lemma omap_no_verdict new :
  Forall (fun e => verdict_dir e = None) new -> omap verdict_dir new = [].
Proof.
  induction 1 as [|e l He _ IH]; [reflexivity|]. cbn. now rewrite He.
Qed.

Lemma for_range_verdicts os l w :
  omap verdict_dir (since w (for_range l (upgrade_repo os) w).2) = map Directory l.
Proof.
  revert w. induction l as [|repo l IH]; intros w.
  - cbn. unfold since. now rewrite drop_all.
  - cbn [for_range]. rewrite bind_run.
    assert (Hr : grows (in_stage Reconcile) (upgrade_repo os repo w).2
                   (for_range l (upgrade_repo os) (upgrade_repo os repo w).2).2)
      by apply emits_for_range, upgrade_repo_emits.
    rewrite (since_trans _ _ _ _ _ (upgrade_repo_emits os repo w) Hr).
    rewrite omap_app, IH.
    destruct (upgrade_repo_verdict os repo w) as (body & v & -> & Hv & Hb).
    rewrite omap_app, (omap_no_verdict _ Hb). cbn. now rewrite Hv.
Qed.

(** What [upgrade] does: its first line, the loop, its last line. *)
Lemma upgrade_trace os w :
  let w0 := after w [EvLog INFO MsgUpgrading] in
  since w (upgrade os w).2 =
  EvLog INFO MsgUpgrading ::
    since w0 (for_range (Repos (config w)) (upgrade_repo os) w0).2 ++
    [EvLog INFO MsgUpgraded].
Proof.
  intros w0. unfold upgrade. rewrite !bind_run. cbn [fst snd get_config].
  change (glog_Info MsgUpgrading w).2 with w0.
  change (config w0) with (config w).
  set (w1 := (for_range (Repos (config w)) (upgrade_repo os) w0).2).
  assert (G0 : grows (in_stage Reconcile) w w0) by (apply emits_record; reflexivity).
  assert (G1 : grows (in_stage Reconcile) w0 w1)
    by apply emits_for_range, upgrade_repo_emits.
  change (since w (after w1 [EvLog INFO MsgUpgraded]) =
          EvLog INFO MsgUpgrading :: since w0 w1 ++ [EvLog INFO MsgUpgraded]).
  assert (G2 : grows (fun _ => True) w0 (after w1 [EvLog INFO MsgUpgraded])).
  { eapply grows_trans; [eapply grows_weaken; [|exact G1]; auto|apply grows_after_any]. }
  rewrite (since_trans _ _ _ _ _ G0 G2).
  rewrite (since_trans _ _ _ _ _ G1 (grows_after_any w1 _)), since_after.
  unfold w0. now rewrite since_after.
Qed.

Lemma upgrade_verdicts os w :
  omap verdict_dir (since w (upgrade os w).2) = map Directory (Repos (config w)).
Proof.
  rewrite upgrade_trace. cbn [omap list_omap verdict_dir]. rewrite omap_app.
  rewrite for_range_verdicts. cbn. now rewrite app_nil_r.
Qed.

(** X11.  [upgrade] logs its first line, then works on the repositories
    of the manifest, then logs its last line.  Reading the verdicts off
    its log gives the directories of the manifest, each once and in the
    order of the manifest. *)
Theorem upgrade_accounts_for_the_manifest os w :
  exists mid,
    since w (upgrade os w).2 =
    EvLog INFO MsgUpgrading :: mid ++ [EvLog INFO MsgUpgraded] /\
    omap verdict_dir mid = map Directory (Repos (config w)) /\
    omap verdict_dir (since w (upgrade os w).2) = map Directory (Repos (config w)).
Proof.
  pose proof (upgrade_trace os w) as E. cbv zeta in E.
  set (w0 := after w [EvLog INFO MsgUpgrading]) in *.
  exists (since w0 (for_range (Repos (config w)) (upgrade_repo os) w0).2).
  split; [exact E|]. split; [apply for_range_verdicts|apply upgrade_verdicts].
Qed.

(** ** Only the repositories of the manifest are touched *)

Lemma upgrade_repo_concerns os repo : emits (concerns repo) (upgrade_repo os repo).
Proof.
  unfold upgrade_repo, fetch_step, pull_step, gitClone, gitFetch, gitPull,
    os_Stat_, cmd_Pipe_, cmd_Start_, io_ReadAll_, cmd_Wait_.
  emits_auto; simpl; auto.
Qed.

Lemma emits_for_range_In {A} (P : Event -> Prop) (l : list A) body :
  (forall x, In x l -> emits P (body x)) -> emits P (for_range l body).
Proof.
  induction l as [|x l IH]; intros Hb; simpl; [apply emits_ret|].
  apply emits_bind; [apply Hb; now left|]. intros _. apply IH.
  intros y Hy. apply Hb. now right.
Qed.

(** X12.  Between its first and its last log line, [upgrade] does nothing
    but work on repositories of the manifest: each event is the [os.Stat]
    of the metadata directory of one of them, belongs to [git clone] of
    its remote into its directory or to [git fetch], [git status] or
    [git pull] run in its directory, or is a log line that names its
    directory. *)
Theorem upgrade_touches_only_the_manifest os w :
  Forall (fun e => e = EvLog INFO MsgUpgrading \/ e = EvLog INFO MsgUpgraded \/
                   exists repo, In repo (Repos (config w)) /\ concerns repo e)
         (since w (upgrade os w).2).
Proof.
  rewrite upgrade_trace. constructor; [now left|].
  apply Forall_app. split; [|constructor; [right; now left|constructor]].
  eapply Forall_impl; [|intros e He; right; right; exact He].
  apply (grows_since_Forall (fun e => exists repo, In repo (Repos (config w)) /\
                                                  concerns repo e)).
  apply (emits_for_range_In _ (Repos (config w))). intros repo Hin.
  eapply emits_weaken; [|apply upgrade_repo_concerns]. intros e He. eauto.
Qed.

(** ** The log of the discovery *)

Lemma since_self w : since w w = [].
Proof. unfold since. apply drop_all. Qed.

Lemma after_record e w l : after (record e w).2 l = after w (e :: l).
Proof. unfold after, record. cbn. now rewrite <- app_assoc. Qed.

Lemma log_seq w r1 w1 r2 w2 :
  discovery_log w r1 w1 ->
  (forall e, r1 = Some e -> is_SkipDir e = true) ->
  discovery_log w1 r2 w2 ->
  discovery_log w r2 w2.
Proof.
  intros (G1 & (D1 & C1 & M1) & F1 & _) Hcont (G2 & (D2 & C2 & M2) & F2 & E2).
  split; [eapply grows_trans; eauto|].
  rewrite (since_trans _ _ _ _ _ G1 G2).
  split; [|split].
  - exists (D1 ++ D2). split; [now rewrite C2, C1, app_assoc|].
    rewrite List.filter_app. now apply Forall2_app.
  - intros e x Hin Hf. apply in_app_iff in Hin as [Hin|Hin].
    + destruct (F1 e x Hin Hf) as [-> _]. discriminate (Hcont _ eq_refl).
    + destruct (F2 e x Hin Hf) as [-> [before Hb]]. split; [reflexivity|].
      exists (since w w1 ++ before). now rewrite Hb, app_assoc.
  - intros err Hr Hs. destruct (E2 err Hr Hs) as (e & Hin & Hf).
    exists e. split; [|exact Hf]. apply in_app_iff. now right.
Qed.

Lemma log_nothing w r :
  (forall e, r = Some e -> is_SkipDir e = true) -> discovery_log w r w.
Proof.
  intros Hr. split; [apply grows_refl|]. rewrite since_self. split; [|split].
  - exists []. split; [now rewrite app_nil_r|constructor].
  - intros e x [].
  - intros err -> Hs. rewrite (Hr _ eq_refl) in Hs. discriminate.
Qed.

Lemma log_event e w :
  in_stage Discover e -> failed e = false -> origin_url e = false ->
  discovery_log w None (record e w).2.
Proof.
  intros Hs Hf Hu. split; [now apply emits_record|].
  rewrite (since_app w _ [e]) by reflexivity. split; [|split].
  - exists []. split; [now rewrite app_nil_r|]. cbn. rewrite Hu. constructor.
  - intros e' x [<-|[]] Hx. destruct e as [| | | | | |p [y|]|p [y|]| | |]; discriminate.
  - discriminate.
Qed.

Lemma log_after_event e w r w' :
  in_stage Discover e -> failed e = false -> origin_url e = false ->
  discovery_log (record e w).2 r w' -> discovery_log w r w'.
Proof.
  intros Hs Hf Hu H. eapply (log_seq _ None); [|discriminate|exact H].
  now apply log_event.
Qed.

(** A failure of the file system, and the line [update_visit] logs for
    it. *)
Lemma log_failure ev x w :
  in_stage Discover ev -> fs_failure ev = Some x ->
  discovery_log w (Some (OfSys x)) (after w [ev; EvLog ERROR (MsgWalkError (OfSys x))]).
Proof.
  intros Hs Hx.
  assert (Hu : origin_url ev = false) by (destruct ev; try discriminate; reflexivity).
  assert (Hf : failed ev = true)
    by (destruct ev as [| | | | | |p [y|]|p [y|]| | |]; try discriminate; reflexivity).
  split; [apply grows_after; repeat constructor; exact Hs|].
  rewrite since_after. split; [|split].
  - exists []. split; [cbn; now rewrite app_nil_r|]. cbn. rewrite Hu. constructor.
  - intros e y [<-|[<-|[]]] Hy; [|discriminate].
    rewrite Hx in Hy. injection Hy as <-. split; [reflexivity|]. now exists [].
  - intros err _ _. exists ev. split; [now left|exact Hf].
Qed.

Section WalkLog.
Context (os : OS).

Lemma remoteDir_run path w :
  remoteDir os path w =
  (origin_result path (git_origin os (history w) (Join path "config")),
   after w [EvOrigin (Join path "config") (git_origin os (history w) (Join path "config"))]).
Proof. reflexivity. Qed.

Lemma update_visit_error path info err w :
  update_visit os path info (Some err) w = (Some err, after w [EvLog ERROR (MsgWalkError err)]).
Proof. reflexivity. Qed.

(** The two nil checks of [remoteDir] never fire. *)
Lemma lookup_origin_answered r : lookup_origin r <> NoSection /\ lookup_origin r <> NoKey.
Proof. destruct r; split; discriminate. Qed.

Lemma update_visit_log path info w :
  discovery_log w (update_visit os path info None w).1 (update_visit os path info None w).2.
Proof.
  unfold update_visit.
  destruct info as [info|]; [|apply log_nothing; discriminate].
  destruct (negb (IsDir info) || negb (Name info =? ".git")%string);
    [apply log_nothing; discriminate|].
  rewrite bind_run, remoteDir_run. cbn [fst snd].
  set (p := Join path "config").
  destruct (lookup_origin_answered (git_config os (history w) p)) as [HnS HnK].
  fold (git_origin os (history w) p) in HnS, HnK.
  destruct (git_origin os (history w) p) as [e|e| | |v]; [| |congruence|congruence|];
    cbn [origin_result fst snd].
  all: try (rewrite !bind_run;
            cbn [fst snd get_config set_config config flags history mret M_ret after]).
  all: (split; [split; [reflexivity|]; eexists [_]; split; [reflexivity|];
                repeat constructor|]).
  all: erewrite (since_app w _ [EvOrigin p _]) by reflexivity.
  1-2: (split; [exists []; split; [cbn; now rewrite app_nil_r|constructor]|]).
  1-2: (split; [intros e' x [<-|[]]; discriminate|]).
  1-2: (intros err _ _; eexists; split; [now left|reflexivity]).
  split; [|split].
  - eexists [_]. split; [reflexivity|]. cbn. constructor; [|constructor].
    exists path. split; reflexivity.
  - intros e' x [<-|[]]; discriminate.
  - intros err [= <-]. discriminate.
Qed.

Lemma walk_entries_log path entries :
  Forall (walk_log_at os) entries ->
  forall w,
    discovery_log w
      (walk_entries (walk (update_visit os)) (update_visit os) path entries w).1
      (walk_entries (walk (update_visit os)) (update_visit os) path entries w).2.
Proof.
  induction 1 as [|child entries Hc _ IH]; intros w; [apply log_nothing; discriminate|].
  cbn [walk_entries].
  destruct child as [n e|n|n rd sub].
  - rewrite bind_run. cbn [fst]. rewrite bind_run, update_visit_error.
    cbn [fst snd mret M_ret is_SkipDir]. rewrite after_record.
    apply (log_failure (EvLstat (Join path (tree_name (NoEntry n e))) (Some e)) e w);
      reflexivity.
  - rewrite bind_run. apply (log_after_event (EvLstat (Join path (tree_name (File n))) None));
      [reflexivity..|].
    cbn [fst]. set (w1 := (record _ w).2). rewrite bind_run.
    pose proof (Hc (Join path (tree_name (File n))) w1) as Hv.
    destruct (walk (update_visit os) _ (File n) w1) as [[err|] w2]; cbn [fst snd] in *.
    + cbn [tree_is_dir negb orb]. exact Hv.
    + eapply log_seq; [exact Hv | discriminate | apply IH].
  - rewrite bind_run.
    apply (log_after_event (EvLstat (Join path (tree_name (Folder n rd sub))) None));
      [reflexivity..|].
    cbn [fst]. set (w1 := (record _ w).2). rewrite bind_run.
    pose proof (Hc (Join path (tree_name (Folder n rd sub))) w1) as Hv.
    destruct (walk (update_visit os) _ (Folder n rd sub) w1) as [[err|] w2];
      cbn [fst snd] in *.
    + cbn [tree_is_dir negb orb]. destruct (is_SkipDir err) eqn:Es; cbn [negb]; [|exact Hv].
      eapply log_seq; [exact Hv | now intros ? [= <-] | apply IH].
    + eapply log_seq; [exact Hv | discriminate | apply IH].
Qed.

Lemma walk_log t : walk_log_at os t.
Proof.
  induction t as [n e|n|n rd entries IH] using FileTree_induction;
    [exact I| |]; intros path w.
  - apply update_visit_log.
  - cbn [walk]. rewrite bind_run. cbn [fst]. destruct rd as [x|].
    + rewrite bind_run. cbn [fmap option_fmap option_map].
      rewrite update_visit_error. cbn [fst snd]. rewrite after_record.
      apply (log_failure (EvReadDir path (Some x)) x w); reflexivity.
    + apply (log_after_event (EvReadDir path None)); [reflexivity..|].
      set (w1 := (record _ w).2). rewrite bind_run. cbn [fmap option_fmap option_map].
      pose proof (update_visit_log path (Some (info_of (Folder n None entries))) w1) as Hv.
      destruct (update_visit os path _ None w1) as [err1 w2]; cbn [fst snd] in *.
      destruct (bool_decide (is_Some (@None syserror)) || bool_decide (is_Some err1))
        eqn:Eb; [exact Hv|].
      apply orb_false_iff in Eb as [_ Eb]. apply bool_decide_eq_false in Eb.
      eapply log_seq; [exact Hv | | apply walk_entries_log, IH].
      intros e ->. exfalso. apply Eb. eauto.
Qed.

(** The result of [filepath.Walk]: [SkipDir] from the root is no error. *)
Lemma Walk_log root w :
  discovery_log w (Walk os root (update_visit os) w).1 (Walk os root (update_visit os) w).2 /\
  (Walk os root (update_visit os) w).1 <> Some SkipDir.
Proof.
  unfold Walk. rewrite bind_run. cbn [fst snd]. rewrite bind_run.
  set (m := match fs_tree os (history w) root with
            | NoEntry _ e => _ | _ => _ end).
  assert (H : discovery_log w (m w).1 (m w).2).
  { unfold m. pose proof (walk_log (fs_tree os (history w) root)) as Ht.
    destruct (fs_tree os (history w) root) as [n e|n|n rd sub].
    - rewrite bind_run, update_visit_error. cbn [fst snd]. rewrite after_record. apply (log_failure (EvLstat root (Some e)) e w); reflexivity.
    - rewrite bind_run. apply (log_after_event (EvLstat root None)); [reflexivity..|].
      apply Ht.
    - rewrite bind_run. apply (log_after_event (EvLstat root None)); [reflexivity..|].
      apply Ht. }
  destruct (m w) as [[err|] w1]; cbn [fst snd] in *; [|split; [exact H|discriminate]].
  destruct (is_SkipDir err) eqn:Es; cbn [mret M_ret fst snd].
  - split; [|discriminate]. destruct H as (G & C & F & E). split; [exact G|].
    split; [exact C|]. split.
    + intros e x Hin Hx. destruct (F e x Hin Hx) as [[= ->] _]. discriminate.
    + discriminate.
  - split; [exact H|]. intros [= ->]. discriminate.
Qed.

End WalkLog.

(** ** [update] as a whole *)

Section UpdateLog.
Context (os : OS).

(** [update], unfolded: the first line, the walk, the merge if the walk
    gave no error, the deferred line. *)
Lemma update_run w :
  let W := Walk os (RootDir (flags w)) (update_visit os) (after w [EvLog INFO MsgUpdating]) in
  update os w =
  match W.1 with
  | Some err =>
      (Some err, after W.2 [EvLog INFO (MsgUpdated (length (Repos (config W.2))))])
  | None =>
      let merged := merge_repos (range_seed os) (Repos (config W.2)) in
      (None, {| config := {| Repos := merged |}; flags := flags W.2;
                history := history W.2 ++ [EvLog INFO (MsgUpdated (length merged))] |})
  end.
Proof.
  intros W. unfold update. rewrite !bind_run. cbn [fst snd get_flags].
  change (glog_Info MsgUpdating w).2 with (after w [EvLog INFO MsgUpdating]).
  change (flags (after w [EvLog INFO MsgUpdating])) with (flags w). fold W.
  destruct W as [[err|] w1]; reflexivity.
Qed.

(** The events of [update]: the first line, those of the walk, the
    deferred line with the size of the manifest at the end. *)
Lemma update_trace w :
  let w0 := after w [EvLog INFO MsgUpdating] in
  let W := Walk os (RootDir (flags w)) (update_visit os) w0 in
  since w (update os w).2 =
  EvLog INFO MsgUpdating :: since w0 W.2 ++
    [EvLog INFO (MsgUpdated (length (Repos (config (update os w).2))))].
Proof.
  intros w0 W. pose proof (update_run w) as E. cbv zeta in E. fold w0 in E. fold W in E.
  destruct (Walk_log os (RootDir (flags w)) w0) as [(G & _) _]. fold W in G.
  assert (G0 : grows (fun _ => True) w w0) by apply grows_after_any.
  assert (S0 : since w w0 = [EvLog INFO MsgUpdating]) by apply since_after.
  rewrite E. destruct (W.1).
  - cbn [snd]. change (config (after W.2 _)) with (config W.2).
    assert (G2 : grows (fun _ => True) w0
                   (after W.2 [EvLog INFO (MsgUpdated (length (Repos (config W.2))))])).
    { eapply grows_trans; [eapply grows_any; exact G|apply grows_after_any]. }
    rewrite (since_trans _ _ _ _ _ G0 G2).
    rewrite (since_trans _ _ _ _ _ G (grows_after_any W.2 _)), since_after, S0. reflexivity.
  - cbn [snd config Repos].
    set (merged := merge_repos (range_seed os) (Repos (config W.2))).
    set (w2 := {| config := {| Repos := merged |}; flags := flags W.2;
                  history := history W.2 ++ [EvLog INFO (MsgUpdated (length merged))] |}).
    assert (G1 : grows (fun _ => True) W.2 w2).
    { split; [reflexivity|]. eexists. split; [reflexivity|]. repeat constructor. }
    assert (G2 : grows (fun _ => True) w0 w2).
    { eapply grows_trans; [eapply grows_any; exact G|exact G1]. }
    rewrite (since_trans _ _ _ _ _ G0 G2), (since_trans _ _ _ _ _ G G1).
    rewrite S0.
    now rewrite (since_app W.2 w2 [EvLog INFO (MsgUpdated (length merged))]) by reflexivity.
Qed.

End UpdateLog.

Lemma update_config os w :
  let W := Walk os (RootDir (flags w)) (update_visit os) (after w [EvLog INFO MsgUpdating]) in
  Repos (config (update os w).2) =
  match (update os w).1 with
  | None => merge_repos (range_seed os) (Repos (config W.2))
  | Some _ => Repos (config W.2)
  end /\
  (update os w).1 = W.1.
Proof.
  intros W. pose proof (update_run os w) as E. cbv zeta in E. fold W in E.
  rewrite E. destruct (W.1); split; reflexivity.
Qed.

(** X13.  When [update] cannot examine an entry or read a directory, it
    stops there: the error line for it and the deferred line are all that
    follows, the error is what [update] returns, and the manifest in
    memory is the old one with what was found so far appended, not
    merged. *)
Theorem file_system_error_aborts os w e x :
  In e (since w (update os w).2) -> fs_failure e = Some x ->
  (update os w).1 = Some (OfSys x) /\
  (exists before n,
      since w (update os w).2 =
      before ++ [e; EvLog ERROR (MsgWalkError (OfSys x)); EvLog INFO (MsgUpdated n)]) /\
  exists D, Repos (config (update os w).2) = Repos (config w) ++ D.
Proof.
  intros Hin Hx.
  pose proof (update_trace os w) as T. cbv zeta in T.
  destruct (update_config os w) as [C R]. cbv zeta in C, R.
  set (w0 := after w [EvLog INFO MsgUpdating]) in *.
  destruct (Walk_log os (RootDir (flags w)) w0) as [(_ & (D & HD & _) & F & _) _].
  set (W := Walk os (RootDir (flags w)) (update_visit os) w0) in *.
  rewrite T in Hin. destruct Hin as [<-|Hin]; [discriminate|].
  apply in_app_iff in Hin as [Hin|[<-|[]]]; [|discriminate].
  destruct (F e x Hin Hx) as [Hr [before Hb]].
  rewrite R, Hr. split; [reflexivity|]. split.
  - exists (EvLog INFO MsgUpdating :: before), (length (Repos (config (update os w).2))).
    rewrite T, Hb. cbn [app]. now rewrite <- app_assoc.
  - exists D. rewrite C, R, Hr. exact HD.
Qed.

Lemma file_system_error_aborts_witness :
  let e := EvLstat "/r/a" (Some (EFAIL "input/output error")) in
  (update os_broken_tree world_r).1 = Some (OfSys (EFAIL "input/output error")) /\
  (exists before n,
      since world_r (update os_broken_tree world_r).2 =
      before ++ [e; EvLog ERROR (MsgWalkError (OfSys (EFAIL "input/output error")));
                 EvLog INFO (MsgUpdated n)]) /\
  exists D, Repos (config (update os_broken_tree world_r).2) = Repos (config world_r) ++ D.
Proof.
  intros e. apply (file_system_error_aborts os_broken_tree world_r e).
  - vm_compute. right. right. right. left. reflexivity.
  - reflexivity.
Defined.

Lemma failed_cases e :
  failed e = true ->
  (exists x, fs_failure e = Some x) \/
  (exists p o, e = EvOrigin p o /\ lookup_failed o = true).
Proof.
  destruct e as [| | | | | |p [y|]|p [y|]|p [y|y| | |v]| |]; try discriminate;
    intros H; eauto.
Qed.

(** ** The lookups that can happen *)

Lemma emits_ask_answer {A} (P : Event -> Prop) (answer : list Event -> A) ev :
  (forall h, P (ev (answer h))) -> emits P (ask answer ev).
Proof. intros He w. split; [reflexivity|]. eexists [_]. simpl. auto. Qed.

Lemma update_visit_answered os path info err :
  emits (fun e => answered e = true) (update_visit os path info err).
Proof.
  unfold update_visit. destruct err as [err|]; [emits_auto; reflexivity|].
  destruct info as [info|]; [|apply emits_ret].
  destruct (negb (IsDir info) || negb (Name info =? ".git")%string); [apply emits_ret|].
  apply emits_bind.
  - unfold remoteDir. apply emits_bind; [|intros r; apply emits_ret].
    apply emits_ask_answer. intros h.
    destruct (lookup_origin_answered (git_config os h (Join path "config"))) as [HnS HnK].
    fold (git_origin os h (Join path "config")) in HnS, HnK. cbn.
    now destruct (git_origin os h (Join path "config")).
  - intros [remote [e|]]; emits_auto.
Qed.

Section WalkEmits.

Context (P : Event -> Prop) (walkFn : WalkFunc).
Hypothesis P_lstat : forall p r, P (EvLstat p r).
Hypothesis P_readdir : forall p r, P (EvReadDir p r).
Hypothesis P_walkFn : forall path info err, emits P (walkFn path info err).

Lemma walk_entries_emits path entries :
  Forall (fun t => forall p, emits P (walk walkFn p t)) entries ->
  emits P (walk_entries (walk walkFn) walkFn path entries).
Proof.
  induction 1 as [|child entries Hc _ IH]; [apply emits_ret|].
  cbn [walk_entries]. destruct child as [n e|n|n rd sub].
  - apply emits_bind; [apply emits_record, P_lstat|]. intros _.
    apply emits_bind; [apply P_walkFn|].
    intros [err|]; [destruct (is_SkipDir err)|]; first [exact IH | apply emits_ret].
  - apply emits_bind; [apply emits_record, P_lstat|]. intros _.
    apply emits_bind; [apply Hc|].
    intros [err|]; [destruct (_ || _)|]; first [exact IH | apply emits_ret].
  - apply emits_bind; [apply emits_record, P_lstat|]. intros _.
    apply emits_bind; [apply Hc|].
    intros [err|]; [destruct (_ || _)|]; first [exact IH | apply emits_ret].
Qed.

Lemma walk_emits t : forall path, emits P (walk walkFn path t).
Proof.
  induction t as [n e|n|n rd entries IH] using FileTree_induction; intros path;
    [apply P_walkFn..|].
  cbn [walk]. apply emits_bind; [apply emits_record, P_readdir|]. intros _.
  apply emits_bind; [apply P_walkFn|]. intros err1.
  destruct (_ || _); [apply emits_ret|]. now apply walk_entries_emits.
Qed.

Lemma Walk_emits_all os root : emits P (Walk os root walkFn).
Proof.
  unfold Walk. apply emits_bind; [intros w; apply grows_refl|]. intros t.
  apply emits_bind.
  - destruct t; (apply emits_bind; [apply emits_record, P_lstat|]); intros _;
      first [apply P_walkFn | apply walk_emits].
  - intros [err|]; [destruct (is_SkipDir err)|]; apply emits_ret.
Qed.

End WalkEmits.

Lemma update_answered os : emits (fun e => answered e = true) (update os).
Proof.
  unfold update, update_deferred.
  apply emits_bind; [apply emits_record; reflexivity|]. intros _.
  apply emits_bind; [apply emits_get_flags|]. intros f.
  apply emits_bind.
  - apply Walk_emits_all; [reflexivity.. | apply update_visit_answered].
  - intros [err|]; emits_auto; reflexivity.
Qed.

(** X14.  [update] returns nil exactly when nothing failed: no entry that
    could not be examined, no directory that could not be read, no
    configuration of a repository that could not be opened or loaded.  A
    configuration that loads never makes it fail, whether or not it has
    the url of a remote named origin: no lookup ends at one of the two nil
    checks of [remoteDir].  [update] never returns [SkipDir]. *)
Theorem update_succeeds_iff_nothing_failed os w :
  ((update os w).1 = None <->
   Forall (fun e => failed e = false) (since w (update os w).2)) /\
  (update os w).1 <> Some SkipDir /\
  Forall (fun e => answered e = true) (since w (update os w).2).
Proof.
  pose proof (update_trace os w) as T. cbv zeta in T.
  destruct (update_config os w) as [_ R]. cbv zeta in R.
  pose proof (grows_since_Forall _ _ _ (update_answered os w)) as HA.
  set (w0 := after w [EvLog INFO MsgUpdating]) in *.
  destruct (Walk_log os (RootDir (flags w)) w0) as [(_ & _ & F & E) NS].
  destruct (Walk_ok os (RootDir (flags w)) w0) as (_ & _ & O).
  set (W := Walk os (RootDir (flags w)) (update_visit os) w0) in *.
  rewrite R. split; [|split; [exact NS | exact HA]]. rewrite T. split.
  - intros HN. constructor; [reflexivity|]. apply Forall_app. split; [|repeat constructor].
    apply Forall_forall. intros e Hin. apply list_elem_of_In in Hin.
    destruct (failed e) eqn:Hf; [exfalso|reflexivity].
    apply failed_cases in Hf as [[x Hx]|(p & o & -> & Ho)].
    + destruct (F e x Hin Hx) as [Hr _]. congruence.
    + destruct (O p o Hin Ho) as (? & ? & _ & _ & Hr & _). congruence.
  - intros HF. destruct (W.1) as [err|] eqn:EW; [exfalso|reflexivity].
    assert (Hs : is_SkipDir err = false) by (destruct err; [now elim NS|reflexivity..]).
    destruct (E err eq_refl Hs) as (e & Hin & Hf).
    inversion_clear HF as [|? ? _ HF']. apply Forall_app in HF' as [HF' _].
    rewrite Forall_forall in HF'. apply list_elem_of_In, HF' in Hin. congruence.
Qed.

Lemma update_succeeds_iff_nothing_failed_witness :
  (update os_no_origin world_r).1 = None.
Proof.
  apply (proj2 (proj1 (update_succeeds_iff_nothing_failed os_no_origin world_r))).
  vm_compute. repeat constructor.
Defined.



(** ** Paths *)

Lemma split_slash_nonempty s : split_slash s <> [].
Proof.
  destruct s as [|c s]; [discriminate|]. cbn.
  destruct (is_slash c); [discriminate|]. now destruct (split_slash s).
Qed.

Lemma split_slash_app a b :
  split_slash (a +:+ String "/" b) = split_slash a ++ split_slash b.
Proof.
  induction a as [|c a IH]; [reflexivity|].
  change (String c a +:+ String "/" b) with (String c (a +:+ String "/" b)).
  cbn [split_slash]. rewrite IH. destruct (is_slash c); [reflexivity|].
  pose proof (split_slash_nonempty a) as Ha.
  destruct (split_slash a); [congruence | reflexivity].
Qed.

Lemma lacks_cons c x s :
  lacks c (String x s) = negb (Ascii.eqb x c) && lacks c s.
Proof. reflexivity. Qed.

Lemma split_slash_name e : lacks "/" e = true -> split_slash e = [e].
Proof.
  induction e as [|c e IH]; [reflexivity|]. rewrite lacks_cons.
  intros [Hc He]%andb_true_iff. cbn [split_slash]. unfold is_slash.
  apply negb_true_iff in Hc. rewrite Hc, (IH He). reflexivity.
Qed.

Lemma split_slash_lacks s : Forall (fun e => lacks "/" e = true) (split_slash s).
Proof.
  induction s as [|c s IH]; [repeat constructor|]. cbn [split_slash].
  destruct (is_slash c) eqn:Ec; [constructor; [reflexivity | exact IH]|].
  destruct (split_slash s) as [|e es]; [repeat constructor|].
  - rewrite lacks_cons. unfold is_slash in Ec. now rewrite Ec.
  - inversion_clear IH as [|? ? He Hes]. constructor; [|exact Hes].
    rewrite lacks_cons. unfold is_slash in Ec. now rewrite Ec, He.
Qed.

Lemma is_name_lacks e : is_name e = true -> lacks "/" e = true.
Proof. unfold is_name. now intros [_ H]%andb_true_iff. Qed.

Lemma is_real_name e : is_real e = true -> is_name e = true.
Proof. unfold is_real. now intros [[H _]%andb_true_iff _]%andb_true_iff. Qed.

Lemma split_join es :
  es <> [] -> Forall (fun e => is_name e = true) es -> split_slash (join_slash es) = es.
Proof.
  intros Hne H. induction H as [|e es He Hes IH]; [congruence|].
  destruct es as [|e' es]; [now apply split_slash_name, is_name_lacks|].
  change (join_slash (e :: e' :: es)) with (e +:+ String "/" (join_slash (e' :: es))).
  rewrite split_slash_app, IH by discriminate.
  now rewrite (split_slash_name e (is_name_lacks e He)).
Qed.

Lemma join_slash_snoc l x :
  join_slash (l ++ [x]) =
  match l with [] => x | _ => join_slash l +:+ String "/" x end.
Proof.
  induction l as [|a l IH]; [reflexivity|].
  destruct l as [|b l]; [reflexivity|].
  change (join_slash ((a :: b :: l) ++ [x]))
    with (a +:+ String "/" (join_slash ((b :: l) ++ [x]))).
  rewrite IH.
  change (join_slash (a :: b :: l)) with (a +:+ String "/" (join_slash (b :: l))).
  rewrite append_assoc. reflexivity.
Qed.

Lemma join_slash_first e es :
  is_name e = true ->
  exists c rest, join_slash (e :: es) = String c rest /\ is_slash c = false.
Proof.
  unfold is_name. intros [Hn Hl]%andb_true_iff.
  destruct e as [|c e]; [discriminate|]. rewrite lacks_cons in Hl.
  apply andb_true_iff in Hl as [Hc _]. apply negb_true_iff in Hc.
  destruct es as [|e' es]; [now exists c, e|].
  exists c, (e +:+ String "/" (join_slash (e' :: es))). split; [reflexivity|exact Hc].
Qed.

Lemma clean_elem_real rooted out e : is_real e = true -> clean_elem rooted out e = e :: out.
Proof.
  unfold is_real, is_name, clean_elem.
  intros [[[H1 _]%andb_true_iff H2]%andb_true_iff H3]%andb_true_iff.
  apply negb_true_iff in H1, H2, H3. now rewrite H1, H2, H3.
Qed.

Lemma clean_elem_cases rooted out e :
  lacks "/" e = true ->
  (e = EmptyString \/ e = ".") /\ clean_elem rooted out e = out \/
  e = ".." \/
  is_real e = true.
Proof.
  intros Hl. unfold clean_elem, is_real, is_name.
  destruct (String.eqb_spec e EmptyString) as [->|H1]; [left; auto|].
  destruct (String.eqb_spec e ".") as [->|H2]; [left; auto|].
  destruct (String.eqb_spec e "..") as [->|H3]; [right; left; reflexivity|].
  right; right. now rewrite Hl.
Qed.

Lemma kept_nil rooted : kept rooted [].
Proof. exists [], []. repeat split; auto. Qed.

Lemma kept_step rooted out e :
  kept rooted out -> lacks "/" e = true -> kept rooted (clean_elem rooted out e).
Proof.
  intros (reals & dds & -> & Hr & Hd & Hroot) Hl.
  destruct (clean_elem_cases rooted (reals ++ dds) e Hl) as [[_ ->]|[->|He]].
  - now exists reals, dds.
  - unfold clean_elem. cbn [String.eqb Ascii.eqb Bool.eqb orb andb].
    change ("" =? "")%string with true. cbn [andb orb].
    destruct reals as [|r reals]; cbn [app].
    + destruct dds as [|d dds].
      * destruct rooted; [apply kept_nil|].
        exists [], [".."]. repeat split; auto. discriminate.
      * inversion Hd as [|? ? Hdd Hds]; subst.
        change (".." =? "..")%string with true. cbv iota.
        destruct rooted; [discriminate (Hroot eq_refl)|].
        exists [], (".." :: ".." :: dds). repeat split; auto. discriminate.
    + inversion_clear Hr as [|? ? Hr1 Hr2].
      assert (Hne : (r =? "..")%string = false).
      { unfold is_real in Hr1. apply andb_true_iff in Hr1 as [_ H].
        now apply negb_true_iff in H. }
      rewrite Hne. now exists reals, dds.
  - rewrite (clean_elem_real _ _ _ He). exists (e :: reals), dds.
    repeat split; auto.
Qed.

Lemma kept_fold rooted l out :
  kept rooted out -> Forall (fun e => lacks "/" e = true) l ->
  kept rooted (fold_left (clean_elem rooted) l out).
Proof.
  intros Hk Hl. revert out Hk. induction Hl as [|e l He _ IH]; intros out Hk; [exact Hk|].
  cbn [fold_left]. apply IH. now apply kept_step.
Qed.

Lemma fold_reals rooted l out :
  Forall (fun e => is_real e = true) l ->
  fold_left (clean_elem rooted) l out = rev l ++ out.
Proof.
  intros Hl. revert out. induction Hl as [|e l He _ IH]; intros out; [reflexivity|].
  cbn [fold_left rev]. rewrite (clean_elem_real _ _ _ He), IH, <- app_assoc. reflexivity.
Qed.

Lemma fold_dotdots l out :
  Forall (fun e => e = "..") l -> Forall (fun e => e = "..") out ->
  fold_left (clean_elem false) l out = rev l ++ out.
Proof.
  intros Hl. revert out. induction Hl as [|e l -> _ IH]; intros out Ho; [reflexivity|].
  cbn [fold_left rev].
  assert (E : clean_elem false out ".." = ".." :: out).
  { destruct Ho as [|d out -> _]; reflexivity. }
  rewrite E, IH, <- app_assoc by (now constructor). reflexivity.
Qed.

(** What [Clean] kept goes through [Clean] unchanged. *)
Lemma fold_kept rooted out :
  kept rooted out -> fold_left (clean_elem rooted) (rev out) [] = out.
Proof.
  intros (reals & dds & -> & Hr & Hd & Hroot).
  rewrite rev_app_distr, fold_left_app.
  assert (E : fold_left (clean_elem rooted) (rev dds) [] = dds).
  { destruct rooted.
    - now rewrite (Hroot eq_refl).
    - rewrite fold_dotdots, rev_involutive, app_nil_r; auto.
      apply Forall_rev. exact Hd. }
  rewrite E, fold_reals, rev_involutive; [reflexivity|].
  apply Forall_rev. exact Hr.
Qed.

Lemma kept_names rooted out : kept rooted out -> Forall (fun e => is_name e = true) out.
Proof.
  intros (reals & dds & -> & Hr & Hd & _). apply Forall_app. split.
  - eapply Forall_impl; [exact Hr|]. apply is_real_name.
  - eapply Forall_impl; [exact Hd|]. now intros e ->.
Qed.

Lemma Clean_render path :
  path <> EmptyString ->
  Clean path =
  render (is_rooted path) (fold_left (clean_elem (is_rooted path)) (split_slash path) []).
Proof. destruct path; [congruence | reflexivity]. Qed.

Lemma render_slash rooted out :
  kept rooted out -> out <> [] ->
  Clean (render rooted out +:+ "/") = render rooted out.
Proof.
  intros Hk Hne. pose proof (kept_names _ _ Hk) as Hn.
  assert (Hes : rev out <> []).
  { intros E. apply Hne. apply (f_equal (@rev _)) in E. now rewrite rev_involutive in E. }
  assert (Hnr : Forall (fun e => is_name e = true) (rev out)) by now apply Forall_rev.
  destruct (rev out) as [|e es] eqn:Er; [congruence|].
  inversion Hnr as [|? ? He _]; subst.
  destruct (join_slash_first e es He) as (c & rest & EB & Hc).
  assert (Hsplit : split_slash (join_slash (e :: es) +:+ "/") = rev out ++ [EmptyString]).
  { change (join_slash (e :: es) +:+ "/")
      with (join_slash (e :: es) +:+ String "/" EmptyString).
    rewrite split_slash_app, split_join, Er; [reflexivity|discriminate|exact Hnr]. }
  assert (Hfold : fold_left (clean_elem rooted) (rev out ++ [EmptyString]) [] = out).
  { rewrite fold_left_app, (fold_kept _ _ Hk). reflexivity. }
  unfold render at 1. rewrite Er. destruct rooted.
  - change (("/" +:+ join_slash (e :: es)) +:+ "/")
      with (String "/" (join_slash (e :: es) +:+ "/")).
    unfold Clean. cbn [is_rooted split_slash].
    change (is_slash "/") with true. cbv iota.
    rewrite Hsplit. cbn [fold_left]. change (clean_elem true [] "") with (@nil string).
    rewrite Hfold. unfold render. rewrite Er. reflexivity.
  - rewrite EB. change (String c rest +:+ "/") with (String c (rest +:+ "/")).
    rewrite Clean_render by discriminate. cbn [is_rooted]. rewrite Hc.
    change (String c (rest +:+ "/")) with (String c rest +:+ "/").
    rewrite <- EB, Hsplit, Hfold. unfold render. rewrite Er, EB. reflexivity.
Qed.

Lemma drop_while_stop {A} (p : A -> bool) l x r :
  Forall (fun y => p y = true) l -> p x = false -> drop_while p (l ++ x :: r) = x :: r.
Proof.
  intros Hl Hx. induction Hl as [|y l Hy _ IH]; cbn; [now rewrite Hx|now rewrite Hy].
Qed.

Lemma drop_while_all {A} (p : A -> bool) l :
  Forall (fun y => p y = true) l -> drop_while p l = [].
Proof. induction 1 as [|y l Hy _ IH]; cbn; [reflexivity|now rewrite Hy]. Qed.

Lemma lacks_rev name :
  lacks "/" name = true ->
  Forall (fun y => negb (is_slash y) = true) (rev (to_bytes name)).
Proof.
  unfold lacks. rewrite forallb_forall. intros Hn.
  apply Forall_forall. intros y Hy. apply list_elem_of_In, in_rev, Hn in Hy. exact Hy.
Qed.

Lemma dir_part_name name : lacks "/" name = true -> dir_part name = EmptyString.
Proof.
  intros Hn. unfold dir_part. now rewrite (drop_while_all _ _ (lacks_rev _ Hn)).
Qed.

Lemma dir_part_slash p name :
  lacks "/" name = true -> dir_part (p +:+ String "/" name) = p +:+ "/".
Proof.
  intros Hn. unfold dir_part. rewrite to_bytes_app.
  change (to_bytes (String "/" name)) with ("/"%char :: to_bytes name).
  rewrite rev_app_distr. cbn [rev]. rewrite <- app_assoc. cbn [app].
  rewrite (drop_while_stop _ _ _ _ (lacks_rev _ Hn)) by reflexivity.
  cbn [rev]. rewrite rev_involutive, of_bytes_app, of_to_bytes. reflexivity.
Qed.

Lemma Dir_dir_part path : Dir path = Clean (dir_part path).
Proof. reflexivity. Qed.

Lemma dot_if_empty s :
  s <> EmptyString -> match s with EmptyString => "." | String _ _ => s end = s.
Proof. destruct s; [congruence | reflexivity]. Qed.

Lemma append_nonempty a b : b <> EmptyString -> a +:+ b <> EmptyString.
Proof. destruct a; [auto | discriminate]. Qed.

(** [filepath.Dir] undoes [filepath.Join] with a name, up to cleaning. *)
Lemma Dir_Join parent name :
  parent <> EmptyString -> is_real name = true -> Dir (Join parent name) = Clean parent.
Proof.
  intros Hp Hn.
  pose proof (is_name_lacks _ (is_real_name _ Hn)) as Hl.
  assert (Hne : name <> EmptyString) by (intros ->; discriminate Hn).
  assert (EJ : Join parent name = Clean (parent +:+ String "/" name)).
  { destruct parent; [congruence|reflexivity]. }
  assert (Er : is_rooted (parent +:+ String "/" name) = is_rooted parent).
  { destruct parent; [congruence|reflexivity]. }
  rewrite EJ, Clean_render, Er, split_slash_app, (split_slash_name _ Hl), fold_left_app
    by (destruct parent; [congruence|discriminate]).
  rewrite (Clean_render parent Hp).
  set (rooted := is_rooted parent).
  set (out := fold_left (clean_elem rooted) (split_slash parent) []).
  assert (Hk : kept rooted out) by (apply kept_fold; [apply kept_nil|apply split_slash_lacks]).
  cbn [fold_left]. rewrite (clean_elem_real _ _ _ Hn).
  rewrite Dir_dir_part. unfold render at 1. cbn [rev]. rewrite join_slash_snoc.
  destruct (rev out) as [|e es] eqn:Eo.
  - assert (out = []) as ->.
    { apply (f_equal (@rev _)) in Eo. now rewrite rev_involutive in Eo. }
    unfold render. cbn [rev join_slash]. destruct rooted.
    + change ("/" +:+ name) with (EmptyString +:+ String "/" name).
      rewrite (dir_part_slash _ _ Hl). reflexivity.
    + rewrite (dot_if_empty _ Hne), (dir_part_name _ Hl). reflexivity.
  - assert (Hout : out <> []) by (intros ->; discriminate).
    rewrite <- (render_slash rooted out Hk Hout). f_equal.
    unfold render. rewrite Eo. destruct rooted.
    + change ("/" +:+ (join_slash (e :: es) +:+ String "/" name))
        with (("/" +:+ join_slash (e :: es)) +:+ String "/" name).
      apply (dir_part_slash _ _ Hl).
    + pose proof (kept_names _ _ Hk) as Hnm. apply Forall_rev in Hnm. rewrite Eo in Hnm.
      inversion Hnm as [|? ? He _]; subst.
      destruct (join_slash_first e es He) as (c' & rest' & EB & _).
      rewrite (dot_if_empty (join_slash (e :: es) +:+ String "/" name))
        by (apply append_nonempty; discriminate).
      rewrite (dot_if_empty (join_slash (e :: es))) by (rewrite EB; discriminate).
      apply (dir_part_slash _ _ Hl).
Qed.

Lemma render_clean rooted out : kept rooted out -> Clean (render rooted out) = render rooted out.
Proof.
  intros Hk. destruct out as [|o out'] eqn:Eout.
  { destruct rooted; reflexivity. }
  rewrite <- Eout in *. assert (Hne : out <> []) by (rewrite Eout; discriminate).
  clear Eout o out'.
  pose proof (kept_names _ _ Hk) as Hn.
  assert (Hnr : Forall (fun e => is_name e = true) (rev out)) by now apply Forall_rev.
  destruct (rev out) as [|e es] eqn:Er.
  { apply (f_equal (@rev _)) in Er. rewrite rev_involutive in Er. contradiction. }
  inversion Hnr as [|? ? He _]; subst.
  destruct (join_slash_first e es He) as (c & rest & EB & Hc).
  assert (Hsplit : split_slash (join_slash (e :: es)) = rev out).
  { rewrite split_join, Er; [reflexivity|discriminate|exact Hnr]. }
  unfold render at 1. rewrite Er. destruct rooted.
  - change ("/" +:+ join_slash (e :: es)) with (String "/" (join_slash (e :: es))).
    unfold Clean. cbn [is_rooted split_slash].
    change (is_slash "/") with true. cbv iota.
    rewrite Hsplit. cbn [fold_left]. change (clean_elem true [] "") with (@nil string).
    rewrite (fold_kept _ _ Hk). unfold render. rewrite Er. reflexivity.
  - rewrite (dot_if_empty (join_slash (e :: es))) by (rewrite EB; discriminate).
    rewrite Clean_render by (rewrite EB; discriminate).
    assert (Hr : is_rooted (join_slash (e :: es)) = false) by (rewrite EB; exact Hc).
    rewrite Hr, Hsplit, (fold_kept _ _ Hk). unfold render. rewrite Er.
    now rewrite (dot_if_empty (join_slash (e :: es))) by (rewrite EB; discriminate).
Qed.

(** [filepath.Clean] leaves a cleaned path as it is. *)
Lemma Clean_idempotent path : Clean (Clean path) = Clean path.
Proof.
  destruct (String.eqb_spec path EmptyString) as [->|Hp]; [reflexivity|].
  rewrite (Clean_render path Hp). apply render_clean.
  apply kept_fold; [apply kept_nil | apply split_slash_lacks].
Qed.

(** ** The directory of a repository that was found *)

Lemma update_visit_git os path w v :
  git_origin os (history w) (Join path "config") = Url v ->
  update_visit os path (Some {| Name := ".git"; IsDir := true |}) None w =
  (Some SkipDir,
   {| config := {| Repos := Repos (config w) ++ [{| Directory := Dir path; Remote := v |}] |};
      flags := flags w;
      history := history w ++ [EvOrigin (Join path "config") (Url v)] |}).
Proof.
  intros Ho. unfold update_visit. cbn [IsDir Name].
  change (".git" =? ".git")%string with true. cbn [negb orb].
  rewrite bind_run, remoteDir_run, Ho. reflexivity.
Qed.

(** X16.  A metadata directory [.git] in a directory [parent], whose
    configuration gives a url, adds one repository to the manifest and is
    skipped: the walk reads its names and looks the url up, and whatever
    is inside the directory plays no part.  The walk comes to it by the
    path [filepath.Join(parent, ".git")], and the directory recorded,
    [filepath.Dir] of that path, is [parent] cleaned: a clean path, equal
    to [parent] when [parent] is clean. *)
Theorem repository_is_recorded_by_its_parent os parent entries w v :
  let git := Join parent ".git" in
  parent <> EmptyString ->
  git_origin os (history w ++ [EvReadDir git None]) (Join git "config") = Url v ->
  walk (update_visit os) git (Folder ".git" None entries) w =
  (Some SkipDir,
   {| config :=
        {| Repos := Repos (config w) ++ [{| Directory := Clean parent; Remote := v |}] |};
      flags := flags w;
      history := history w ++ [EvReadDir git None; EvOrigin (Join git "config") (Url v)] |}) /\
  Clean (Clean parent) = Clean parent /\
  (Clean parent = parent -> Dir git = parent).
Proof.
  intros git Hp Ho. split; [|split; [apply Clean_idempotent|]].
  - cbn [walk]. rewrite bind_run. cbn [fst fmap option_fmap option_map].
    rewrite bind_run.
    change (info_of (Folder ".git" None entries)) with {| Name := ".git"; IsDir := true |}.
    rewrite (update_visit_git os git (record (EvReadDir git None) w).2 v Ho).
    cbn [fst snd record history config flags bool_decide orb mret M_ret].
    unfold git. rewrite (Dir_Join parent ".git" Hp eq_refl).
    rewrite <- app_assoc. reflexivity.
  - intros Hc. unfold git. now rewrite (Dir_Join parent ".git" Hp eq_refl).
Qed.

Lemma repository_is_recorded_by_its_parent_witness :
  walk (update_visit (os_status clean_status)) "/r/b/.git"
    (Folder ".git" None [File "config"]) world_r =
  (Some SkipDir,
   {| config := {| Repos := [repo_b] |}; flags := flags world_r;
      history := [EvReadDir "/r/b/.git" None; EvOrigin "/r/b/.git/config" (Url "u2")] |}).
Proof.
  refine (proj1 (repository_is_recorded_by_its_parent (os_status clean_status) "/r//b/"
                   [File "config"] world_r "u2" _ _)).
  - discriminate.
  - reflexivity.
Defined.

(** ** What is written back *)

Lemma persist_config os filename w : config (persist os filename w).2 = config w.
Proof. unfold persist. now destruct (yaml_Marshal os (config w)). Qed.







(** ** What is upgraded and what is written *)

Lemma stage_no_verdict new :
  Forall (fun e => stage_of e <> Reconcile) new -> omap verdict_dir new = [].
Proof.
  intros H. apply omap_no_verdict. eapply Forall_impl; [exact H|].
  intros e He. destruct e as [sev msg| | | | | | | | | |]; try reflexivity.
  destruct sev, msg; try reflexivity; now elim He.
Qed.

Lemma grows_no_verdict (s : Stage) w w' :
  s <> Reconcile -> grows (in_stage s) w w' -> omap verdict_dir (since w w') = [].
Proof.
  intros Hs G. apply stage_no_verdict.
  eapply Forall_impl; [apply (grows_since_Forall _ _ _ G)|].
  intros e He. unfold in_stage in He. congruence.
Qed.

(** X18.  In a run of [do] that reaches the upgrade (the manifest was read
    and parsed, [update] was not asked for or gave no error), the outcome
    lines of the log name the directories of the manifest [do] ends with,
    each entry once and in its order: what is written back with [-update]
    is what was upgraded.  Without [-update] that manifest is the parsed
    one. *)
Theorem do_upgrades_its_manifest os w yaml c :
  io_ReadFile os (history w) (manifest_file w) = inl yaml ->
  yaml_Unmarshal os yaml (config w) = (c, None) ->
  (Update (flags w) = true -> (update os (loaded w yaml c)).1 = None) ->
  Upgrade (flags w) = true ->
  omap verdict_dir (since w (do os w).2) = map Directory (Repos (config (do os w).2)) /\
  (Update (flags w) = false -> config (do os w).2 = c).
Proof.
  intros Hr Hu HU HG.
  pose proof (do_unfold os w) as E. cbv zeta in E.
  rewrite Hr, Hu in E. cbn [fst snd] in E. rewrite HG in E.
  set (w2 := loaded w yaml c) in *.
  assert (G2 : grows (in_stage Load) w w2).
  { split; [reflexivity|]. eexists. split; [reflexivity|]. repeat constructor. }
  pose proof (grows_no_verdict Load w w2 ltac:(discriminate) G2) as V2.
  destruct (Update (flags w)) eqn:EU.
  - rewrite (HU eq_refl) in E. split; [|discriminate].
    set (w3 := (update os w2).2) in *. set (w4 := (upgrade os w3).2) in *.
    assert (G3 : grows (in_stage Discover) w2 w3) by apply (update_spec os w2).
    assert (G4 : grows (in_stage Reconcile) w3 w4) by apply upgrade_emits.
    pose proof (persist_grows os (manifest_file w) w4) as G5.
    rewrite E, persist_config.
    rewrite (since_trans _ _ _ _ _ G2
               (grows_trans _ _ _ _ (grows_any _ _ _ G3)
                  (grows_trans _ _ _ _ (grows_any _ _ _ G4) (grows_any _ _ _ G5)))).
    rewrite (since_trans _ _ _ _ _ G3
               (grows_trans _ _ _ _ (grows_any _ _ _ G4) (grows_any _ _ _ G5))).
    rewrite (since_trans _ _ _ _ _ G4 G5), !omap_app, V2.
    rewrite (grows_no_verdict Discover w2 w3 ltac:(discriminate) G3).
    rewrite (grows_no_verdict Persist w4 _ ltac:(discriminate) G5).
    unfold w4. rewrite upgrade_verdicts, upgrade_keeps. cbn. now rewrite app_nil_r.
  - cbn [fst snd] in E. rewrite E. cbn [snd].
    assert (G4 : grows (in_stage Reconcile) w2 (upgrade os w2).2) by apply upgrade_emits.
    rewrite (since_trans _ _ _ _ _ G2 G4), omap_app, V2, upgrade_verdicts, upgrade_keeps.
    split; reflexivity.
Qed.

Lemma do_upgrades_its_manifest_witness :
  omap verdict_dir (since world_r (do (os_status clean_status) world_r).2) =
  map Directory (Repos (config (do (os_status clean_status) world_r).2)).
Proof.
  refine (proj1 (do_upgrades_its_manifest (os_status clean_status) world_r
                   "repos: ..." {| Repos := [repo_a] |} _ _ _ _)).
  - reflexivity.
  - reflexivity.
  - intros _. vm_compute. reflexivity.
  - reflexivity.
Defined.

(** ** A repository that is not there yet *)

(** X19.  For a repository whose [.git] directory is missing, when
    [git clone], [git fetch], [git status] and [git pull] each run to the
    end and the status is accepted, the loop body of [upgrade] is: the
    [os.Stat], the clone and its line, the fetch and its line, the status,
    the pull and the line of the finished upgrade, in this order and
    nothing else.  A fresh clone is fetched and pulled in the same run. *)
Theorem fresh_clone_is_fetched_and_pulled os repo w e out1 out2 out3 out4 :
  let git := Join (Directory repo) ".git" in
  let w1 := after w (EvStat git (Some e) :: run_events (git_clone_cmd repo) Stderr out1 ++
                     [EvLog INFO (MsgCloneFinished (Directory repo))]) in
  let w2 := after w1 (run_events (git_fetch_cmd repo) Stderr out2 ++
                      [EvLog INFO (MsgFetchFinished (Directory repo))]) in
  let w3 := after w2 (run_events (git_status_cmd repo) Stdout out3) in
  os_Stat os (history w) git = Some e -> IsNotExist e = true ->
  completes os (git_clone_cmd repo) Stderr (history w ++ [EvStat git (Some e)]) out1 ->
  completes os (git_fetch_cmd repo) Stderr (history w1) out2 ->
  completes os (git_status_cmd repo) Stdout (history w2) out3 -> gate out3 = true ->
  completes os (git_pull_cmd repo) Stderr (history w3) out4 ->
  upgrade_repo os repo w =
  (tt, after w3 (run_events (git_pull_cmd repo) Stderr out4 ++
                 [EvLog INFO (MsgUpgradeFinished (Directory repo))])).
Proof.
  intros git w1 w2 w3 Hs Hn H1 H2 H3 Hg H4. subst git.
  set (git := Join (Directory repo) ".git") in *.
  unfold upgrade_repo. rewrite bind_run.
  rewrite (gitClone_missing os repo w e Hs Hn). fold git.
  rewrite (run_capture_completes os _ (after w [EvStat git (Some e)]) out1 H1).
  cbn [fst snd]. rewrite bind_run. cbn [fst].
  change (glog_Info (MsgCloneFinished (Directory repo))
            (after (after w [EvStat git (Some e)])
               (run_events (git_clone_cmd repo) Stderr out1))).2
    with (after (after (after w [EvStat git (Some e)])
                   (run_events (git_clone_cmd repo) Stderr out1))
            [EvLog INFO (MsgCloneFinished (Directory repo))]).
  rewrite !after_after.
  change (after w _) with w1.
  rewrite (fetch_step_completes os repo w1 out2 H2). fold w2.
  apply (proj2 (pull_step_accepted os repo w2 out3 H3 Hg) out4 H4).
Qed.

Lemma fresh_clone_is_fetched_and_pulled_witness :
  upgrade_repo os_fresh repo_a world_ab =
  (tt,
   after world_ab
     (EvStat "/r/a/.git" (Some (ENOENT "no such file or directory")) ::
      run_events (git_clone_cmd repo_a) Stderr EmptyString ++
      [EvLog INFO (MsgCloneFinished "/r/a")] ++
      run_events (git_fetch_cmd repo_a) Stderr EmptyString ++
      [EvLog INFO (MsgFetchFinished "/r/a")] ++
      run_events (git_status_cmd repo_a) Stdout clean_status ++
      run_events (git_pull_cmd repo_a) Stderr EmptyString ++
      [EvLog INFO (MsgUpgradeFinished "/r/a")])).
Proof.
  rewrite (fresh_clone_is_fetched_and_pulled os_fresh repo_a world_ab
             (ENOENT "no such file or directory") EmptyString EmptyString clean_status
             EmptyString).
  - reflexivity.
  - reflexivity.
  - reflexivity.
  - repeat split.
  - repeat split.
  - repeat split.
  - vm_compute. reflexivity.
  - repeat split.
Defined.
